(** * LAN messenger core: wire codec, transport framing and peer discovery

    A shallow embedding of [src/core/protocol.py], [src/core/network.py]
    and [src/core/discovery.py], of the callbacks and the peer list of
    the two interfaces ([src/tui/app.py], [src/gui/app.py]), and of the
    parts of the Python
    runtime these modules call ([bytes.decode], [str.encode],
    [json.dumps], [json.loads], [dict], [socket.recv], [str.split],
    [str.strip]).

    Conventions.
    - A Python [str] is the list of its code points, a [bytes] object the
      list of its byte values, both as [Z].
    - A raised exception is the [Raise] case of [result]; [try/except]
      is a match on it.
    - Callbacks and log calls are recorded as events of a trace, in the
      order the code performs them.
    - Floats are kept as the text of their literal: no floating point
      arithmetic is modelled.  Wall-clock time is a rational number of
      seconds.
    - The limits of the interpreter (memory, depth of recursion, number
      of digits of a converted integer) are not modelled. *)

From Stdlib Require Import Ascii String.
From Stdlib Require Import ZArith List Bool Lia QArith Lqa.
From Stdlib Require Import Decimal DecimalFacts DecimalPos DecimalZ.
From Stdlib Require Import Permutation.
Import ListNotations.

Set Warnings "-register-all".

Local Open Scope Z_scope.

(* ===================================================================== *)
(** ** Python runtime: exceptions, strings, bytes *)
(* ===================================================================== *)

Module Py.

Inductive exn : Type :=
| UnicodeDecodeError
| UnicodeEncodeError
| JSONDecodeError
| KeyError
| TypeError
| ValueError
| AttributeError
| OverflowError
| OSError.

Inductive result (A : Type) : Type :=
| Ok (a : A)
| Raise (e : exn).

Arguments Ok {A} a.
Arguments Raise {A} e.

Definition bind {A B : Type} (r : result A) (k : A -> result B) : result B :=
  match r with
  | Ok a => k a
  | Raise e => Raise e
  end.

Definition str := list Z.
Definition bytes := list Z.

(** [lit "abc"] is the Python string literal ['abc']. *)
Definition ord (a : ascii) : Z := Z.of_N (N_of_ascii a).
Definition lit (s : string) : str := List.map ord (list_ascii_of_string s).

Fixpoint str_eqb (a b : str) : bool :=
  match a, b with
  | [], [] => true
  | x :: a', y :: b' => (x =? y) && str_eqb a' b'
  | _, _ => false
  end.

Definition between (lo c hi : Z) : bool := (lo <=? c) && (c <=? hi).

Definition is_high_surrogate (c : Z) : bool := between 0xD800 c 0xDBFF.
Definition is_low_surrogate (c : Z) : bool := between 0xDC00 c 0xDFFF.
Definition is_surrogate (c : Z) : bool := between 0xD800 c 0xDFFF.

(** *** [bytes.decode('utf-8')], strict error handler *)

Definition is_cont (b : Z) : bool := between 0x80 b 0xBF.

Fixpoint utf8_decode (b : bytes) : option str :=
  match b with
  | [] => Some []
  | b0 :: r0 =>
    if between 0 b0 0x7F then
      option_map (cons b0) (utf8_decode r0)
    else if between 0xC0 b0 0xDF then
      match r0 with
      | b1 :: r1 =>
        let cp := (b0 - 0xC0) * 64 + (b1 - 0x80) in
        if is_cont b1 && (0x80 <=? cp)
        then option_map (cons cp) (utf8_decode r1)
        else None
      | _ => None
      end
    else if between 0xE0 b0 0xEF then
      match r0 with
      | b1 :: b2 :: r2 =>
        let cp := ((b0 - 0xE0) * 64 + (b1 - 0x80)) * 64 + (b2 - 0x80) in
        if is_cont b1 && is_cont b2 && (0x800 <=? cp) && negb (is_surrogate cp)
        then option_map (cons cp) (utf8_decode r2)
        else None
      | _ => None
      end
    else if between 0xF0 b0 0xF7 then
      match r0 with
      | b1 :: b2 :: b3 :: r3 =>
        let cp := (((b0 - 0xF0) * 64 + (b1 - 0x80)) * 64 + (b2 - 0x80)) * 64
                  + (b3 - 0x80) in
        if is_cont b1 && is_cont b2 && is_cont b3 && between 0x10000 cp 0x10FFFF
        then option_map (cons cp) (utf8_decode r3)
        else None
      | _ => None
      end
    else None
  end.

Definition bytes_decode_utf8 (b : bytes) : result str :=
  match utf8_decode b with
  | Some s => Ok s
  | None => Raise UnicodeDecodeError
  end.

(** *** [str.encode('utf-8')], strict error handler *)

Definition utf8_encode_char (c : Z) : option bytes :=
  if between 0 c 0x7F then Some [c]
  else if between 0x80 c 0x7FF then
    Some [0xC0 + c / 64; 0x80 + c mod 64]
  else if is_surrogate c then None
  else if between 0x800 c 0xFFFF then
    Some [0xE0 + c / 4096; 0x80 + (c / 64) mod 64; 0x80 + c mod 64]
  else if between 0x10000 c 0x10FFFF then
    Some [0xF0 + c / 262144; 0x80 + (c / 4096) mod 64;
          0x80 + (c / 64) mod 64; 0x80 + c mod 64]
  else None.

Fixpoint utf8_encode (s : str) : option bytes :=
  match s with
  | [] => Some []
  | c :: s' =>
    match utf8_encode_char c, utf8_encode s' with
    | Some b, Some bs => Some (b ++ bs)
    | _, _ => None
    end
  end.

Definition str_encode_utf8 (s : str) : result bytes :=
  match utf8_encode s with
  | Some b => Ok b
  | None => Raise UnicodeEncodeError
  end.

(** *** [str.encode('latin1')] *)

Definition str_encode_latin1 (s : str) : result bytes :=
  if forallb (fun c => between 0 c 0xFF) s then Ok s else Raise UnicodeEncodeError.

(** *** [int.from_bytes(b, byteorder='big')] and [n.to_bytes(4, byteorder='big')] *)

Definition int_from_bytes_big (b : bytes) : Z :=
  fold_left (fun acc x => acc * 256 + x) b 0.

Definition int_to_bytes4_big (n : Z) : result bytes :=
  if between 0 n 0xFFFFFFFF
  then Ok [n / 16777216; (n / 65536) mod 256; (n / 256) mod 256; n mod 256]
  else Raise OverflowError.

End Py.

Import Py.

Notation "x <- r ;; k" := (bind r (fun x => k))
  (at level 61, r at next level, right associativity).

(* ===================================================================== *)
(** ** Python values and insertion-ordered dictionaries *)
(* ===================================================================== *)

(** The values [json.loads] can build and [json.dumps] can print.  A
    [dict] keeps its keys in insertion order, which is the order
    [json.dumps] prints them in and the order a [for] loop scans them
    in, so it is an association list with unique keys. *)
Inductive pyval : Type :=
| PyNone
| PyBool (b : bool)
| PyInt (z : Z)
| PyFloat (lexeme : str)
| PyStr (s : str)
| PyList (l : list pyval)
| PyDict (d : list (str * pyval)).

Section Dict.
Context {V : Type}.

Definition dict := list (str * V).

(** [d.get(k)]: [None] when the key is absent *)
Fixpoint dict_get (k : str) (d : dict) : option V :=
  match d with
  | [] => None
  | (k', v) :: d' => if str_eqb k k' then Some v else dict_get k d'
  end.

(** [k in d] *)
Definition dict_mem (k : str) (d : dict) : bool :=
  match dict_get k d with Some _ => true | None => false end.

(** [d[k] = v]: an existing key keeps its position *)
Fixpoint dict_set (k : str) (v : V) (d : dict) : dict :=
  match d with
  | [] => [(k, v)]
  | (k', v') :: d' =>
    if str_eqb k k' then (k', v) :: d' else (k', v') :: dict_set k v d'
  end.

(** [del d[k]] on a present key *)
Fixpoint dict_del (k : str) (d : dict) : dict :=
  match d with
  | [] => []
  | (k', v') :: d' =>
    if str_eqb k k' then d' else (k', v') :: dict_del k d'
  end.

Definition dict_keys (d : dict) : list str := List.map fst d.

(** [dict(pairs)] *)
Definition dict_of_pairs (pairs : list (str * V)) : dict :=
  fold_left (fun d kv => dict_set (fst kv) (snd kv) d) pairs [].

Fixpoint unique_keys (d : dict) : bool :=
  match d with
  | [] => true
  | (k, _) :: d' => negb (dict_mem k d') && unique_keys d'
  end.
End Dict.

Arguments dict V : clear implicits.

(* ===================================================================== *)
(** ** The [json] module *)
(* ===================================================================== *)

Module json.

(** *** [json.dumps] with its default options
    ([ensure_ascii=True], separators [', '] and [': '], no indent) *)

Definition hexdigit (d : Z) : Z := if d <? 10 then 48 + d else 87 + d.

(** ['\\u{0:04x}'.format(n)] *)
Definition u_escape (n : Z) : str :=
  [92; 117; hexdigit (n / 4096); hexdigit ((n / 256) mod 16);
   hexdigit ((n / 16) mod 16); hexdigit (n mod 16)].

(** The replacement of one character by [encode_basestring_ascii]:
    [ESCAPE_DCT] first, then printable ASCII unchanged, then [\uXXXX],
    with a surrogate pair above the basic plane. *)
Definition escape_char (c : Z) : str :=
  if c =? 34 then [92; 34]
  else if c =? 92 then [92; 92]
  else if c =? 8 then [92; 98]
  else if c =? 12 then [92; 102]
  else if c =? 10 then [92; 110]
  else if c =? 13 then [92; 114]
  else if c =? 9 then [92; 116]
  else if between 0x20 c 0x7E then [c]
  else if c <? 0x10000 then u_escape c
  else
    let n := c - 0x10000 in
    let s1 := Z.lor 0xD800 (Z.land (Z.shiftr n 10) 0x3FF) in
    let s2 := Z.lor 0xDC00 (Z.land n 0x3FF) in
    u_escape s1 ++ u_escape s2.

Definition encode_basestring_ascii (s : str) : str :=
  34 :: flat_map escape_char s ++ [34].

Fixpoint uint_chars (d : uint) : str :=
  match d with
  | Nil => []
  | D0 d' => 48 :: uint_chars d'
  | D1 d' => 49 :: uint_chars d'
  | D2 d' => 50 :: uint_chars d'
  | D3 d' => 51 :: uint_chars d'
  | D4 d' => 52 :: uint_chars d'
  | D5 d' => 53 :: uint_chars d'
  | D6 d' => 54 :: uint_chars d'
  | D7 d' => 55 :: uint_chars d'
  | D8 d' => 56 :: uint_chars d'
  | D9 d' => 57 :: uint_chars d'
  end.

(** [int.__repr__]; the interpreter's limit on the number of digits of
    a converted integer is not modelled. *)
Definition int_repr (z : Z) : str :=
  match Z.to_int z with
  | Pos d => uint_chars d
  | Neg d => 45 :: uint_chars d
  end.

(** [sep.join(l)] *)
Fixpoint join (sep : str) (l : list str) : str :=
  match l with
  | [] => []
  | x :: l' =>
    match l' with
    | [] => x
    | _ => x ++ sep ++ join sep l'
    end
  end.

Fixpoint dumps (v : pyval) : str :=
  match v with
  | PyNone => lit "null"
  | PyBool true => lit "true"
  | PyBool false => lit "false"
  | PyInt z => int_repr z
  | PyFloat lexeme => lexeme
  | PyStr s => encode_basestring_ascii s
  | PyList l => 91 :: join (lit ", ") (List.map dumps l) ++ [93]
  | PyDict d =>
    123 :: join (lit ", ")
             (List.map (fun kv => encode_basestring_ascii (fst kv)
                                   ++ lit ": " ++ dumps (snd kv)) d)
        ++ [125]
  end.

(** *** [json.loads] with its default options ([strict=True], no hooks)

    The decoder reads from the front of the remaining text and returns
    the value together with the text left over, where the Python code
    returns the value and the index of the next character.  A [None]
    stands for the [JSONDecodeError] the decoder raises. *)

Definition is_ws (c : Z) : bool :=
  (c =? 32) || (c =? 9) || (c =? 10) || (c =? 13).

(** [WHITESPACE.match(s, end).end()] *)
Fixpoint skip_ws (s : str) : str :=
  match s with
  | c :: r => if is_ws c then skip_ws r else s
  | [] => []
  end.

Fixpoint strip_prefix (p s : str) : option str :=
  match p with
  | [] => Some s
  | x :: p' =>
    match s with
    | y :: s' => if x =? y then strip_prefix p' s' else None
    | [] => None
    end
  end.

Definition hexval (c : Z) : option Z :=
  if between 48 c 57 then Some (c - 48)
  else if between 97 c 102 then Some (c - 87)
  else if between 65 c 70 then Some (c - 55)
  else None.

(** [_decode_uXXXX]: four hexadecimal digits after the [u] *)
Definition decode_uXXXX (s : str) : option (Z * str) :=
  match s with
  | h1 :: h2 :: h3 :: h4 :: r =>
    match hexval h1, hexval h2, hexval h3, hexval h4 with
    | Some a, Some b, Some c, Some d =>
      Some (((a * 16 + b) * 16 + c) * 16 + d, r)
    | _, _, _, _ => None
    end
  | _ => None
  end.

(** The [BACKSLASH] table *)
Definition BACKSLASH (esc : Z) : option Z :=
  if esc =? 34 then Some 34
  else if esc =? 92 then Some 92
  else if esc =? 47 then Some 47
  else if esc =? 98 then Some 8
  else if esc =? 102 then Some 12
  else if esc =? 110 then Some 10
  else if esc =? 114 then Some 13
  else if esc =? 116 then Some 9
  else None.

(** The part of the [scanstring] loop that follows a backslash: a
    simple escape, a [\uXXXX] escape, or a [\uXXXX\uXXXX] surrogate pair
    joined into one character. *)
Definition scan_escape (s : str) : option (Z * str) :=
  match s with
  | [] => None
  | esc :: r =>
    if esc =? 117 then
      match decode_uXXXX r with
      | None => None
      | Some (uni, r1) =>
        if is_high_surrogate uni then
          match r1 with
          | c1 :: c2 :: r2 =>
            if (c1 =? 92) && (c2 =? 117) then
              match decode_uXXXX r2 with
              | None => None
              | Some (uni2, r3) =>
                if is_low_surrogate uni2
                then Some (0x10000 + Z.lor (Z.shiftl (uni - 0xD800) 10)
                                           (uni2 - 0xDC00), r3)
                else Some (uni, r1)
              end
            else Some (uni, r1)
          | _ => Some (uni, r1)
          end
        else Some (uni, r1)
      end
    else
      match BACKSLASH esc with
      | Some c => Some (c, r)
      | None => None
      end
  end.

(** [scanstring(s, end)], started after the opening quote; every turn
    of its loop consumes at least one character, which bounds it. *)
Fixpoint scanstring_loop (fuel : nat) (s : str) : option (str * str) :=
  match fuel with
  | O => None
  | S f =>
    match s with
    | [] => None
    | c :: r =>
      if c =? 34 then Some ([], r)
      else if c =? 92 then
        match scan_escape r with
        | None => None
        | Some (ch, r') =>
          match scanstring_loop f r' with
          | Some (cs, rest) => Some (ch :: cs, rest)
          | None => None
          end
        end
      else if c <=? 0x1F then None
      else
        match scanstring_loop f r with
        | Some (cs, rest) => Some (c :: cs, rest)
        | None => None
        end
    end
  end.

Definition scanstring (s : str) : option (str * str) :=
  scanstring_loop (S (length s)) s.

Definition digit_of (c : Z) : option (uint -> uint) :=
  if c =? 48 then Some D0 else if c =? 49 then Some D1
  else if c =? 50 then Some D2 else if c =? 51 then Some D3
  else if c =? 52 then Some D4 else if c =? 53 then Some D5
  else if c =? 54 then Some D6 else if c =? 55 then Some D7
  else if c =? 56 then Some D8 else if c =? 57 then Some D9
  else None.

(** The longest run of decimal digits at the front of the text *)
Fixpoint scan_digits (s : str) : uint * str :=
  match s with
  | [] => (Nil, [])
  | c :: r =>
    match digit_of c with
    | Some D => let (d, rest) := scan_digits r in (D d, rest)
    | None => (Nil, s)
    end
  end.

(** An optional fraction (a dot and at least one digit): the text
    after it, or the text itself *)
Definition skip_frac (s : str) : str :=
  match s with
  | c :: r =>
    if c =? 46 then
      match scan_digits r with
      | (Nil, _) => s
      | (_, rest) => rest
      end
    else s
  | [] => s
  end.

(** An optional exponent ([e] or [E], an optional sign, at least one
    digit): the text after it, or the text itself *)
Definition skip_exp (s : str) : str :=
  match s with
  | e :: r =>
    if (e =? 101) || (e =? 69) then
      let r1 := match r with
                | sg :: r' => if (sg =? 43) || (sg =? 45) then r' else r
                | [] => r
                end in
      match scan_digits r1 with
      | (Nil, _) => s
      | (_, rest) => rest
      end
    else s
  | [] => s
  end.

(** [NUMBER_RE]: an optional minus sign, then [0] or a digit run that
    does not start with [0], then an optional fraction and an optional
    exponent.  An integer literal becomes an [int]; a literal with a
    fraction or an exponent becomes a float, kept as its text. *)
Definition match_number (s : str) : option (pyval * str) :=
  let (neg, s1) := match s with
                   | c :: r => if c =? 45 then (true, r) else (false, s)
                   | [] => (false, s)
                   end in
  let integer : option (uint * str) :=
    match s1 with
    | c :: r =>
      if c =? 48 then Some (D0 Nil, r)
      else if between 49 c 57 then Some (scan_digits s1)
      else None
    | [] => None
    end in
  match integer with
  | None => None
  | Some (ds, s2) =>
    let s4 := skip_exp (skip_frac s2) in
    if (length s4 <? length s2)%nat
    then Some (PyFloat (firstn (length s - length s4) s), s4)
    else Some (PyInt (Z.of_int (if neg then Neg ds else Pos ds)), s2)
  end.

Section Containers.
(** [JSONArray] and [JSONObject] receive the scanner as an argument. *)
Variable scan_once : str -> option (pyval * str).

Fixpoint JSONArray_loop (n : nat) (s : str) (values : list pyval)
  : option (pyval * str) :=
  match n with
  | O => None
  | S n' =>
    match scan_once s with
    | None => None
    | Some (value, s1) =>
      let values := values ++ [value] in
      match skip_ws s1 with
      | c :: s2 =>
        if c =? 93 then Some (PyList values, s2)
        else if c =? 44 then JSONArray_loop n' (skip_ws s2) values
        else None
      | [] => None
      end
    end
  end.

Definition JSONArray (s : str) : option (pyval * str) :=
  match skip_ws s with
  | c :: r =>
    if c =? 93 then Some (PyList [], r)
    else JSONArray_loop (S (length s)) (skip_ws s) []
  | [] => None
  end.

(** The loop starts after the opening quote of a key. *)
Fixpoint JSONObject_loop (n : nat) (s : str) (pairs : list (str * pyval))
  : option (pyval * str) :=
  match n with
  | O => None
  | S n' =>
    match scanstring s with
    | None => None
    | Some (key, s1) =>
      match skip_ws s1 with
      | c :: s2 =>
        if c =? 58 then
          match scan_once (skip_ws s2) with
          | None => None
          | Some (value, s3) =>
            let pairs := pairs ++ [(key, value)] in
            match skip_ws s3 with
            | c' :: s4 =>
              if c' =? 125 then Some (PyDict (dict_of_pairs pairs), s4)
              else if c' =? 44 then
                match skip_ws s4 with
                | q :: s5 =>
                  if q =? 34 then JSONObject_loop n' s5 pairs else None
                | [] => None
                end
              else None
            | [] => None
            end
          end
        else None
      | [] => None
      end
    end
  end.

Definition JSONObject (s : str) : option (pyval * str) :=
  match skip_ws s with
  | c :: r =>
    if c =? 125 then Some (PyDict [], r)
    else if c =? 34 then JSONObject_loop (S (length r)) r []
    else None
  | [] => None
  end.
End Containers.

(** [scan_once]: the fuel bounds the nesting depth, and every level of
    nesting consumes its opening bracket, so that a bound above the
    length of the text is never reached ([scan_once_fuel] below).  The
    interpreter's own limit on the depth of recursion is not modelled. *)
Fixpoint scan_once (fuel : nat) (s : str) : option (pyval * str) :=
  match fuel with
  | O => None
  | S f =>
    match s with
    | [] => None
    | nextchar :: r =>
      if nextchar =? 34 then
        match scanstring r with
        | Some (x, rest) => Some (PyStr x, rest)
        | None => None
        end
      else if nextchar =? 123 then JSONObject (scan_once f) r
      else if nextchar =? 91 then JSONArray (scan_once f) r
      else
        match strip_prefix (lit "null") s with
        | Some rest => Some (PyNone, rest)
        | None =>
        match strip_prefix (lit "true") s with
        | Some rest => Some (PyBool true, rest)
        | None =>
        match strip_prefix (lit "false") s with
        | Some rest => Some (PyBool false, rest)
        | None =>
        match match_number s with
        | Some res => Some res
        | None =>
        match strip_prefix (lit "NaN") s with
        | Some rest => Some (PyFloat (lit "NaN"), rest)
        | None =>
        match strip_prefix (lit "Infinity") s with
        | Some rest => Some (PyFloat (lit "Infinity"), rest)
        | None =>
        match strip_prefix (lit "-Infinity") s with
        | Some rest => Some (PyFloat (lit "-Infinity"), rest)
        | None => None
        end end end end end end end
    end
  end.

(** [json.loads(s)]: no byte order mark, one value between optional
    white space, and nothing after it. *)
Definition loads (s : str) : result pyval :=
  let starts_with_bom := match s with
                         | c :: _ => c =? 0xFEFF
                         | [] => false
                         end in
  if starts_with_bom then Raise JSONDecodeError
  else
    match scan_once (S (length s)) (skip_ws s) with
    | None => Raise JSONDecodeError
    | Some (obj, rest) =>
      match skip_ws rest with
      | [] => Ok obj
      | _ :: _ => Raise JSONDecodeError
      end
    end.

End json.

(* ===================================================================== *)
(** ** [src/core/protocol.py] *)
(* ===================================================================== *)

Module protocol.

Definition UDP_PORT : Z := 5000.
Definition TCP_PORT : Z := 5001.
Definition BUFFER_SIZE : nat := 4096.
Definition BROADCAST_IP : str := lit "<broadcast>".
Definition DISCOVERY_INTERVAL : Q := 2.

Inductive MessageType : Type :=
| DISCOVERY
| TEXT
| FILE_OFFER
| FILE_ACCEPT
| FILE_REJECT
| FILE_DATA
| FILE_END.

(** [member.value] *)
Definition value (t : MessageType) : str :=
  match t with
  | DISCOVERY => lit "DISCOVERY"
  | TEXT => lit "TEXT"
  | FILE_OFFER => lit "FILE_OFFER"
  | FILE_ACCEPT => lit "FILE_ACCEPT"
  | FILE_REJECT => lit "FILE_REJECT"
  | FILE_DATA => lit "FILE_DATA"
  | FILE_END => lit "FILE_END"
  end.

Definition members : list MessageType :=
  [DISCOVERY; TEXT; FILE_OFFER; FILE_ACCEPT; FILE_REJECT; FILE_DATA; FILE_END].

Definition MessageType_eqb (a b : MessageType) : bool :=
  match a, b with
  | DISCOVERY, DISCOVERY | TEXT, TEXT | FILE_OFFER, FILE_OFFER
  | FILE_ACCEPT, FILE_ACCEPT | FILE_REJECT, FILE_REJECT
  | FILE_DATA, FILE_DATA | FILE_END, FILE_END => true
  | _, _ => false
  end.

(** [MessageType(v)]: the member whose value equals [v], [ValueError]
    when there is none.  Only a string can equal a member's value. *)
Definition MessageType_call (v : pyval) : result MessageType :=
  match v with
  | PyStr s =>
    match find (fun t => str_eqb s (value t)) members with
    | Some t => Ok t
    | None => Raise ValueError
    end
  | _ => Raise ValueError
  end.

(** The dataclass.  The annotations of [sender_name], [sender_ip] and
    [payload] are not enforced at run time, so these fields hold
    whatever value they were given. *)
Record Message : Type := mkMessage {
  type : MessageType;
  sender_name : pyval;
  sender_ip : pyval;
  payload : pyval
}.

Definition field_names : list str :=
  [lit "type"; lit "sender_name"; lit "sender_ip"; lit "payload"].

(** [Message( **data)] once [data['type']] holds the member [ty]: every
    key must name a field, [sender_name] and [sender_ip] have no
    default, [payload] defaults to [None]. *)
Definition Message_init (ty : MessageType) (data : dict pyval) : result Message :=
  if forallb (fun k => existsb (str_eqb k) field_names) (dict_keys data) then
    match dict_get (lit "sender_name") data, dict_get (lit "sender_ip") data with
    | Some n, Some i =>
      Ok {| type := ty;
            sender_name := n;
            sender_ip := i;
            payload := match dict_get (lit "payload") data with
                       | Some p => p
                       | None => PyNone
                       end |}
    | _, _ => Raise TypeError
    end
  else Raise TypeError.

(** [asdict(self)] with [data['type'] = self.type.value] *)
Definition to_json (self : Message) : str :=
  let data :=
    [(lit "type", PyStr (value (type self)));
     (lit "sender_name", sender_name self);
     (lit "sender_ip", sender_ip self);
     (lit "payload", payload self)] in
  json.dumps (PyDict data).

(** [data['type']] on the value [json.loads] returned *)
Definition getitem (data : pyval) (key : str) : result pyval :=
  match data with
  | PyDict d =>
    match dict_get key d with
    | Some v => Ok v
    | None => Raise KeyError
    end
  | _ => Raise TypeError
  end.

Definition from_json (json_str : str) : result Message :=
  data <- json.loads json_str ;;
  t <- getitem data (lit "type") ;;
  ty <- MessageType_call t ;;
  match data with
  | PyDict d => Message_init ty d
  | _ => Raise TypeError
  end.

Definition to_bytes (self : Message) : result bytes :=
  let json_str := to_json self in
  str_encode_utf8 json_str.

Definition from_bytes (data : bytes) : result Message :=
  s <- bytes_decode_utf8 data ;;
  from_json s.

End protocol.

Import protocol.

(* ===================================================================== *)
(** ** [src/core/network.py] *)
(* ===================================================================== *)

Module network.

(** *** The connected socket, seen from its reader

    The transport hands the byte stream over in chunks of its own
    choosing; [chunks] lists them in order, and [ending] says whether
    the stream ends with the peer closing the connection or with a
    reset. *)
Inductive stream_end : Type :=
| peer_closed
| connection_reset.

Record socket : Type := mkSocket {
  chunks : list bytes;
  ending : stream_end
}.

(** [sock.recv(n)] with [n > 0]: at most [n] bytes of the next chunk, the
    rest of that chunk staying in front; every chunk consumed and the
    peer gone gives [b'']; a reset raises [OSError]. *)
Fixpoint recv_chunks (n : nat) (cs : list bytes) : option (bytes * list bytes) :=
  match cs with
  | [] => None
  | [] :: rest => recv_chunks n rest
  | c :: rest =>
    if (length c <=? n)%nat then Some (c, rest)
    else Some (firstn n c, skipn n c :: rest)
  end.

Definition recv (n : nat) (sock : socket) : result (bytes * socket) :=
  match recv_chunks n (chunks sock) with
  | Some (b, cs) => Ok (b, mkSocket cs (ending sock))
  | None =>
    match ending sock with
    | peer_closed => Ok ([], mkSocket [] peer_closed)
    | connection_reset => Raise OSError
    end
  end.

(** The number of bytes still to come *)
Definition pending (sock : socket) : nat := length (concat (chunks sock)).

(** *** The calls a connection handler makes, in order

    [ev_from_bytes] records a call of [Message.from_bytes] with its
    argument and outcome, [ev_on_message] a call of the consumer's
    callback, which is taken to return normally, [ev_log_error] a call
    of [self.logger.error] in the [except] clause, and [ev_close] the
    [sock.close()] of the [finally] clause. *)
Inductive event : Type :=
| ev_from_bytes (data : bytes) (r : result Message)
| ev_on_message (msg : Message)
| ev_handle_file_data (msg : Message)
| ev_log_error (e : exn)
| ev_close.

(** [self.active_transfers]: file id to the bytes written so far *)
Definition transfers := dict bytes.

(** [msg.payload.get(key)] *)
Definition payload_get (msg : Message) (key : str) : result pyval :=
  match payload msg with
  | PyDict d =>
    match dict_get key d with
    | Some v => Ok v
    | None => Ok PyNone
    end
  | _ => Raise AttributeError
  end.

(** The placeholder: it reads the file name and the data chunk and
    drops them. *)
Definition _handle_file_data (active_transfers : transfers) (msg : Message)
  : result transfers :=
  file_name <- payload_get msg (lit "filename") ;;
  d <- payload_get msg (lit "data") ;;
  data_chunk <- match d with
                | PyStr x => str_encode_latin1 x
                | _ => Raise AttributeError
                end ;;
  Ok active_transfers.

Definition set_sender_ip (msg : Message) (ip : pyval) : Message :=
  {| type := type msg;
     sender_name := sender_name msg;
     sender_ip := ip;
     payload := payload msg |}.

Section Handler.
(** [self.running] as the handler finds it at its [i]-th test of the
    loop condition; [stop] may clear it from another thread. *)
Variable running : nat -> bool.
(** [addr[0]] *)
Variable ip : str.

(** The inner loop, [while len(data) < msg_len].  Every turn either
    leaves the loop or takes at least one byte off the socket, so it
    makes at most [pending sock + 1] turns; [None] is a loop cut short
    by the bound. *)
Fixpoint read_body (fuel : nat) (msg_len : Z) (data : bytes) (sock : socket)
  : option (result (bytes * socket)) :=
  match fuel with
  | O => None
  | S f =>
    if Z.of_nat (length data) <? msg_len then
      match recv (Z.to_nat (Z.min (msg_len - Z.of_nat (length data))
                                  (Z.of_nat BUFFER_SIZE))) sock with
      | Raise e => Some (Raise e)
      | Ok (chunk, sock') =>
        match chunk with
        | [] => Some (Ok (data, sock'))
        | _ => read_body f msg_len (data ++ chunk) sock'
        end
      end
    else Some (Ok (data, sock))
  end.

(** The outer loop, [while self.running], from its [i]-th turn on,
    followed by the [except] and [finally] clauses. *)
Fixpoint handle_loop (fuel : nat) (i : nat) (active_transfers : transfers)
         (sock : socket) : option (list event * transfers) :=
  match fuel with
  | O => None
  | S f =>
    if running i then
      match recv 4 sock with
      | Raise e => Some ([ev_log_error e; ev_close], active_transfers)
      | Ok (length_bytes, sock1) =>
        match length_bytes with
        | [] => Some ([ev_close], active_transfers)
        | _ =>
          let msg_len := int_from_bytes_big length_bytes in
          match read_body (S (pending sock1)) msg_len [] sock1 with
          | None => None
          | Some (Raise e) => Some ([ev_log_error e; ev_close], active_transfers)
          | Some (Ok (data, sock2)) =>
            if negb (Z.of_nat (length data) =? msg_len)
            then Some ([ev_close], active_transfers)
            else
              match from_bytes data with
              | Raise e =>
                Some ([ev_from_bytes data (Raise e); ev_log_error e; ev_close],
                      active_transfers)
              | Ok msg0 =>
                let msg := set_sender_ip msg0 (PyStr ip) in
                if MessageType_eqb (type msg) FILE_DATA then
                  match _handle_file_data active_transfers msg with
                  | Raise e =>
                    Some ([ev_from_bytes data (Ok msg0); ev_handle_file_data msg;
                           ev_log_error e; ev_close], active_transfers)
                  | Ok active_transfers' =>
                    match handle_loop f (S i) active_transfers' sock2 with
                    | Some (tr, a) =>
                      Some (ev_from_bytes data (Ok msg0)
                            :: ev_handle_file_data msg :: tr, a)
                    | None => None
                    end
                  end
                else
                  match handle_loop f (S i) active_transfers sock2 with
                  | Some (tr, a) =>
                    Some (ev_from_bytes data (Ok msg0) :: ev_on_message msg :: tr, a)
                  | None => None
                  end
              end
          end
        end
      end
    else Some ([ev_close], active_transfers)
  end.

(** [_handle_client(sock, addr)] *)
Definition _handle_client (active_transfers : transfers) (sock : socket)
  : option (list event * transfers) :=
  handle_loop (S (pending sock)) 0%nat active_transfers sock.
End Handler.

(** *** The sending side *)

(** The bytes [_send_to_peer] hands to [sendall] once the connection is
    made; a failure to connect or to write is an [OSError] the caller
    sees and is not part of this model. *)
Definition _send_to_peer (msg : Message) : result bytes :=
  data <- to_bytes msg ;;
  length_bytes <- int_to_bytes4_big (Z.of_nat (length data)) ;;
  Ok (length_bytes ++ data).

(** The envelope [send_message] builds *)
Definition text_message (username message : str) : Message :=
  {| type := TEXT;
     sender_name := PyStr username;
     sender_ip := PyStr [];
     payload := PyDict [(lit "text", PyStr message)] |}.

Definition send_message (username message : str) : result bytes :=
  _send_to_peer (text_message username message).

(** The envelope [send_file_offer] builds from the base name and the
    size of the file *)
Definition file_offer_message (username filename : str) (filesize : Z) : Message :=
  {| type := FILE_OFFER;
     sender_name := PyStr username;
     sender_ip := PyStr [];
     payload := PyDict [(lit "filename", PyStr filename);
                        (lit "filesize", PyInt filesize)] |}.

Definition send_file_offer (username filename : str) (filesize : Z) : result bytes :=
  _send_to_peer (file_offer_message username filename filesize).

End network.

Import network.

(** *** The connection handler with its consumer

    [NetworkManager] is built with the callback [on_message].  A
    consumer is a function of the envelope and of a state of its own,
    which returns the new state and the exception it raised, if any; an
    exception reaches the [except] clause of the handler like any
    other.  The handler above is this one for a consumer that returns
    normally. *)
Section Consumer.
Variable St : Type.
Variable on_message : Message -> St -> St * option exn.
Variable running : nat -> bool.
Variable ip : str.

Fixpoint handle_loop_with (fuel : nat) (i : nat) (active_transfers : transfers)
         (st : St) (sock : socket) : option (list event * transfers * St) :=
  match fuel with
  | O => None
  | S f =>
    if running i then
      match recv 4 sock with
      | Raise e => Some ([ev_log_error e; ev_close], active_transfers, st)
      | Ok (length_bytes, sock1) =>
        match length_bytes with
        | [] => Some ([ev_close], active_transfers, st)
        | _ =>
          let msg_len := int_from_bytes_big length_bytes in
          match read_body (S (pending sock1)) msg_len [] sock1 with
          | None => None
          | Some (Raise e) => Some ([ev_log_error e; ev_close], active_transfers, st)
          | Some (Ok (data, sock2)) =>
            if negb (Z.of_nat (length data) =? msg_len)
            then Some ([ev_close], active_transfers, st)
            else
              match from_bytes data with
              | Raise e =>
                Some ([ev_from_bytes data (Raise e); ev_log_error e; ev_close],
                      active_transfers, st)
              | Ok msg0 =>
                let msg := set_sender_ip msg0 (PyStr ip) in
                if MessageType_eqb (type msg) FILE_DATA then
                  match _handle_file_data active_transfers msg with
                  | Raise e =>
                    Some ([ev_from_bytes data (Ok msg0); ev_handle_file_data msg;
                           ev_log_error e; ev_close], active_transfers, st)
                  | Ok active_transfers' =>
                    match handle_loop_with f (S i) active_transfers' st sock2 with
                    | Some (tr, a, st') =>
                      Some (ev_from_bytes data (Ok msg0)
                            :: ev_handle_file_data msg :: tr, a, st')
                    | None => None
                    end
                  end
                else
                  match on_message msg st with
                  | (st1, Some e) =>
                    Some ([ev_from_bytes data (Ok msg0); ev_on_message msg;
                           ev_log_error e; ev_close], active_transfers, st1)
                  | (st1, None) =>
                    match handle_loop_with f (S i) active_transfers st1 sock2 with
                    | Some (tr, a, st') =>
                      Some (ev_from_bytes data (Ok msg0) :: ev_on_message msg :: tr,
                            a, st')
                    | None => None
                    end
                  end
              end
          end
        end
      end
    else Some ([ev_close], active_transfers, st)
  end.

(** [_handle_client(sock, addr)] of a manager built with [on_message] *)
Definition _handle_client_with (active_transfers : transfers) (st : St) (sock : socket)
  : option (list event * transfers * St) :=
  handle_loop_with (S (pending sock)) 0%nat active_transfers st sock.
End Consumer.

Arguments handle_loop_with {St}.
Arguments _handle_client_with {St}.

(* ===================================================================== *)
(** ** [src/core/discovery.py] *)
(* ===================================================================== *)

Module discovery.

(** The peer table: [self.peers] (ip to last-seen time) and
    [self.peer_names] (ip to the name the heartbeat carried). *)
Record PeerDiscovery : Type := mkPeerDiscovery {
  peers : dict Q;
  peer_names : dict pyval
}.

Definition empty : PeerDiscovery := mkPeerDiscovery [] [].

Inductive callback : Type :=
| on_peer_discovered (ip : str) (name : pyval)
| on_peer_lost (ip : str).

(** A callback together with the table as it is when the call is made *)
Abbreviation call := (callback * PeerDiscovery)%type.

Definition Qgtb (a b : Q) : bool := negb (Qle_bool a b).

(** [_handle_discovery(ip, name)] with [current_time = time.time()] *)
Definition _handle_discovery (self : PeerDiscovery) (current_time : Q)
           (ip : str) (name : pyval) : PeerDiscovery * list call :=
  let is_new := negb (dict_mem ip (peers self)) in
  let self1 := mkPeerDiscovery (dict_set ip current_time (peers self))
                               (peer_names self) in
  let self2 := mkPeerDiscovery (peers self1)
                               (dict_set ip name (peer_names self1)) in
  if is_new then (self2, [(on_peer_discovered ip name, self2)])
  else (self2, []).

(** The first loop of a cleanup pass: the ips to remove, in the order
    the table is scanned *)
Definition stale (self : PeerDiscovery) (current_time : Q) : list str :=
  List.map fst
    (filter (fun e => Qgtb (current_time - snd e) (DISCOVERY_INTERVAL * 3))
            (peers self)).

(** The second loop: [del self.peers[ip]] raises [KeyError] on an
    absent key, and nothing in [_cleanup_loop] catches it. *)
Fixpoint remove_all (self : PeerDiscovery) (to_remove : list str)
  : result (PeerDiscovery * list call) :=
  match to_remove with
  | [] => Ok (self, [])
  | ip :: rest =>
    if dict_mem ip (peers self) then
      let self1 := mkPeerDiscovery (dict_del ip (peers self)) (peer_names self) in
      let self2 :=
        if dict_mem ip (peer_names self1)
        then mkPeerDiscovery (peers self1) (dict_del ip (peer_names self1))
        else self1 in
      match remove_all self2 rest with
      | Ok (self', calls) => Ok (self', (on_peer_lost ip, self2) :: calls)
      | Raise e => Raise e
      end
    else Raise KeyError
  end.

(** One turn of [_cleanup_loop] after its sleep, with
    [current_time = time.time()] *)
Definition cleanup_pass (self : PeerDiscovery) (current_time : Q)
  : result (PeerDiscovery * list call) :=
  let to_remove := stale self current_time in
  remove_all self to_remove.



(** What the two loops that touch the table do, one step at a time: the
    listen loop handles a [DISCOVERY] datagram from [ip], or the cleanup
    loop makes a pass.  Each step runs to its end before the next
    starts: the two loops run in threads of their own and the code
    takes no lock, so this is an assumption on their scheduling. *)
Inductive input : Type :=
| heartbeat (t : Q) (ip : str) (name : pyval)
| cleanup (t : Q).

Definition step (self : PeerDiscovery) (i : input)
  : result (PeerDiscovery * list call) :=
  match i with
  | heartbeat t ip name => Ok (_handle_discovery self t ip name)
  | cleanup t => cleanup_pass self t
  end.

Fixpoint run (self : PeerDiscovery) (inputs : list input)
  : result (PeerDiscovery * list call) :=
  match inputs with
  | [] => Ok (self, [])
  | i :: rest =>
    match step self i with
    | Raise e => Raise e
    | Ok (self1, calls1) =>
      match run self1 rest with
      | Raise e => Raise e
      | Ok (self2, calls2) => Ok (self2, calls1 ++ calls2)
      end
    end
  end.


End discovery.

Import discovery.

(* ===================================================================== *)
(** ** [src/tui/app.py]: the consumer of the terminal interface *)
(* ===================================================================== *)

Module tui.

(** [ChatMessage(sender, text, is_self)] *)
Record ChatMessage : Type := mkChatMessage {
  sender : pyval;
  text : pyval;
  is_self : bool
}.

(** [_add_message(sender, text, is_self)] on the items of the
    [messages] list view *)
Definition _add_message (messages : list ChatMessage) (sender text : pyval)
           (is_self : bool) : list ChatMessage :=
  messages ++ [mkChatMessage sender text is_self].

(** [on_message_received(msg)]: the call runs in the thread of the
    connection handler, and [msg.payload['text']] is evaluated there,
    before [call_from_thread] hands [_add_message] to the interface. *)
Definition on_message_received (msg : Message) (messages : list ChatMessage)
  : list ChatMessage * option exn :=
  if MessageType_eqb (type msg) TEXT then
    match getitem (payload msg) (lit "text") with
    | Ok t => (_add_message messages (sender_name msg) t false, None)
    | Raise e => (messages, Some e)
    end
  else (messages, None).

End tui.

(* ===================================================================== *)
(** ** [src/gui/app.py]: the desktop interface *)
(* ===================================================================== *)

(** *** The operations on [str] the interface uses *)

Module PyStrOps.

(** [s.startswith(p)] *)
Fixpoint startswith (p s : str) : bool :=
  match p, s with
  | [], _ => true
  | x :: p', y :: s' => (x =? y) && startswith p' s'
  | _ :: _, [] => false
  end.

(** [p in s] *)
Fixpoint contains (p s : str) : bool :=
  startswith p s
  || match s with
     | [] => false
     | _ :: s' => contains p s'
     end.

(** [s.split(sep)] for a separator of one character: never empty *)
Fixpoint split (sep : Z) (s : str) : list str :=
  match s with
  | [] => [[]]
  | c :: r =>
    if c =? sep then [] :: split sep r
    else
      match split sep r with
      | piece :: pieces => (c :: piece) :: pieces
      | [] => [[c]]
      end
  end.

(** [s.lstrip(chars)] and [s.strip(chars)] *)
Fixpoint lstrip (chars : str) (s : str) : str :=
  match s with
  | c :: r => if existsb (Z.eqb c) chars then lstrip chars r else s
  | [] => []
  end.

Definition strip (chars : str) (s : str) : str :=
  List.rev (lstrip chars (List.rev (lstrip chars s))).

End PyStrOps.

Module gui.
Import PyStrOps.

(** The calls of [_log_message], by the place that makes them: a chat
    line with the sender and the text of an envelope, and the lines of
    the sender ["System"], whose text is an f-string around the value
    given here *)
Inductive log_entry : Type :=
| log_chat (sender text : pyval)
| log_peer_lost (ip : str)
| log_selected (ip : str)
| log_offer_accepted (filename : pyval)
| log_offer_rejected (filename : pyval).

(** The closures the callbacks put on [gui_queue] *)
Inductive task : Type :=
| task_add_peer (ip : str) (name : pyval)
| task_remove_peer (ip : str)
| task_log_message (msg : Message)
| task_handle_file_offer (msg : Message).

Record GuiApp : Type := mkGuiApp {
  peer_listbox : list str;
  selected_peer_ip : option str;
  chat_display : list log_entry;
  gui_queue : list task
}.

Definition set_queue (self : GuiApp) (q : list task) : GuiApp :=
  {| peer_listbox := peer_listbox self;
     selected_peer_ip := selected_peer_ip self;
     chat_display := chat_display self;
     gui_queue := q |}.

Definition _log_message (self : GuiApp) (entry : log_entry) : GuiApp :=
  {| peer_listbox := peer_listbox self;
     selected_peer_ip := selected_peer_ip self;
     chat_display := chat_display self ++ [entry];
     gui_queue := gui_queue self |}.

(** The callbacks given to [PeerDiscovery] and [NetworkManager]: each
    puts a closure on the queue and returns. *)
Definition on_peer_discovered (self : GuiApp) (ip : str) (name : pyval) : GuiApp :=
  set_queue self (gui_queue self ++ [task_add_peer ip name]).

Definition on_peer_lost (self : GuiApp) (ip : str) : GuiApp :=
  set_queue self (gui_queue self ++ [task_remove_peer ip]).

Definition on_message_received (msg : Message) (self : GuiApp) : GuiApp * option exn :=
  if MessageType_eqb (type msg) TEXT then
    (set_queue self (gui_queue self ++ [task_log_message msg]), None)
  else if MessageType_eqb (type msg) FILE_OFFER then
    (set_queue self (gui_queue self ++ [task_handle_file_offer msg]), None)
  else (self, None).

(** The row of the list box that stands for [ip] *)
Definition row_pattern (ip : str) : str := lit "(" ++ ip ++ lit ")".

(** [_remove_peer]'s scan of the rows: the rows without the first one
    that contains the pattern, if there is one *)
Fixpoint delete_first_match (p : str) (rows : list str) : option (list str) :=
  match rows with
  | [] => None
  | item :: rest =>
    if contains p item then Some rest
    else
      match delete_first_match p rest with
      | Some rest' => Some (item :: rest')
      | None => None
      end
  end.

Definition option_str_eqb (a : option str) (b : str) : bool :=
  match a with
  | Some x => str_eqb x b
  | None => false
  end.

Definition _remove_peer (self : GuiApp) (ip : str) : GuiApp :=
  match delete_first_match (row_pattern ip) (peer_listbox self) with
  | Some rows =>
    if option_str_eqb (selected_peer_ip self) ip then
      {| peer_listbox := rows;
         selected_peer_ip := None;
         chat_display := chat_display self ++ [log_peer_lost ip];
         gui_queue := gui_queue self |}
    else
      {| peer_listbox := rows;
         selected_peer_ip := selected_peer_ip self;
         chat_display := chat_display self;
         gui_queue := gui_queue self |}
  | None => self
  end.

(** [item.split('(')[-1].strip(')')] *)
Definition ip_of_row (item : str) : str :=
  strip (lit ")") (last (split 40 item) []).

(** [_on_peer_selected] with what [curselection()] returns; [get] of
    an index that is not a row gives the empty string. *)
Definition _on_peer_selected (self : GuiApp) (selection : list nat) : GuiApp :=
  match selection with
  | [] => self
  | first :: _ =>
    let item := nth first (peer_listbox self) [] in
    let ip := ip_of_row item in
    {| peer_listbox := peer_listbox self;
       selected_peer_ip := Some ip;
       chat_display := chat_display self ++ [log_selected ip];
       gui_queue := gui_queue self |}
  end.

Section Formatting.
(** [str(v)], as an f-string inserts a value; a string is inserted as
    it is, and nothing else about [str_of] is used. *)
Variable str_of : pyval -> str.
(** The answer of the user to [messagebox.askyesno] *)
Variable askyesno : Message -> bool.

(** [f"{name} ({ip})"] *)
Definition display (ip : str) (name : pyval) : str :=
  str_of name ++ lit " (" ++ ip ++ lit ")".

Definition _add_peer (self : GuiApp) (ip : str) (name : pyval) : GuiApp :=
  if existsb (str_eqb (display ip name)) (peer_listbox self) then self
  else
    {| peer_listbox := peer_listbox self ++ [display ip name];
       selected_peer_ip := selected_peer_ip self;
       chat_display := chat_display self;
       gui_queue := gui_queue self |}.

Definition _handle_file_offer (self : GuiApp) (msg : Message) : GuiApp * option exn :=
  match getitem (payload msg) (lit "filename") with
  | Raise e => (self, Some e)
  | Ok filename =>
    match getitem (payload msg) (lit "filesize") with
    | Raise e => (self, Some e)
    | Ok _ =>
      if askyesno msg then (_log_message self (log_offer_accepted filename), None)
      else (_log_message self (log_offer_rejected filename), None)
    end
  end.

(** A call of a queued closure *)
Definition run_task (self : GuiApp) (t : task) : GuiApp * option exn :=
  match t with
  | task_add_peer ip name => (_add_peer self ip name, None)
  | task_remove_peer ip => (_remove_peer self ip, None)
  | task_log_message msg =>
    match getitem (payload msg) (lit "text") with
    | Ok t => (_log_message self (log_chat (sender_name msg) t), None)
    | Raise e => (self, Some e)
    end
  | task_handle_file_offer msg => _handle_file_offer self msg
  end.

(** The loop of [_process_queue] over the closures waiting in the
    queue: each is taken off the queue and called; an exception other
    than [queue.Empty] leaves the loop and the function. *)
Fixpoint run_tasks (self : GuiApp) (tasks : list task) : GuiApp * option exn :=
  match tasks with
  | [] => (set_queue self [], None)
  | t :: rest =>
    match run_task (set_queue self rest) t with
    | (self', None) => run_tasks self' rest
    | (self', Some e) => (self', Some e)
    end
  end.

(** [_process_queue]: the state after it, and whether it has asked
    [root.after] to call it again, which is its last statement *)
Definition _process_queue (self : GuiApp) : GuiApp * bool :=
  match run_tasks self (gui_queue self) with
  | (self', None) => (self', true)
  | (self', Some _) => (self', false)
  end.
End Formatting.

Definition empty_app : GuiApp := mkGuiApp [] None [] [].

End gui.

(* ===================================================================== *)
(** ** Vocabulary of the specification *)
(* ===================================================================== *)

(** *** Peer table *)

(** The key set of [peers] is the key set of [peer_names]. *)
Definition same_key_set (self : PeerDiscovery) : Prop :=
  forall ip, dict_mem ip (peers self) = dict_mem ip (peer_names self).

(** The invariant of the table: the two maps are Python dicts, so each
    has unique keys, and they have the same key set. *)
Definition table_inv (self : PeerDiscovery) : Prop :=
  unique_keys (peers self) = true
  /\ unique_keys (peer_names self) = true
  /\ same_key_set self.

(** What holds of the table at the moment a callback is invoked *)
Definition call_ok (c : call) : Prop :=
  table_inv (snd c) /\
  match fst c with
  | on_peer_lost ip =>
    dict_mem ip (peers (snd c)) = false /\ dict_mem ip (peer_names (snd c)) = false
  | on_peer_discovered ip name =>
    dict_mem ip (peers (snd c)) = true /\ dict_get ip (peer_names (snd c)) = Some name
  end.




(** *** Connection handler

    The envelopes a run decoded, the ones it passed to [on_message] and
    the ones it passed to [_handle_file_data], each in order *)
Definition decoded (tr : list event) : list Message :=
  flat_map (fun e => match e with
                     | ev_from_bytes _ (Ok m) => [m]
                     | _ => []
                     end) tr.

Definition dispatched (tr : list event) : list Message :=
  flat_map (fun e => match e with ev_on_message m => [m] | _ => [] end) tr.

Definition file_data_calls (tr : list event) : list Message :=
  flat_map (fun e => match e with ev_handle_file_data m => [m] | _ => [] end) tr.

Definition is_file_data (m : Message) : bool := MessageType_eqb (type m) FILE_DATA.

(** The bytes still to come, whatever their chunking *)
Definition stream (sock : socket) : bytes := concat (chunks sock).

(** The first [n] bytes of a chunked stream and the chunks left after
    them, the rest of a chunk that is cut staying in front *)
Fixpoint take_bytes (n : nat) (cs : list bytes) : option (bytes * list bytes) :=
  match n with
  | O => Some ([], cs)
  | S _ =>
    match cs with
    | [] => None
    | c :: rest =>
      if (length c <=? n)%nat then
        match take_bytes (n - length c) rest with
        | Some (b, cs') => Some (c ++ b, cs')
        | None => None
        end
      else Some (firstn n c, skipn n c :: rest)
    end
  end.

Definition cons_chunk (c : bytes) (cs : list bytes) : list bytes :=
  match c with
  | [] => cs
  | _ => c :: cs
  end.

(** [whole_prefixes bodies cs]: the chunks [cs] carry the frames with
    these bodies back-to-back, possibly followed by a frame the peer
    did not finish, and the 4-byte length prefix of every frame lies
    within one chunk.  Frames may share chunks and bodies may be cut
    anywhere. *)
Inductive whole_prefixes : list bytes -> list bytes -> Prop :=
| whole_end cs : concat cs = [] -> whole_prefixes [] cs
| whole_short hdr c cs :
    length hdr = 4%nat ->
    Z.of_nat (length (c ++ concat cs)) < int_from_bytes_big hdr ->
    whole_prefixes [] ((hdr ++ c) :: cs)
| whole_skip bodies cs : whole_prefixes bodies cs -> whole_prefixes bodies ([] :: cs)
| whole_frame body bodies hdr c cs cs' :
    int_to_bytes4_big (Z.of_nat (length body)) = Ok hdr ->
    take_bytes (length body) (cons_chunk c cs) = Some (body, cs') ->
    whole_prefixes bodies cs' ->
    whole_prefixes (body :: bodies) ((hdr ++ c) :: cs).

(** What the handler does with a sequence of complete frames *)
Fixpoint handle_frames (ip : str) (a : transfers) (bodies : list bytes)
  : list event * transfers :=
  match bodies with
  | [] => ([ev_close], a)
  | data :: rest =>
    match from_bytes data with
    | Raise e => ([ev_from_bytes data (Raise e); ev_log_error e; ev_close], a)
    | Ok msg0 =>
      let msg := set_sender_ip msg0 (PyStr ip) in
      if MessageType_eqb (type msg) FILE_DATA then
        match _handle_file_data a msg with
        | Raise e =>
          ([ev_from_bytes data (Ok msg0); ev_handle_file_data msg;
            ev_log_error e; ev_close], a)
        | Ok a' =>
          let (tr, a'') := handle_frames ip a' rest in
          (ev_from_bytes data (Ok msg0) :: ev_handle_file_data msg :: tr, a'')
        end
      else
        let (tr, a'') := handle_frames ip a rest in
        (ev_from_bytes data (Ok msg0) :: ev_on_message msg :: tr, a'')
    end
  end.

(** The frame [_send_to_peer] writes around a body *)
Definition frame_bytes (body : bytes) : bytes :=
  match int_to_bytes4_big (Z.of_nat (length body)) with
  | Ok hdr => hdr ++ body
  | Raise _ => []
  end.

(** Two envelopes that differ at most in [sender_ip] *)
Definition same_but_sender_ip (m1 m2 : Message) : Prop :=
  type m1 = type m2 /\ sender_name m1 = sender_name m2 /\ payload m1 = payload m2.

(** *** Decoding *)

(** The exceptions the spec groups under [DecodeError] *)
Definition DecodeError (e : exn) : bool :=
  match e with
  | UnicodeDecodeError | JSONDecodeError | KeyError | TypeError | ValueError => true
  | _ => false
  end.
(** The decoded structure is an object with the key [f]. *)
Definition has_field (f : str) (v : pyval) : bool :=
  match v with
  | PyDict d => dict_mem f d
  | _ => false
  end.

(** *** Scanners

    The two facts that make the bounds of the [json] scanner harmless:
    a scanner returns less text than it was given, and two scanners
    agree on short texts. *)

(** [scan] returns less text than it was given, on texts of at most [m]
    characters. *)
Definition consumes (scan : str -> option (pyval * str)) (m : nat) : Prop :=
  forall s v r, (length s <= m)%nat -> scan s = Some (v, r) -> (length r < length s)%nat.

(** [scanA] and [scanB] agree on texts of at most [m] characters. *)
Definition agree (scanA scanB : str -> option (pyval * str)) (m : nat) : Prop :=
  forall s, (length s <= m)%nat -> scanA s = scanB s.

(** *** Text and values that [json] represents

    A string is a sequence of code points in which no high surrogate is
    directly followed by a low surrogate: [json.loads] reads such a pair
    of escapes as one character.  Every sequence of Unicode scalar
    values is of this kind. *)
Definition code_point (c : Z) : bool := between 0 c 0x10FFFF.

Definition head_low (s : str) : bool :=
  match s with
  | c :: _ => is_low_surrogate c
  | [] => false
  end.

Fixpoint text_ok (s : str) : bool :=
  match s with
  | [] => true
  | c :: r =>
    code_point c && negb (is_high_surrogate c && head_low r) && text_ok r
  end.

(** The text does not start with the escape of a low surrogate. *)
Definition no_low_escape (next : str) : Prop :=
  match next with
  | c1 :: c2 :: r2 =>
    (c1 =? 92) && (c2 =? 117) = true ->
    exists uni2 r3,
      json.decode_uXXXX r2 = Some (uni2, r3) /\ is_low_surrogate uni2 = false
  | _ => True
  end.

(** The four forms [escape_char] gives a character *)
Inductive escape_shape (c : Z) : str -> Prop :=
| shape_simple x : x <> 117 -> json.BACKSLASH x = Some c -> escape_shape c [92; x]
| shape_plain : c <> 34 -> c <> 92 -> 0x1F < c -> escape_shape c [c]
| shape_unicode h1 h2 h3 h4 :
    0 <= c < 0x10000 ->
    (forall r, json.decode_uXXXX (h1 :: h2 :: h3 :: h4 :: r) = Some (c, r)) ->
    escape_shape c [92; 117; h1; h2; h3; h4]
| shape_pair s1 s2 h1 h2 h3 h4 k1 k2 k3 k4 :
    is_high_surrogate s1 = true -> is_low_surrogate s2 = true ->
    0x10000 + Z.lor (Z.shiftl (s1 - 0xD800) 10) (s2 - 0xDC00) = c ->
    (forall r, json.decode_uXXXX (h1 :: h2 :: h3 :: h4 :: r) = Some (s1, r)) ->
    (forall r, json.decode_uXXXX (k1 :: k2 :: k3 :: k4 :: r) = Some (s2, r)) ->
    escape_shape c [92; 117; h1; h2; h3; h4; 92; 117; k1; k2; k3; k4].

(** What may follow a value in the text [dumps] prints *)
Definition delimited (rest : str) : bool :=
  match rest with
  | [] => true
  | c :: _ => (c =? 44) || (c =? 93) || (c =? 125)
  end.

(** The values built from [None], booleans, integers, strings, lists
    and string-keyed dicts.  Floats are left out: their printing and
    reading is floating point arithmetic. *)
Fixpoint json_representable (v : pyval) : bool :=
  match v with
  | PyNone | PyBool _ | PyInt _ => true
  | PyFloat _ => false
  | PyStr s => text_ok s
  | PyList l => forallb json_representable l
  | PyDict d =>
    unique_keys d
    && forallb (fun kv => text_ok (fst kv) && json_representable (snd kv)) d
  end.

(** Induction on values, with the hypothesis for every element of a
    list and every value of a dict *)
Section PyvalInduction.
Variable P : pyval -> Prop.
Hypothesis HNone : P PyNone.
Hypothesis HBool : forall b, P (PyBool b).
Hypothesis HInt : forall z, P (PyInt z).
Hypothesis HFloat : forall x, P (PyFloat x).
Hypothesis HStr : forall s, P (PyStr s).
Hypothesis HList : forall l, Forall P l -> P (PyList l).
Hypothesis HDict : forall d, Forall (fun kv => P (snd kv)) d -> P (PyDict d).

Fixpoint pyval_nested_ind (v : pyval) : P v :=
  match v with
  | PyNone => HNone
  | PyBool b => HBool b
  | PyInt z => HInt z
  | PyFloat x => HFloat x
  | PyStr s => HStr s
  | PyList l =>
    HList l ((fix go (l : list pyval) : Forall P l :=
                match l with
                | [] => Forall_nil P
                | x :: l' => Forall_cons x (pyval_nested_ind x) (go l')
                end) l)
  | PyDict d =>
    HDict d ((fix go (d : list (str * pyval)) : Forall (fun kv => P (snd kv)) d :=
                match d with
                | [] => Forall_nil _
                | kv :: d' => Forall_cons kv (pyval_nested_ind (snd kv)) (go d')
                end) d)
  end.
End PyvalInduction.

(** The characters the text of a value can start with *)
Definition value_start (c : Z) : bool :=
  (c =? 34) || (c =? 123) || (c =? 91) || (c =? 110) || (c =? 116) || (c =? 102)
  || (c =? 45) || between 48 c 57.

(** The text of a non-empty array after its opening bracket, and of a
    non-empty object after the opening quote of its first key *)
Fixpoint arr_tail (x : pyval) (l : list pyval) (rest : str) : str :=
  json.dumps x ++
  match l with
  | [] => 93 :: rest
  | y :: l' => 44 :: 32 :: arr_tail y l' rest
  end.
Fixpoint obj_tail (k : str) (v : pyval) (d : list (str * pyval)) (rest : str) : str :=
  flat_map json.escape_char k ++ 34 :: 58 :: 32 :: json.dumps v ++
  match d with
  | [] => 125 :: rest
  | kv :: d' => 44 :: 32 :: 34 :: obj_tail (fst kv) (snd kv) d' rest
  end.

(** The text of one entry of an object *)
Definition item (kv : str * pyval) : str :=
  json.encode_basestring_ascii (fst kv) ++ lit ": " ++ json.dumps (snd kv).

(** [scan] reads the text of [v] back, whatever delimited text follows. *)
Definition reads_back (scan : str -> option (pyval * str)) (v : pyval) : Prop :=
  json_representable v = true
  /\ forall rest, delimited rest = true -> scan (json.dumps v ++ rest) = Some (v, rest).

Definition entry_reads_back (scan : str -> option (pyval * str)) (kv : str * pyval) : Prop :=
  text_ok (fst kv) = true /\ reads_back scan (snd kv).

(** *** Envelopes *)
Definition is_ascii (c : Z) : Prop := 0 <= c <= 127.

(** The envelope of the data model: a string name, a string address and a
    string-keyed mapping that [json] can represent. *)
Definition well_formed (E : Message) : bool :=
  match sender_name E, sender_ip E, payload E with
  | PyStr n, PyStr i, PyDict d =>
    text_ok n && text_ok i && json_representable (PyDict d)
  | _, _, _ => false
  end.
(** The dict [to_json] hands to [json.dumps] *)
Definition envelope_dict (E : Message) : dict pyval :=
  [(lit "type", PyStr (value (type E)));
   (lit "sender_name", sender_name E);
   (lit "sender_ip", sender_ip E);
   (lit "payload", payload E)].

(** The envelope after [msg.sender_ip = ip] *)
Definition stamp (ip : str) (m : Message) : Message := set_sender_ip m (PyStr ip).

(** *** The wire text *)


(** *** The end of a connection *)



(** *** Consumers *)


(** What the handler with a consumer does with a sequence of complete
    frames *)
Fixpoint handle_frames_with {St : Type} (on_message : Message -> St -> St * option exn)
         (ip : str) (a : transfers) (st : St) (bodies : list bytes)
  : list event * transfers * St :=
  match bodies with
  | [] => ([ev_close], a, st)
  | data :: rest =>
    match from_bytes data with
    | Raise e => ([ev_from_bytes data (Raise e); ev_log_error e; ev_close], a, st)
    | Ok msg0 =>
      let msg := set_sender_ip msg0 (PyStr ip) in
      if MessageType_eqb (type msg) FILE_DATA then
        match _handle_file_data a msg with
        | Raise e =>
          ([ev_from_bytes data (Ok msg0); ev_handle_file_data msg;
            ev_log_error e; ev_close], a, st)
        | Ok a' =>
          let '(tr, a'', st') := handle_frames_with on_message ip a' st rest in
          (ev_from_bytes data (Ok msg0) :: ev_handle_file_data msg :: tr, a'', st')
        end
      else
        match on_message msg st with
        | (st1, Some e) =>
          ([ev_from_bytes data (Ok msg0); ev_on_message msg; ev_log_error e; ev_close],
           a, st1)
        | (st1, None) =>
          let '(tr, a'', st') := handle_frames_with on_message ip a st1 rest in
          (ev_from_bytes data (Ok msg0) :: ev_on_message msg :: tr, a'', st')
        end
    end
  end.

(** *** The entry of a peer *)

(** What the table holds for [ip]: its last-seen time and display name *)
Definition entry (self : PeerDiscovery) (ip : str) : option (Q * pyval) :=
  match dict_get ip (peers self), dict_get ip (peer_names self) with
  | Some t, Some name => Some (t, name)
  | _, _ => None
  end.



(** *** The list box of the desktop interface *)

(** No parenthesis in the text *)
Definition no_paren (s : str) : bool :=
  forallb (fun c => negb ((c =? 40) || (c =? 41))) s.

(** A display name that is a string without an opening parenthesis *)
Definition plain_name (name : pyval) : bool :=
  match name with
  | PyStr n => forallb (fun c => negb (c =? 40)) n
  | _ => false
  end.

(** Heartbeats from addresses without parentheses, under plain names *)
Definition plain_inputs (inputs : list input) : bool :=
  forallb (fun i => match i with
                    | heartbeat _ ip name => no_paren ip && plain_name name
                    | cleanup _ => true
                    end) inputs.

(** The desktop interface as the consumer of the discovery callbacks *)
Definition gui_callback (self : gui.GuiApp) (c : callback) : gui.GuiApp :=
  match c with
  | on_peer_discovered ip name => gui.on_peer_discovered self ip name
  | on_peer_lost ip => gui.on_peer_lost self ip
  end.

(** The keys of a dict after [del d[k]] *)
Fixpoint remove_first (k : str) (keys : list str) : list str :=
  match keys with
  | [] => []
  | k' :: rest => if str_eqb k k' then rest else k' :: remove_first k rest
  end.

(** The keys of [self.peers] along a sequence of callbacks, and what
    makes the sequence one of plain peers: a discovered peer is plain
    and not among the keys, a lost peer is among them *)
Definition keys_after (keys : list str) (c : callback) : list str :=
  match c with
  | on_peer_discovered ip _ => keys ++ [ip]
  | on_peer_lost ip => remove_first ip keys
  end.

Fixpoint plain_calls (keys : list str) (cs : list callback) : Prop :=
  match cs with
  | [] => True
  | c :: rest =>
    match c with
    | on_peer_discovered ip name =>
      no_paren ip = true /\ plain_name name = true /\ ~ In ip keys
    | on_peer_lost ip => In ip keys
    end
    /\ plain_calls (keys_after keys c) rest
  end.

(** The rows of the list box for peers given by address and name *)
Definition rows_of (str_of : pyval -> str) (shown : list (str * str)) : list str :=
  List.map (fun p => gui.display str_of (fst p) (PyStr (snd p))) shown.

Definition plain_rows (shown : list (str * str)) : Prop :=
  Forall (fun p => no_paren (fst p) = true /\ ~ In 40 (snd p)) shown.

(** The peers shown after the row of [ip] is deleted *)
Fixpoint remove_shown (ip : str) (shown : list (str * str)) : list (str * str) :=
  match shown with
  | [] => []
  | p :: rest => if str_eqb ip (fst p) then rest else p :: remove_shown ip rest
  end.

(** The closure a callback puts on the queue *)
Definition task_of (c : callback) : gui.task :=
  match c with
  | on_peer_discovered ip name => gui.task_add_peer ip name
  | on_peer_lost ip => gui.task_remove_peer ip
  end.

(** *** Concrete data used in the examples below *)

Definition alice : str := lit "alice".
Definition bob : str := lit "bob".
Definition peer_ip : str := lit "10.0.0.5".
Definition always_running (_ : nat) : bool := true.

Definition hi_message : Message := text_message alice (lit "hi").
Definition bye_message : Message := text_message alice (lit "bye").

(** The frames [send_message] writes for the two texts *)
Definition frame_of (msg : Message) : bytes :=
  match _send_to_peer msg with
  | Ok b => b
  | Raise _ => []
  end.

Definition two_frames : bytes := frame_of hi_message ++ frame_of bye_message.

Definition one_byte_chunks (b : bytes) : list bytes := List.map (fun x => [x]) b.

(** An envelope text without [payload], and one with a fifth key *)
Definition no_payload_dict : dict pyval :=
  [(lit "type", PyStr (lit "TEXT"));
   (lit "sender_name", PyStr alice);
   (lit "sender_ip", PyStr [])].

Definition no_payload_bytes : bytes := json.dumps (PyDict no_payload_dict).

Definition extra_field_dict : dict pyval :=
  [(lit "type", PyStr (lit "TEXT"));
   (lit "sender_name", PyStr alice);
   (lit "sender_ip", PyStr []);
   (lit "payload", PyDict []);
   (lit "priority", PyInt 1)].

Definition extra_field_bytes : bytes := json.dumps (PyDict extra_field_dict).

(** An envelope text whose [type] is not the name of a member *)
Definition unknown_type_dict : dict pyval :=
  [(lit "type", PyStr (lit "Text"));
   (lit "sender_name", PyStr alice);
   (lit "sender_ip", PyStr []);
   (lit "payload", PyDict [])].

Definition unknown_type_bytes : bytes := json.dumps (PyDict unknown_type_dict).

(** A table that knows [peer_ip] as alice since time 0 *)
Definition table_with_alice : PeerDiscovery :=
  mkPeerDiscovery [(peer_ip, 0%Q)] [(peer_ip, PyStr alice)].


(** A handler that stops from its second test of the loop condition on *)
Definition stopped_after_one (i : nat) : bool := (i <? 1)%nat.

(** A [FILE_DATA] envelope whose payload has no [data] *)
Definition empty_file_data : Message :=
  {| type := FILE_DATA;
     sender_name := PyStr alice;
     sender_ip := PyStr [];
     payload := PyDict [] |}.

(** A stand-in for [str()] in the examples: strings as they are *)
Definition ascii_name (v : pyval) : str :=
  match v with
  | PyStr s => s
  | _ => []
  end.

(** Alice and bob appear, alice goes stale, and alice comes back *)
Definition two_peers : list input :=
  [heartbeat 0 peer_ip (PyStr alice);
   heartbeat 1 (lit "10.0.0.9") (PyStr bob);
   cleanup 7;
   heartbeat 8 peer_ip (PyStr alice)].

(* ===================================================================== *)
(** ** Properties *)
(* ===================================================================== *)

(** *** Booleans and string equality *)

Lemma between_true lo c hi : between lo c hi = true <-> lo <= c <= hi.
Proof. unfold between. rewrite andb_true_iff, !Z.leb_le. tauto. Qed.

Lemma between_false lo c hi : between lo c hi = false <-> c < lo \/ hi < c.
Proof. unfold between. rewrite andb_false_iff, !Z.leb_gt. tauto. Qed.

Ltac zbool :=
  repeat match goal with
  | H : between _ _ _ = true |- _ => apply between_true in H
  | H : between _ _ _ = false |- _ => apply between_false in H
  | H : (_ =? _) = true |- _ => apply Z.eqb_eq in H
  | H : (_ =? _) = false |- _ => apply Z.eqb_neq in H
  | H : (_ <? _) = true |- _ => apply Z.ltb_lt in H
  | H : (_ <? _) = false |- _ => apply Z.ltb_ge in H
  | H : (_ <=? _) = true |- _ => apply Z.leb_le in H
  | H : (_ <=? _) = false |- _ => apply Z.leb_gt in H
  end.

Lemma str_eqb_refl (a : str) : str_eqb a a = true.
Proof. induction a as [|x a IH]; simpl; [reflexivity|]. now rewrite Z.eqb_refl. Qed.

Lemma str_eqb_eq (a b : str) : str_eqb a b = true <-> a = b.
Proof.
  split; [|intros ->; apply str_eqb_refl].
  revert b; induction a as [|x a IH]; destruct b as [|y b]; simpl; try discriminate; auto.
  intros H. apply andb_true_iff in H as [H1 H2].
  apply Z.eqb_eq in H1. f_equal; auto.
Qed.

Lemma str_eqb_neq (a b : str) : str_eqb a b = false <-> a <> b.
Proof.
  rewrite <- str_eqb_eq. destruct (str_eqb a b); split; congruence.
Qed.

Lemma str_eqb_sym (a b : str) : str_eqb a b = str_eqb b a.
Proof.
  destruct (str_eqb a b) eqn:E.
  - apply str_eqb_eq in E. subst. symmetry. apply str_eqb_refl.
  - symmetry. apply str_eqb_neq. apply str_eqb_neq in E. congruence.
Qed.

(** *** Dictionaries *)

Section DictFacts.
Context {V : Type}.
Implicit Types (d : dict V) (k : str) (v : V).

Lemma dict_mem_cons k k' v d :
  dict_mem k ((k', v) :: d) = str_eqb k k' || dict_mem k d.
Proof. unfold dict_mem; simpl. destruct (str_eqb k k'); reflexivity. Qed.

Lemma dict_mem_In k d : dict_mem k d = true <-> In k (dict_keys d).
Proof.
  induction d as [|[k' v'] d IH].
  - simpl. split; [discriminate | tauto].
  - rewrite dict_mem_cons, orb_true_iff, IH, str_eqb_eq. simpl.
    split; intros [H|H]; auto.
Qed.

Lemma dict_get_set_eq k v d : dict_get k (dict_set k v d) = Some v.
Proof.
  induction d as [|[k' v'] d IH]; simpl.
  - now rewrite str_eqb_refl.
  - destruct (str_eqb k k') eqn:E; simpl; rewrite E; auto.
Qed.

Lemma dict_get_set_ne k k' v d :
  str_eqb k' k = false -> dict_get k' (dict_set k v d) = dict_get k' d.
Proof.
  intros Hne. induction d as [|[k0 v0] d IH]; simpl.
  - now rewrite Hne.
  - destruct (str_eqb k k0) eqn:E; simpl.
    + apply str_eqb_eq in E. subst k0. now rewrite Hne.
    + destruct (str_eqb k' k0); auto.
Qed.

Lemma dict_mem_set k k' v d :
  dict_mem k' (dict_set k v d) = str_eqb k' k || dict_mem k' d.
Proof.
  unfold dict_mem. destruct (str_eqb k' k) eqn:E.
  - apply str_eqb_eq in E. subst. now rewrite dict_get_set_eq.
  - now rewrite dict_get_set_ne.
Qed.

Lemma dict_keys_set k v d :
  dict_keys (dict_set k v d)
  = if dict_mem k d then dict_keys d else dict_keys d ++ [k].
Proof.
  induction d as [|[k0 v0] d IH]; simpl; [reflexivity|].
  rewrite dict_mem_cons.
  destruct (str_eqb k k0) eqn:E; simpl; [reflexivity|].
  rewrite IH. destruct (dict_mem k d); reflexivity.
Qed.

Lemma dict_get_del_ne k k' d :
  str_eqb k' k = false -> dict_get k' (dict_del k d) = dict_get k' d.
Proof.
  intros Hne. induction d as [|[k0 v0] d IH]; simpl; [reflexivity|].
  destruct (str_eqb k k0) eqn:E; simpl.
  - apply str_eqb_eq in E. subst k0. now rewrite Hne.
  - destruct (str_eqb k' k0); auto.
Qed.

Lemma dict_mem_del_ne k k' d :
  str_eqb k' k = false -> dict_mem k' (dict_del k d) = dict_mem k' d.
Proof. intros H. unfold dict_mem. now rewrite dict_get_del_ne. Qed.

Lemma dict_get_del_eq k d :
  unique_keys d = true -> dict_get k (dict_del k d) = None.
Proof.
  induction d as [|[k0 v0] d IH]; simpl; [reflexivity|].
  intros H. apply andb_true_iff in H as [H1 H2].
  destruct (str_eqb k k0) eqn:E; simpl.
  - apply str_eqb_eq in E. subst k0.
    unfold dict_mem in H1. destruct (dict_get k d); [discriminate|reflexivity].
  - rewrite E. auto.
Qed.

Lemma dict_mem_del_eq k d :
  unique_keys d = true -> dict_mem k (dict_del k d) = false.
Proof. intros H. unfold dict_mem. now rewrite dict_get_del_eq. Qed.

Lemma unique_keys_set k v d :
  unique_keys d = true -> unique_keys (dict_set k v d) = true.
Proof.
  induction d as [|[k0 v0] d IH]; simpl; [reflexivity|].
  intros H. apply andb_true_iff in H as [H1 H2].
  destruct (str_eqb k k0) eqn:E; simpl.
  - now rewrite H1, H2.
  - rewrite dict_mem_set, str_eqb_sym, E, IH by assumption. simpl.
    now rewrite H1.
Qed.

Lemma unique_keys_del k d :
  unique_keys d = true -> unique_keys (dict_del k d) = true.
Proof.
  induction d as [|[k0 v0] d IH]; simpl; [reflexivity|].
  intros H. apply andb_true_iff in H as [H1 H2].
  destruct (str_eqb k k0) eqn:E; simpl; [assumption|].
  rewrite dict_mem_del_ne, H1, IH; auto. now rewrite str_eqb_sym.
Qed.

Lemma unique_keys_NoDup d : unique_keys d = true <-> NoDup (dict_keys d).
Proof.
  induction d as [|[k0 v0] d IH]; simpl.
  - split; [constructor | reflexivity].
  - rewrite andb_true_iff, negb_true_iff, IH. split.
    + intros [H1 H2]. constructor; [|assumption].
      rewrite <- dict_mem_In. congruence.
    + intros H. inversion H; subst. split; [|assumption].
      destruct (dict_mem k0 d) eqn:E; [|reflexivity].
      apply dict_mem_In in E. contradiction.
Qed.

Lemma dict_get_In k v d :
  unique_keys d = true -> (dict_get k d = Some v <-> In (k, v) d).
Proof.
  induction d as [|[k0 v0] d IH]; simpl.
  - intros _. split; [discriminate | tauto].
  - intros H. apply andb_true_iff in H as [H1 H2]. apply negb_true_iff in H1.
    destruct (str_eqb k k0) eqn:E.
    + apply str_eqb_eq in E. subst k0. split.
      * intros [= ->]. auto.
      * intros [[= ->]|Hin]; [reflexivity|].
        exfalso. assert (dict_mem k d = true); [|congruence].
        apply dict_mem_In. unfold dict_keys. change k with (fst (k, v)).
        now apply in_map.
    + rewrite IH by assumption. split; [auto|].
      intros [[= -> ->]|Hin]; [|assumption].
      rewrite str_eqb_refl in E. discriminate.
Qed.

Lemma dict_set_same k v d : dict_get k d = Some v -> dict_set k v d = d.
Proof.
  induction d as [|[k0 v0] d IH]; simpl; [discriminate|].
  destruct (str_eqb k k0); [now intros [= ->]|].
  intros H. now rewrite IH.
Qed.
End DictFacts.

(** *** Peer discovery *)

Lemma table_inv_empty : table_inv empty.
Proof. split; [reflexivity|]. split; [reflexivity|]. intros ip. reflexivity. Qed.

Lemma handle_discovery_state self t ip name :
  fst (_handle_discovery self t ip name)
  = mkPeerDiscovery (dict_set ip t (peers self)) (dict_set ip name (peer_names self)).
Proof. unfold _handle_discovery. destruct (negb _); reflexivity. Qed.

Lemma handle_discovery_inv self t ip name :
  table_inv self -> table_inv (fst (_handle_discovery self t ip name)).
Proof.
  intros (Hu & Hun & Hk). rewrite handle_discovery_state.
  split; [|split]; simpl.
  - now apply unique_keys_set.
  - now apply unique_keys_set.
  - intros ip'. simpl. now rewrite !dict_mem_set, Hk.
Qed.

Lemma handle_discovery_calls_ok self t ip name :
  table_inv self -> Forall call_ok (snd (_handle_discovery self t ip name)).
Proof.
  intros Hinv. pose proof (handle_discovery_inv self t ip name Hinv) as Hinv'.
  rewrite handle_discovery_state in Hinv'.
  unfold _handle_discovery. destruct (negb _); simpl; constructor; [|constructor].
  split; simpl; [assumption|]. split.
  - rewrite dict_mem_set, str_eqb_refl. reflexivity.
  - apply dict_get_set_eq.
Qed.

Lemma existsb_str_In (ip : str) (l : list str) :
  existsb (str_eqb ip) l = true <-> In ip l.
Proof.
  rewrite existsb_exists. split.
  - intros [x [Hin Heq]]. apply str_eqb_eq in Heq. now subst.
  - intros H. exists ip. split; [assumption | apply str_eqb_refl].
Qed.

Lemma remove_all_ok (to_remove : list str) :
  forall self,
    table_inv self ->
    NoDup to_remove ->
    (forall ip, In ip to_remove -> dict_mem ip (peers self) = true) ->
    exists self' calls,
      remove_all self to_remove = Ok (self', calls)
      /\ table_inv self'
      /\ List.map fst calls = List.map on_peer_lost to_remove
      /\ (forall ip, dict_get ip (peers self')
                     = if existsb (str_eqb ip) to_remove then None
                       else dict_get ip (peers self))
      /\ (forall ip, dict_get ip (peer_names self')
                     = if existsb (str_eqb ip) to_remove then None
                       else dict_get ip (peer_names self))
      /\ Forall call_ok calls.
Proof.
  induction to_remove as [|ip rest IH]; intros self Hinv Hnd Hmem.
  - exists self, []. simpl. repeat split; auto; apply Hinv.
  - simpl. rewrite (Hmem ip) by (left; reflexivity).
    destruct Hinv as (Hu & Hun & Hk).
    assert (Hn : dict_mem ip (peer_names self) = true).
    { rewrite <- Hk. apply Hmem. now left. }
    rewrite Hn.
    set (self2 := mkPeerDiscovery (dict_del ip (peers self))
                                  (dict_del ip (peer_names self))).
    assert (Hinv2 : table_inv self2).
    { split; [|split]; simpl; [now apply unique_keys_del..|].
      intros ip'. simpl. destruct (str_eqb ip' ip) eqn:E.
      - apply str_eqb_eq in E. subst ip'. now rewrite !dict_mem_del_eq.
      - now rewrite !dict_mem_del_ne, Hk. }
    inversion Hnd as [|? ? Hnotin Hnd']; subst.
    destruct (IH self2 Hinv2 Hnd') as (self' & calls & Hr & Hi & Hc & Hp & Hq & Hok).
    { intros ip' Hin. simpl. rewrite dict_mem_del_ne; [apply Hmem; now right|].
      apply str_eqb_neq. intros ->. contradiction. }
    exists self', ((on_peer_lost ip, self2) :: calls).
    rewrite Hr. split; [reflexivity|]. split; [assumption|].
    split; [simpl; now rewrite Hc|].
    split; [|split].
    + intros ip0. rewrite Hp. simpl.
      destruct (str_eqb ip0 ip) eqn:E; simpl.
      * apply str_eqb_eq in E. subst ip0. rewrite dict_get_del_eq by assumption.
        destruct (existsb _ _); reflexivity.
      * rewrite dict_get_del_ne by assumption. reflexivity.
    + intros ip0. rewrite Hq. simpl.
      destruct (str_eqb ip0 ip) eqn:E; simpl.
      * apply str_eqb_eq in E. subst ip0. rewrite dict_get_del_eq by assumption.
        destruct (existsb _ _); reflexivity.
      * rewrite dict_get_del_ne by assumption. reflexivity.
    + constructor; [|assumption]. split; [assumption|]. simpl.
      split; apply dict_mem_del_eq; assumption.
Qed.

Lemma stale_In self t ip :
  unique_keys (peers self) = true ->
  (In ip (stale self t) <->
   exists t0, dict_get ip (peers self) = Some t0
              /\ Qgtb (t - t0) (DISCOVERY_INTERVAL * 3) = true).
Proof.
  intros Hu. unfold stale. rewrite in_map_iff. split.
  - intros [[k t0] [Hk Hin]]. simpl in Hk. subst k.
    apply filter_In in Hin as [Hin Hs]. exists t0. split; [|assumption].
    now apply dict_get_In.
  - intros [t0 [Hg Hs]]. exists (ip, t0). split; [reflexivity|].
    apply filter_In. split; [|assumption]. now apply dict_get_In.
Qed.

Lemma NoDup_map_fst_filter {A B : Type} (f : A * B -> bool) (l : list (A * B)) :
  NoDup (List.map fst l) -> NoDup (List.map fst (filter f l)).
Proof.
  induction l as [|x l IH]; simpl; [auto|].
  intros H. inversion H as [|? ? Hn Hd]; subst.
  destruct (f x); simpl; auto.
  constructor; auto. intros Hin. apply Hn.
  apply in_map_iff in Hin as [y [Hy Hin]]. apply filter_In in Hin as [Hin _].
  rewrite <- Hy. now apply in_map.
Qed.

Lemma stale_NoDup self t :
  unique_keys (peers self) = true -> NoDup (stale self t).
Proof.
  intros Hu. apply NoDup_map_fst_filter. now apply unique_keys_NoDup.
Qed.

Lemma cleanup_pass_ok self t :
  table_inv self ->
  exists self' calls,
    cleanup_pass self t = Ok (self', calls)
    /\ table_inv self'
    /\ List.map fst calls = List.map on_peer_lost (stale self t)
    /\ (forall ip, dict_get ip (peers self')
                   = if existsb (str_eqb ip) (stale self t) then None
                     else dict_get ip (peers self))
    /\ (forall ip, dict_get ip (peer_names self')
                   = if existsb (str_eqb ip) (stale self t) then None
                     else dict_get ip (peer_names self))
    /\ Forall call_ok calls.
Proof.
  intros Hinv. unfold cleanup_pass. apply remove_all_ok; [assumption| |].
  - apply stale_NoDup, Hinv.
  - intros ip Hin. apply stale_In in Hin as [t0 [Hg _]]; [|apply Hinv].
    unfold dict_mem. now rewrite Hg.
Qed.

Lemma step_ok self i :
  table_inv self ->
  exists self' calls,
    step self i = Ok (self', calls) /\ table_inv self' /\ Forall call_ok calls.
Proof.
  intros Hinv. destruct i as [t ip name|t]; simpl.
  - exists (fst (_handle_discovery self t ip name)), (snd (_handle_discovery self t ip name)).
    split; [now destruct (_handle_discovery self t ip name)|].
    split; [now apply handle_discovery_inv | now apply handle_discovery_calls_ok].
  - destruct (cleanup_pass_ok self t Hinv) as (s' & c & H1 & H2 & _ & _ & _ & H3).
    eauto.
Qed.

Lemma run_ok inputs :
  forall self, table_inv self ->
  exists self' calls,
    run self inputs = Ok (self', calls) /\ table_inv self' /\ Forall call_ok calls.
Proof.
  induction inputs as [|i rest IH]; intros self Hinv; simpl.
  - exists self, []. auto.
  - destruct (step_ok self i Hinv) as (s1 & c1 & H1 & Hi1 & Hc1). rewrite H1.
    destruct (IH s1 Hi1) as (s2 & c2 & H2 & Hi2 & Hc2). rewrite H2.
    exists s2, (c1 ++ c2). split; [reflexivity|]. split; [assumption|].
    apply Forall_app; auto.
Qed.






Lemma Qgtb_true a b : Qgtb a b = true <-> (b < a)%Q.
Proof.
  unfold Qgtb. rewrite negb_true_iff. split.
  - intros H. apply Qnot_le_lt. intros Hle. apply Qle_bool_iff in Hle. congruence.
  - intros H. destruct (Qle_bool a b) eqn:E; [|reflexivity].
    apply Qle_bool_iff in E. exfalso. eapply Qlt_not_le; eauto.
Qed.

Lemma Qgtb_false a b : Qgtb a b = false <-> (a <= b)%Q.
Proof.
  unfold Qgtb. rewrite negb_false_iff. apply Qle_bool_iff.
Qed.

Lemma stale_existsb self t ip t0 :
  unique_keys (peers self) = true ->
  dict_get ip (peers self) = Some t0 ->
  existsb (str_eqb ip) (stale self t) = Qgtb (t - t0) (DISCOVERY_INTERVAL * 3).
Proof.
  intros Hu Hg. destruct (Qgtb _ _) eqn:E.
  - apply existsb_str_In, stale_In; eauto.
  - destruct (existsb _ _) eqn:E2; [|reflexivity].
    apply existsb_str_In, stale_In in E2 as [t1 [Hg' Hs]]; [|assumption].
    congruence.
Qed.


Lemma handle_discovery_callbacks self t ip name :
  List.map fst (snd (_handle_discovery self t ip name))
  = if dict_mem ip (peers self) then [] else [on_peer_discovered ip name].
Proof. unfold _handle_discovery. destruct (dict_mem ip (peers self)); reflexivity. Qed.




Lemma table_inv_same_key_set self : table_inv self -> same_key_set self.
Proof. intros (_ & _ & Hk). exact Hk. Qed.

(** C9. The two maps of the peer table have the same key set: in the
    empty table, after a discovery upsert, after a cleanup pass, and at
    the moment each callback is invoked, where a lost ip is already
    absent from both maps. *)
Theorem peer_maps_share_keys :
  same_key_set empty
  /\ table_inv empty
  /\ forall (self : PeerDiscovery) (i : input),
       table_inv self ->
       exists self' calls,
         step self i = Ok (self', calls)
         /\ table_inv self'
         /\ same_key_set self'
         /\ Forall (fun c =>
                      same_key_set (snd c)
                      /\ match fst c with
                         | on_peer_lost ip =>
                           dict_mem ip (peers (snd c)) = false
                           /\ dict_mem ip (peer_names (snd c)) = false
                         | on_peer_discovered ip name =>
                           dict_mem ip (peers (snd c)) = true
                           /\ dict_mem ip (peer_names (snd c)) = true
                         end) calls.
Proof.
  split; [intros ip; reflexivity|]. split; [apply table_inv_empty|].
  intros self i Hinv.
  destruct (step_ok self i Hinv) as (self' & calls & Hs & Hinv' & Hok).
  exists self', calls. split; [assumption|]. split; [assumption|].
  split; [now apply table_inv_same_key_set|].
  eapply Forall_impl; [|exact Hok].
  intros [cb snap] [Hi Hc]. simpl in *. split; [now apply table_inv_same_key_set|].
  destruct cb as [ip name|ip]; [|assumption].
  destruct Hc as [H1 H2]. split; [assumption|]. unfold dict_mem. now rewrite H2.
Qed.

Lemma table_with_alice_inv : table_inv table_with_alice.
Proof.
  split; [reflexivity|]. split; [reflexivity|].
  intros ip. unfold dict_mem. simpl. destruct (str_eqb ip peer_ip); reflexivity.
Defined.

(** C9 at a cleanup pass over a table with one stale peer *)
Lemma peer_maps_share_keys_witness :
  exists self' calls,
    step table_with_alice (cleanup 7) = Ok (self', calls) /\ same_key_set self'.
Proof.
  destruct peer_maps_share_keys as (_ & _ & H).
  destruct (H table_with_alice (cleanup 7) table_with_alice_inv)
    as (self' & calls & Hs & _ & Hk & _).
  exists self', calls. split; assumption.
Defined.

(** C8, amended.  A heartbeat from an ip already in the table fires no
    callback, sets the last-seen time of that ip, and stores the name
    the heartbeat carries as the display name of that ip; the keys of
    both maps and every other peer's entry are unchanged, and so is the
    display name when the heartbeat carries the stored one. *)
Theorem known_peer_heartbeat :
  forall (self : PeerDiscovery) (t : Q) (ip : str) (name : pyval),
    dict_mem ip (peers self) = true ->
    dict_mem ip (peer_names self) = true ->
    let self' := fst (_handle_discovery self t ip name) in
    snd (_handle_discovery self t ip name) = []
    /\ dict_get ip (peers self') = Some t
    /\ dict_get ip (peer_names self') = Some name
    /\ dict_keys (peers self') = dict_keys (peers self)
    /\ dict_keys (peer_names self') = dict_keys (peer_names self)
    /\ (forall ip', ip' <> ip ->
          dict_get ip' (peers self') = dict_get ip' (peers self)
          /\ dict_get ip' (peer_names self') = dict_get ip' (peer_names self))
    /\ (dict_get ip (peer_names self) = Some name ->
        peer_names self' = peer_names self).
Proof.
  intros self t ip name Hp Hn self'. subst self'.
  rewrite handle_discovery_state. simpl.
  split. { unfold _handle_discovery. now rewrite Hp. }
  split; [apply dict_get_set_eq|]. split; [apply dict_get_set_eq|].
  split. { now rewrite dict_keys_set, Hp. }
  split. { now rewrite dict_keys_set, Hn. }
  split; [|apply dict_set_same].
  intros ip' Hne. apply str_eqb_neq in Hne.
  split; now apply dict_get_set_ne.
Qed.

(** C8 at a heartbeat that carries the stored name *)
Lemma known_peer_heartbeat_witness :
  snd (_handle_discovery table_with_alice 2 peer_ip (PyStr alice)) = []
  /\ dict_get peer_ip
       (peers (fst (_handle_discovery table_with_alice 2 peer_ip (PyStr alice))))
     = Some 2%Q.
Proof.
  destruct (known_peer_heartbeat table_with_alice 2 peer_ip (PyStr alice))
    as (H1 & H2 & _); [reflexivity | reflexivity |].
  split; [exact H1 | exact H2].
Defined.

(** C8 as stated fails: a heartbeat from a known ip with another name
    replaces the stored display name. *)
Lemma heartbeat_overwrites_name :
  dict_mem peer_ip (peers table_with_alice) = true
  /\ dict_get peer_ip (peer_names table_with_alice) = Some (PyStr alice)
  /\ snd (_handle_discovery table_with_alice 2 peer_ip (PyStr bob)) = []
  /\ dict_get peer_ip
       (peer_names (fst (_handle_discovery table_with_alice 2 peer_ip (PyStr bob))))
     = Some (PyStr bob)
  /\ peer_names (fst (_handle_discovery table_with_alice 2 peer_ip (PyStr bob)))
     <> peer_names table_with_alice.
Proof.
  repeat split; try (vm_compute; reflexivity).
  vm_compute. discriminate.
Qed.

(** *** The connection handler *)

Lemma recv_chunks_stream n cs b cs' :
  recv_chunks n cs = Some (b, cs') -> concat cs = b ++ concat cs'.
Proof.
  revert b cs'. induction cs as [|c cs IH]; intros b cs'; simpl; [discriminate|].
  destruct c as [|x c]; [apply IH|].
  destruct (Nat.leb _ _); intros [= <- <-]; simpl; [reflexivity|].
  now rewrite app_assoc, firstn_skipn.
Qed.

Lemma recv_chunks_nonempty n cs b cs' :
  (0 < n)%nat -> recv_chunks n cs = Some (b, cs') -> b <> [].
Proof.
  intros Hn. revert b cs'. induction cs as [|c cs IH]; intros b cs'; simpl; [discriminate|].
  destruct c as [|x c]; [apply IH|].
  destruct (Nat.leb _ _); intros [= <- <-]; [discriminate|].
  destruct n; [lia | discriminate].
Qed.

Lemma recv_chunks_none n cs :
  recv_chunks n cs = None -> concat cs = [].
Proof.
  induction cs as [|c cs IH]; simpl; [reflexivity|].
  destruct c as [|x c]; [exact IH|].
  destruct (Nat.leb _ _); discriminate.
Qed.

Lemma recv_chunks_length n cs b cs' :
  recv_chunks n cs = Some (b, cs') -> (length b <= n)%nat.
Proof.
  revert b cs'. induction cs as [|c cs IH]; intros b cs'; simpl; [discriminate|].
  destruct c as [|x c]; [apply IH|].
  destruct (Nat.leb (length (x :: c)) n) eqn:E; intros [= <- <-].
  - now apply Nat.leb_le.
  - apply firstn_le_length.
Qed.

Lemma recv_ok n sock b sock' :
  recv n sock = Ok (b, sock') ->
  stream sock = b ++ stream sock' /\ ending sock' = ending sock
  /\ (length b <= n)%nat
  /\ (b = [] -> stream sock = [] /\ ending sock = peer_closed \/ n = 0%nat).
Proof.
  unfold recv, stream. destruct (recv_chunks n (chunks sock)) as [[b0 cs]|] eqn:E.
  - intros [= <- <-]. simpl. split; [now apply (recv_chunks_stream n)|].
    split; [reflexivity|]. split; [now apply (recv_chunks_length n (chunks sock) b0 cs)|].
    intros ->. right. destruct n; [reflexivity|].
    exfalso. apply (recv_chunks_nonempty (S n) (chunks sock) [] cs); [lia | assumption | reflexivity].
  - apply recv_chunks_none in E. destruct (ending sock) eqn:Ee; [|discriminate].
    intros [= <- <-]. simpl. rewrite E.
    repeat split; auto using Nat.le_0_l.
Qed.

Lemma recv_pending n sock b sock' :
  recv n sock = Ok (b, sock') -> pending sock = (length b + pending sock')%nat.
Proof.
  intros H. apply recv_ok in H as [H _]. unfold pending. fold (stream sock).
  fold (stream sock'). now rewrite H, length_app.
Qed.

Section HandlerFacts.
Variable running : nat -> bool.
Variable ip : str.

Lemma read_body_total fuel msg_len :
  forall data sock,
    (pending sock < fuel)%nat ->
    exists r, read_body fuel msg_len data sock = Some r
              /\ match r with
                 | Ok (_, sock') => (pending sock' <= pending sock)%nat
                 | Raise _ => True
                 end.
Proof.
  induction fuel as [|fuel IH]; intros data sock Hf; [lia|]. simpl.
  destruct (_ <? _) eqn:Elt; [|eexists; split; [reflexivity|]; simpl; lia].
  destruct (recv _ sock) as [[chunk sock']|e] eqn:Er;
    [|eexists; split; [reflexivity|exact I]].
  pose proof (recv_pending _ _ _ _ Er) as Hp.
  destruct chunk as [|x chunk]; [eexists; split; [reflexivity|]; simpl; lia|].
  simpl in Hp.
  destruct (IH (data ++ x :: chunk) sock') as (r & Hr & Hb); [lia|].
  exists r. split; [assumption|]. destruct r as [[d s]|]; [lia | exact I].
Qed.

Lemma handle_file_data_keeps a msg a' :
  _handle_file_data a msg = Ok a' -> a' = a.
Proof.
  unfold _handle_file_data, bind.
  destruct (payload_get msg _); [|discriminate].
  destruct (payload_get msg _) as [d|]; [|discriminate].
  destruct d; try discriminate.
  destruct (str_encode_latin1 s); [|discriminate]. now intros [= <-].
Qed.

Lemma handle_loop_total fuel :
  forall i a sock,
    (pending sock < fuel)%nat ->
    exists r, handle_loop running ip fuel i a sock = Some r.
Proof.
  induction fuel as [|fuel IH]; intros i a sock Hf; [lia|]. cbn [handle_loop].
  destruct (running i); [|eauto].
  destruct (recv 4 sock) as [[lb sock1]|e] eqn:Er; [|eauto].
  pose proof (recv_pending _ _ _ _ Er) as Hp.
  destruct lb as [|x lb]; [eauto|]. simpl in Hp.
  destruct (read_body_total (S (pending sock1)) (int_from_bytes_big (x :: lb)) [] sock1)
    as (r & Hr & Hb); [lia|].
  rewrite Hr. destruct r as [[data sock2]|e]; [|eauto].
  destruct (negb _); [eauto|].
  destruct (from_bytes data) as [msg0|e]; [|eauto].
  destruct (MessageType_eqb _ _).
  - destruct (_handle_file_data a _) as [a1|e]; [|eauto].
    destruct (IH (S i) a1 sock2) as [[tr a2] Hr2]; [lia|]. rewrite Hr2. eauto.
  - destruct (IH (S i) a sock2) as [[tr a2] Hr2]; [lia|]. rewrite Hr2. eauto.
Qed.

Lemma handle_client_total a sock :
  exists r, _handle_client running ip a sock = Some r.
Proof. apply handle_loop_total. lia. Qed.

Lemma handle_loop_trace fuel :
  forall i a sock tr a',
    handle_loop running ip fuel i a sock = Some (tr, a') ->
    a' = a
    /\ dispatched tr
       = List.map (stamp ip) (filter (fun m => negb (is_file_data m)) (decoded tr))
    /\ file_data_calls tr = List.map (stamp ip) (filter is_file_data (decoded tr))
    /\ (exists tr0, tr = tr0 ++ [ev_close] /\ ~ In ev_close tr0).
Proof.
  induction fuel as [|fuel IH]; intros i a sock tr a' H; [discriminate|].
  cbn [handle_loop] in H.
  assert (Hstop : forall l, ~ In ev_close l ->
            Some (l ++ [ev_close], a) = Some (tr, a') ->
            decoded l = [] -> dispatched l = [] -> file_data_calls l = [] ->
            a' = a
            /\ dispatched tr
               = List.map (stamp ip) (filter (fun m => negb (is_file_data m)) (decoded tr))
            /\ file_data_calls tr = List.map (stamp ip) (filter is_file_data (decoded tr))
            /\ (exists tr0, tr = tr0 ++ [ev_close] /\ ~ In ev_close tr0)).
  { intros l Hl [= <- <-] Hd Hs Hf. unfold decoded, dispatched, file_data_calls in *.
    rewrite !flat_map_app, Hd, Hs, Hf. simpl. repeat split; eauto. }
  destruct (running i); [|apply (Hstop []); auto].
  destruct (recv 4 sock) as [[lb sock1]|e];
    [|apply (Hstop [ev_log_error e]); simpl; auto; intros [?|[]]; discriminate].
  destruct lb as [|x lb]; [apply (Hstop []); auto|].
  destruct (read_body _ _ _ _) as [[[data sock2]|e]|]; [| |discriminate];
    [|apply (Hstop [ev_log_error e]); simpl; auto; intros [?|[]]; discriminate].
  destruct (negb _); [apply (Hstop []); auto|].
  destruct (from_bytes data) as [msg0|e] eqn:Ed.
  2:{ apply (Hstop [ev_from_bytes data (Raise e); ev_log_error e]); simpl; auto.
      intros [?|[?|[]]]; discriminate. }
  destruct (MessageType_eqb _ _) eqn:Et.
  - assert (Hfd : is_file_data msg0 = true) by exact Et.
    destruct (_handle_file_data a _) as [a1|e] eqn:Eh.
    + apply handle_file_data_keeps in Eh. subst a1.
      destruct (handle_loop _ _ _ _ _ _) as [[tr1 a1]|] eqn:Er; [|discriminate].
      injection H as <- <-.
      destruct (IH _ _ _ _ _ Er) as (-> & Hd & Hf & tr0 & -> & Hn).
      split; [reflexivity|]. simpl. rewrite Hfd. simpl. rewrite Hd, Hf.
      split; [reflexivity|]. split; [reflexivity|].
      exists (ev_from_bytes data (Ok msg0)
              :: ev_handle_file_data (set_sender_ip msg0 (PyStr ip)) :: tr0).
      split; [reflexivity|]. simpl. intros [?|[?|?]]; try discriminate. auto.
    + injection H as <- <-. split; [reflexivity|]. simpl. rewrite Hfd. simpl.
      split; [reflexivity|]. split; [reflexivity|].
      exists [ev_from_bytes data (Ok msg0);
              ev_handle_file_data (set_sender_ip msg0 (PyStr ip)); ev_log_error e].
      split; [reflexivity|]. simpl. intros [?|[?|[?|[]]]]; discriminate.
  - assert (Hfd : is_file_data msg0 = false) by exact Et.
    destruct (handle_loop _ _ _ _ _ _) as [[tr1 a1]|] eqn:Er; [|discriminate].
    injection H as <- <-.
    destruct (IH _ _ _ _ _ Er) as (-> & Hd & Hf & tr0 & -> & Hn).
    split; [reflexivity|]. simpl. rewrite Hfd. simpl. rewrite Hd, Hf.
    split; [reflexivity|]. split; [reflexivity|].
    exists (ev_from_bytes data (Ok msg0)
            :: ev_on_message (set_sender_ip msg0 (PyStr ip)) :: tr0).
    split; [reflexivity|]. simpl. intros [?|[?|?]]; try discriminate. auto.
Qed.
End HandlerFacts.

Lemma stamp_same ip m1 m2 :
  same_but_sender_ip m1 m2 -> stamp ip m1 = stamp ip m2.
Proof.
  intros (Ht & Hn & Hp). unfold stamp, set_sender_ip. now rewrite Ht, Hn, Hp.
Qed.

Lemma filter_stamp_same ip f l1 l2 :
  (forall m1 m2, same_but_sender_ip m1 m2 -> f m1 = f m2) ->
  Forall2 same_but_sender_ip l1 l2 ->
  List.map (stamp ip) (filter f l1) = List.map (stamp ip) (filter f l2).
Proof.
  intros Hf. induction 1 as [|m1 m2 l1 l2 Hm Hl IH]; simpl; [reflexivity|].
  rewrite (Hf m1 m2 Hm). destruct (f m2); simpl; [|assumption].
  now rewrite (stamp_same ip m1 m2 Hm), IH.
Qed.

(** C4. Every envelope a connection handler passes to [on_message]
    carries the peer address of the socket as its [sender_ip], and two
    runs whose decoded envelopes differ at most in [sender_ip] pass the
    same envelopes to [on_message]. *)
Theorem dispatched_sender_ip_is_peer_address :
  forall (running : nat -> bool) (ip : str) (a : transfers) (sock : socket),
  exists tr a',
    _handle_client running ip a sock = Some (tr, a')
    /\ (forall msg, In (ev_on_message msg) tr -> sender_ip msg = PyStr ip)
    /\ (forall running2 a2 sock2 tr2 a2',
          _handle_client running2 ip a2 sock2 = Some (tr2, a2') ->
          Forall2 same_but_sender_ip (decoded tr) (decoded tr2) ->
          dispatched tr = dispatched tr2).
Proof.
  intros running ip a sock.
  destruct (handle_client_total running ip a sock) as [[tr a'] Hr].
  exists tr, a'. split; [assumption|].
  destruct (handle_loop_trace _ _ _ _ _ _ _ _ Hr) as (_ & Hd & _ & _).
  split.
  - intros msg Hin.
    assert (Hm : In msg (dispatched tr)).
    { unfold dispatched. apply in_flat_map. exists (ev_on_message msg). simpl. auto. }
    rewrite Hd in Hm. apply in_map_iff in Hm as [m0 [<- _]]. reflexivity.
  - intros running2 a2 sock2 tr2 a2' Hr2 Hsame.
    destruct (handle_loop_trace _ _ _ _ _ _ _ _ Hr2) as (_ & Hd2 & _ & _).
    rewrite Hd, Hd2. apply filter_stamp_same; [|assumption].
    intros m1 m2 (Ht & _). unfold is_file_data. now rewrite Ht.
Qed.

(** C4 at two frames delivered in one chunk *)
Lemma dispatched_sender_ip_witness :
  exists tr a,
    _handle_client always_running peer_ip [] (mkSocket [two_frames] peer_closed)
    = Some (tr, a)
    /\ sender_ip (stamp peer_ip hi_message) = PyStr peer_ip.
Proof.
  destruct (dispatched_sender_ip_is_peer_address
              always_running peer_ip [] (mkSocket [two_frames] peer_closed))
    as (tr & a & Hr & Hip & _).
  exists tr, a. split; [exact Hr|]. apply Hip.
  vm_compute in Hr. injection Hr as <- <-. right. left. reflexivity.
Defined.



(** *** Short reads *)

Lemma recv_peer_closed n sock :
  ending sock = peer_closed -> exists b sock', recv n sock = Ok (b, sock').
Proof.
  intros He. unfold recv. destruct (recv_chunks _ _) as [[b cs]|]; [eauto|].
  rewrite He. eauto.
Qed.

Lemma read_body_short fuel msg_len :
  forall data sock,
    (pending sock < fuel)%nat ->
    ending sock = peer_closed ->
    Z.of_nat (length data + pending sock) < msg_len ->
    exists sock',
      read_body fuel msg_len data sock = Some (Ok (data ++ stream sock, sock')).
Proof.
  induction fuel as [|fuel IH]; intros data sock Hf He Hlt; [lia|].
  cbn [read_body].
  assert (Hl : (Z.of_nat (length data) <? msg_len) = true) by (apply Z.ltb_lt; lia).
  rewrite Hl.
  set (n := Z.to_nat _).
  assert (Hn : (0 < n)%nat) by (unfold n, BUFFER_SIZE; lia).
  destruct (recv_peer_closed n sock He) as (b & sock' & Hr). rewrite Hr.
  pose proof (recv_pending _ _ _ _ Hr) as Hp.
  destruct (recv_ok _ _ _ _ Hr) as (Hs & He' & _ & Hnil).
  destruct b as [|x b].
  - destruct (Hnil eq_refl) as [[Hs0 _]|Hz]; [|lia].
    rewrite Hs0, List.app_nil_r. eauto.
  - destruct (IH (data ++ x :: b) sock') as (sock'' & Hr'').
    + simpl in Hp. lia.
    + congruence.
    + rewrite length_app. lia.
    + rewrite Hr'', Hs, app_assoc. eauto.
Qed.

Lemma handle_loop_short_read running ip fuel i a sock hdr sock1 :
  recv 4 sock = Ok (hdr, sock1) ->
  length hdr = 4%nat ->
  ending sock = peer_closed ->
  Z.of_nat (pending sock1) < int_from_bytes_big hdr ->
  (pending sock < fuel)%nat ->
  handle_loop running ip fuel i a sock = Some ([ev_close], a).
Proof.
  intros Hr Hh He Hlt Hf.
  destruct fuel as [|fuel]; [lia|]. cbn [handle_loop].
  destruct (running i); [|reflexivity].
  rewrite Hr. destruct hdr as [|h0 hdr]; [discriminate|]. cbv zeta.
  remember (int_from_bytes_big (h0 :: hdr)) as N eqn:HN.
  destruct (recv_ok _ _ _ _ Hr) as (_ & He1 & _).
  destruct (read_body_short (S (pending sock1)) N [] sock1) as (sock2 & Hb).
  - lia.
  - congruence.
  - exact Hlt.
  - rewrite Hb. cbn [List.app]. unfold stream. fold (pending sock1).
    assert (Hne : (Z.of_nat (pending sock1) =? N) = false) by (apply Z.eqb_neq; lia).
    rewrite Hne. reflexivity.
Qed.



(** *** Framing *)

Lemma take_bytes_zero cs : take_bytes 0 cs = Some ([], cs).
Proof. destruct cs; reflexivity. Qed.

Lemma take_bytes_pos n c rest :
  (0 < n)%nat ->
  take_bytes n (c :: rest)
  = if (length c <=? n)%nat then
      match take_bytes (n - length c) rest with
      | Some (b, cs') => Some (c ++ b, cs')
      | None => None
      end
    else Some (firstn n c, skipn n c :: rest).
Proof. destruct n; [lia | reflexivity]. Qed.

Lemma recv_take cs :
  forall n k b cs',
    (0 < n <= k)%nat ->
    take_bytes k cs = Some (b, cs') ->
    exists x cs1 b',
      recv_chunks n cs = Some (x, cs1)
      /\ x <> []
      /\ b = x ++ b'
      /\ take_bytes (k - length x) cs1 = Some (b', cs').
Proof.
  induction cs as [|c cs IH]; intros n k b cs' Hn Ht.
  - destruct k; [lia | discriminate].
  - rewrite take_bytes_pos in Ht by lia.
    destruct c as [|y c].
    + simpl in Ht. rewrite Nat.sub_0_r in Ht.
      destruct (take_bytes k cs) as [[b0 cs0]|] eqn:E; [|discriminate].
      injection Ht as <- <-.
      destruct (IH n k b0 cs0 Hn E) as (x & cs1 & b' & H1 & H2 & H3 & H4).
      exists x, cs1, b'. simpl. auto.
    + cbn [recv_chunks].
      destruct (Nat.leb (length (y :: c)) n) eqn:En.
      * apply Nat.leb_le in En.
        assert (Ek : (length (y :: c) <=? k)%nat = true) by (apply Nat.leb_le; lia).
        rewrite Ek in Ht.
        destruct (take_bytes (k - length (y :: c)) cs) as [[b0 cs0]|] eqn:E;
          [|discriminate].
        injection Ht as <- <-.
        exists (y :: c), cs, b0. repeat split; auto. discriminate.
      * apply Nat.leb_gt in En.
        exists (firstn n (y :: c)), (skipn n (y :: c) :: cs).
        assert (Hfl : length (firstn n (y :: c)) = n) by (apply firstn_length_le; lia).
        assert (Hne : firstn n (y :: c) <> []).
        { intros H0. rewrite H0 in Hfl. simpl in Hfl. lia. }
        rewrite Hfl.
        destruct (Nat.leb (length (y :: c)) k) eqn:Ek.
        -- apply Nat.leb_le in Ek.
           destruct (take_bytes (k - length (y :: c)) cs) as [[b0 cs0]|] eqn:E;
             [|discriminate].
           injection Ht as <- <-.
           exists (skipn n (y :: c) ++ b0). split; [reflexivity|]. split; [assumption|].
           split; [now rewrite app_assoc, firstn_skipn|].
           rewrite take_bytes_pos by lia. rewrite length_skipn.
           assert (Hle : (length (y :: c) - n <=? k - n)%nat = true)
             by (apply Nat.leb_le; lia).
           rewrite Hle.
           replace (k - n - (length (y :: c) - n))%nat with (k - length (y :: c))%nat by lia.
           now rewrite E.
        -- apply Nat.leb_gt in Ek. injection Ht as <- <-.
           destruct (Nat.eq_dec n k) as [->|Hnk].
           ++ exists []. split; [reflexivity|]. split; [assumption|].
              split; [now rewrite List.app_nil_r|].
              rewrite Nat.sub_diag. apply take_bytes_zero.
           ++ exists (firstn (k - n) (skipn n (y :: c))).
              split; [reflexivity|]. split; [assumption|]. split.
              ** rewrite <- (firstn_skipn n (y :: c)) at 1.
                 rewrite firstn_app, Hfl.
                 rewrite firstn_all2 by lia. reflexivity.
              ** rewrite take_bytes_pos by lia. rewrite length_skipn.
                 assert (Hgt : (length (y :: c) - n <=? k - n)%nat = false)
                   by (apply Nat.leb_gt; lia).
                 rewrite Hgt, skipn_skipn.
                 replace (k - n + n)%nat with k by lia. reflexivity.
Qed.

Lemma read_body_take fuel :
  forall k cs e data b cs',
    take_bytes k cs = Some (b, cs') ->
    (pending (mkSocket cs e) < fuel)%nat ->
    read_body fuel (Z.of_nat (length data + k)) data (mkSocket cs e)
    = Some (Ok (data ++ b, mkSocket cs' e)).
Proof.
  induction fuel as [|fuel IH]; intros k cs e data b cs' Ht Hf; [lia|].
  cbn [read_body]. destruct k as [|k].
  - rewrite take_bytes_zero in Ht. injection Ht as <- <-.
    rewrite Nat.add_0_r, Z.ltb_irrefl, List.app_nil_r. reflexivity.
  - assert (Hl : (Z.of_nat (length data) <? Z.of_nat (length data + S k)) = true)
      by (apply Z.ltb_lt; lia).
    rewrite Hl.
    set (n := Z.to_nat _).
    assert (Hn : (0 < n <= S k)%nat) by (unfold n, BUFFER_SIZE; lia).
    destruct (recv_take cs n (S k) b cs' Hn Ht) as (x & cs1 & b' & Hr & Hx & Hb & Ht').
    unfold recv. cbn [chunks ending]. rewrite Hr.
    destruct x as [|x0 x]; [contradiction|].
    pose proof (recv_chunks_stream _ _ _ _ Hr) as Hs.
    pose proof (recv_chunks_length _ _ _ _ Hr) as Hlen.
    replace (Z.of_nat (length data + S k))
      with (Z.of_nat (length (data ++ x0 :: x) + (S k - length (x0 :: x))))
      by (rewrite length_app; lia).
    rewrite (IH _ _ e _ _ _ Ht').
    + now rewrite Hb, app_assoc.
    + unfold pending in *. cbn [chunks] in *. rewrite Hs, length_app in Hf.
      simpl in Hf. lia.
Qed.

Lemma int_to_bytes4_big_spec n hdr :
  int_to_bytes4_big n = Ok hdr ->
  length hdr = 4%nat /\ int_from_bytes_big hdr = n.
Proof.
  unfold int_to_bytes4_big. destruct (between 0 n 4294967295) eqn:E; [|discriminate].
  apply between_true in E. intros [= <-]. split; [reflexivity|].
  unfold int_from_bytes_big. cbn [fold_left]. Z.div_mod_to_equations. lia.
Qed.

Lemma recv_chunks_empty n cs : concat cs = [] -> recv_chunks n cs = None.
Proof.
  induction cs as [|c cs IH]; [reflexivity|]. simpl. intros H.
  apply app_eq_nil in H as [-> H]. auto.
Qed.

Lemma recv_whole_prefix hdr c cs e :
  length hdr = 4%nat ->
  recv 4 (mkSocket ((hdr ++ c) :: cs) e) = Ok (hdr, mkSocket (cons_chunk c cs) e).
Proof.
  intros Hh. destruct hdr as [|h1 [|h2 [|h3 [|h4 [|h5 hdr]]]]]; try discriminate.
  unfold recv. cbn [chunks ending]. destruct c; reflexivity.
Qed.

Lemma take_bytes_pending n cs b cs' :
  take_bytes n cs = Some (b, cs') ->
  length b = n /\ concat cs = b ++ concat cs'.
Proof.
  revert n b cs'. induction cs as [|c cs IH]; intros n b cs' H.
  - destruct n; [|discriminate]. injection H as <- <-. auto.
  - destruct n as [|n]; [injection H as <- <-; auto|].
    rewrite take_bytes_pos in H by lia.
    destruct (Nat.leb (length c) (S n)) eqn:E.
    + apply Nat.leb_le in E.
      destruct (take_bytes (S n - length c) cs) as [[b0 cs0]|] eqn:E0; [|discriminate].
      injection H as <- <-. destruct (IH _ _ _ E0) as [H1 H2].
      split; [rewrite length_app; lia|]. simpl. now rewrite H2, app_assoc.
    + apply Nat.leb_gt in E.
      assert (Hb : firstn (S n) c = b) by congruence.
      assert (Hc : skipn (S n) c :: cs = cs') by congruence.
      subst b cs'. split; [rewrite length_firstn; lia|]. cbn [concat].
      now rewrite app_assoc, firstn_skipn.
Qed.

Lemma cons_chunk_concat c cs : concat (cons_chunk c cs) = c ++ concat cs.
Proof. destruct c; reflexivity. Qed.

Section Framing.
Variable running : nat -> bool.
Variable ip : str.
Hypothesis keeps_running : forall i, running i = true.

Lemma handle_loop_skip_empty fuel i a cs e :
  handle_loop running ip fuel i a (mkSocket ([] :: cs) e)
  = handle_loop running ip fuel i a (mkSocket cs e).
Proof. destruct fuel; reflexivity. Qed.

Lemma handle_loop_frames bodies cs :
  whole_prefixes bodies cs ->
  forall fuel i a,
    (pending (mkSocket cs peer_closed) < fuel)%nat ->
    handle_loop running ip fuel i a (mkSocket cs peer_closed)
    = Some (handle_frames ip a bodies).
Proof.
  induction 1 as [cs Hc | hdr c cs Hh Hlt | bodies cs Hw IH
                 | body bodies hdr c cs cs' Hh Ht Hw IH];
    intros fuel i a Hf.
  - destruct fuel; [lia|]. cbn [handle_loop]. rewrite keeps_running.
    unfold recv. cbn [chunks ending]. now rewrite recv_chunks_empty.
  - apply (handle_loop_short_read running ip fuel i a _ hdr
             (mkSocket (cons_chunk c cs) peer_closed)); auto.
    + now apply recv_whole_prefix.
    + unfold pending. cbn [chunks]. now rewrite cons_chunk_concat.
  - rewrite handle_loop_skip_empty. apply IH. exact Hf.
  - destruct fuel as [|fuel]; [lia|]. cbn [handle_loop]. rewrite keeps_running.
    destruct (int_to_bytes4_big_spec _ _ Hh) as [Hlen Hval].
    rewrite (recv_whole_prefix hdr c cs peer_closed Hlen).
    destruct hdr as [|h0 hdr]; [discriminate|]. cbv zeta. rewrite Hval.
    pose proof (read_body_take (S (pending (mkSocket (cons_chunk c cs) peer_closed)))
                  (length body) (cons_chunk c cs) peer_closed [] body cs' Ht
                  ltac:(lia)) as Hb.
    cbn [length Nat.add List.app] in Hb. rewrite Hb, Z.eqb_refl. cbn [negb].
    destruct (take_bytes_pending _ _ _ _ Ht) as [_ Hs].
    assert (Hp : (pending (mkSocket cs' peer_closed) < fuel)%nat).
    { unfold pending in *. cbn [chunks concat] in *.
      rewrite cons_chunk_concat in Hs. rewrite <- app_assoc, Hs, !length_app in Hf.
      simpl in Hlen, Hf. lia. }
    cbn [handle_frames].
    destruct (from_bytes body) as [msg0|e]; [|reflexivity].
    destruct (MessageType_eqb _ _).
    + destruct (_handle_file_data a _) as [a'|e]; [|reflexivity].
      rewrite (IH fuel (S i) a' Hp). now destruct (handle_frames ip a' bodies).
    + rewrite (IH fuel (S i) a Hp). now destruct (handle_frames ip a bodies).
Qed.

(** Framing.  While the handler keeps running, frames whose length
    prefixes each arrive within one chunk are read one by one and
    handled in the order they were sent. *)
Theorem framing_with_whole_prefixes bodies cs a :
  whole_prefixes bodies cs ->
  _handle_client running ip a (mkSocket cs peer_closed)
  = Some (handle_frames ip a bodies).
Proof. intros H. apply handle_loop_frames; [exact H | lia]. Qed.
End Framing.

Lemma handle_frames_dispatch ip a (msgs : list Message) (bodies : list bytes) :
  Forall2 (fun m b => from_bytes b = Ok m /\ type m <> FILE_DATA) msgs bodies ->
  dispatched (fst (handle_frames ip a bodies)) = List.map (stamp ip) msgs
  /\ snd (handle_frames ip a bodies) = a.
Proof.
  induction 1 as [|m b msgs bodies [Hd Ht] Hall IH]; [split; reflexivity|].
  cbn [handle_frames]. rewrite Hd.
  assert (E : MessageType_eqb (type (set_sender_ip m (PyStr ip))) FILE_DATA = false).
  { simpl. destruct (type m); try reflexivity. contradiction. }
  rewrite E. destruct (handle_frames ip a bodies) as [tr a'] eqn:Eh.
  simpl in *. destruct IH as [IH1 IH2]. now rewrite IH1, IH2.
Qed.

(** A first chunk that holds only the first byte of a length prefix
    below 2^24 makes the handler read a length of zero, fail to decode
    the empty body and drop the connection. *)
Lemma split_length_prefix_drops_connection running ip a rest e :
  running 0%nat = true ->
  _handle_client running ip a (mkSocket ([0] :: rest) e)
  = Some ([ev_from_bytes [] (Raise JSONDecodeError);
           ev_log_error JSONDecodeError; ev_close], a).
Proof.
  intros Hr. unfold _handle_client, pending. cbn [chunks concat List.app length].
  cbn [handle_loop]. rewrite Hr. reflexivity.
Qed.

(** C2, at the failing input.  The frames of "hi" and "bye" delivered in
    one chunk are both dispatched, in order; delivered one byte at a
    time, none is: the handler takes the first byte for the whole
    length prefix. *)
Theorem framing_breaks_on_split_length_prefix :
  _send_to_peer hi_message = Ok (frame_of hi_message)
  /\ _send_to_peer bye_message = Ok (frame_of bye_message)
  /\ (exists tr a,
        _handle_client always_running peer_ip []
                       (mkSocket [two_frames] peer_closed) = Some (tr, a)
        /\ dispatched tr = [stamp peer_ip hi_message; stamp peer_ip bye_message])
  /\ _handle_client always_running peer_ip []
                    (mkSocket (one_byte_chunks two_frames) peer_closed)
     = Some ([ev_from_bytes [] (Raise JSONDecodeError);
              ev_log_error JSONDecodeError; ev_close], []).
Proof.
  split; [vm_compute; reflexivity|]. split; [vm_compute; reflexivity|]. split.
  - destruct (_handle_client always_running peer_ip []
                (mkSocket [two_frames] peer_closed)) as [[tr a]|] eqn:E;
      vm_compute in E; [|discriminate].
    injection E as <- <-. eexists _, _. split; [reflexivity|]. vm_compute. reflexivity.
  - vm_compute. reflexivity.
Qed.

(** *** Decoding *)

Lemma MessageType_call_value ty : MessageType_call (PyStr (value ty)) = Ok ty.
Proof. destruct ty; reflexivity. Qed.

Lemma MessageType_call_ok t ty : MessageType_call t = Ok ty -> t = PyStr (value ty).
Proof.
  destruct t; try discriminate. unfold MessageType_call.
  match goal with
  | |- context [find ?f members] => destruct (find f members) as [ty'|] eqn:E
  end; [|discriminate].
  intros [= ->]. apply find_some in E as [_ E]. apply str_eqb_eq in E. now subst.
Qed.

Lemma MessageType_call_error t e : MessageType_call t = Raise e -> e = ValueError.
Proof.
  destruct t; unfold MessageType_call; try congruence.
  match goal with
  | |- context [find ?f members] => destruct (find f members)
  end; congruence.
Qed.

Lemma loads_error s e : json.loads s = Raise e -> e = JSONDecodeError.
Proof.
  unfold json.loads. cbv zeta.
  destruct (match s with c :: _ => c =? 65279 | [] => false end); [congruence|].
  destruct (json.scan_once _ _) as [[o r]|]; [|congruence].
  destruct (json.skip_ws r); congruence.
Qed.

Lemma Message_init_ok ty d msg :
  Message_init ty d = Ok msg ->
  type msg = ty
  /\ dict_get (lit "sender_name") d = Some (sender_name msg)
  /\ dict_get (lit "sender_ip") d = Some (sender_ip msg)
  /\ payload msg = match dict_get (lit "payload") d with Some p => p | None => PyNone end
  /\ (forall k, In k (dict_keys d) -> In k field_names).
Proof.
  unfold Message_init.
  destruct (forallb _ _) eqn:Ef; [|discriminate].
  destruct (dict_get (lit "sender_name") d) as [n|]; [|discriminate].
  destruct (dict_get (lit "sender_ip") d) as [i|]; [|discriminate].
  intros [= <-]. simpl. repeat split.
  intros k Hk. rewrite forallb_forall in Ef. specialize (Ef k Hk).
  apply existsb_exists in Ef as [f [Hf He]]. apply str_eqb_eq in He. now subst.
Qed.

Lemma Message_init_error ty d e : Message_init ty d = Raise e -> e = TypeError.
Proof.
  unfold Message_init. destruct (forallb _ _); [|congruence].
  destruct (dict_get _ d); [|congruence]. destruct (dict_get _ d); congruence.
Qed.

Lemma from_json_dict s d :
  json.loads s = Ok (PyDict d) ->
  from_json s =
  match dict_get (lit "type") d with
  | None => Raise KeyError
  | Some t =>
    match MessageType_call t with
    | Ok ty => Message_init ty d
    | Raise e => Raise e
    end
  end.
Proof.
  intros H. unfold from_json, bind. rewrite H. simpl.
  destruct (dict_get (lit "type") d); reflexivity.
Qed.

Lemma from_json_error s e : from_json s = Raise e -> DecodeError e = true.
Proof.
  unfold from_json, bind.
  destruct (json.loads s) as [v|e0] eqn:El.
  2:{ intros [= <-]. apply loads_error in El. now subst. }
  destruct v; simpl; try (intros [= <-]; reflexivity).
  destruct (dict_get _ d) as [t|]; [|intros [= <-]; reflexivity].
  destruct (MessageType_call t) as [ty|e1] eqn:Et.
  - intros Hi. apply Message_init_error in Hi. now subst.
  - intros [= <-]. apply MessageType_call_error in Et. now subst.
Qed.

Lemma from_bytes_error data e : from_bytes data = Raise e -> DecodeError e = true.
Proof.
  unfold from_bytes, bind, bytes_decode_utf8.
  destruct (utf8_decode data); [apply from_json_error|].
  now intros [= <-].
Qed.

Lemma from_bytes_ok data msg :
  from_bytes data = Ok msg ->
  exists s d,
    bytes_decode_utf8 data = Ok s
    /\ json.loads s = Ok (PyDict d)
    /\ dict_get (lit "type") d = Some (PyStr (value (type msg)))
    /\ dict_get (lit "sender_name") d = Some (sender_name msg)
    /\ dict_get (lit "sender_ip") d = Some (sender_ip msg)
    /\ payload msg = match dict_get (lit "payload") d with Some p => p | None => PyNone end
    /\ (forall k, In k (dict_keys d) -> In k field_names).
Proof.
  unfold from_bytes, bind.
  destruct (bytes_decode_utf8 data) as [s|] eqn:Eu; [|discriminate].
  unfold from_json, bind.
  destruct (json.loads s) as [v|] eqn:El; [|discriminate].
  destruct v; try discriminate. simpl.
  destruct (dict_get (lit "type") d) as [t|] eqn:Et; [|discriminate].
  destruct (MessageType_call t) as [ty|] eqn:Ec; [|discriminate].
  intros Hi. apply Message_init_ok in Hi as (Hty & Hn & Hip & Hp & Hk).
  apply MessageType_call_ok in Ec. subst t ty.
  exists s, d. repeat split; assumption.
Qed.

(** C5, amended.  [from_bytes] raises on bytes that are not UTF-8, on text
    that is not JSON, on a structure without [type], [sender_name] or
    [sender_ip], and on a [type] that is not the name of a member; and
    an envelope it returns has a recognized type and the fields of the
    decoded object, with [None] for an absent [payload]. *)
Theorem from_bytes_rejects_malformed :
  forall data : bytes,
    (utf8_decode data = None -> from_bytes data = Raise UnicodeDecodeError)
    /\ (forall s, bytes_decode_utf8 data = Ok s ->
          (forall e, json.loads s = Raise e -> from_bytes data = Raise JSONDecodeError)
          /\ (forall v, json.loads s = Ok v ->
                (has_field (lit "type") v = false
                 \/ has_field (lit "sender_name") v = false
                 \/ has_field (lit "sender_ip") v = false
                 \/ (exists d t, v = PyDict d
                                 /\ dict_get (lit "type") d = Some t
                                 /\ forall ty, t <> PyStr (value ty))) ->
                exists e, from_bytes data = Raise e /\ DecodeError e = true))
    /\ (forall msg, from_bytes data = Ok msg ->
          In (type msg) members
          /\ exists s d,
               bytes_decode_utf8 data = Ok s
               /\ json.loads s = Ok (PyDict d)
               /\ dict_get (lit "type") d = Some (PyStr (value (type msg)))
               /\ dict_get (lit "sender_name") d = Some (sender_name msg)
               /\ dict_get (lit "sender_ip") d = Some (sender_ip msg)
               /\ payload msg = match dict_get (lit "payload") d with
                                | Some p => p
                                | None => PyNone
                                end).
Proof.
  intros data. split; [|split].
  - intros H. unfold from_bytes, bytes_decode_utf8. now rewrite H.
  - intros s Hs. split.
    + intros e He. unfold from_bytes, bind. rewrite Hs. unfold from_json, bind.
      rewrite He. apply loads_error in He. now subst.
    + intros v Hv Hbad.
      destruct (from_bytes data) as [msg|e] eqn:E;
        [|exists e; split; [reflexivity | now apply from_bytes_error in E]].
      exfalso. apply from_bytes_ok in E as (s' & d & Hs' & Hl & Ht & Hn & Hi & _).
      rewrite Hs in Hs'. injection Hs' as <-. rewrite Hv in Hl. injection Hl as ->.
      simpl in Hbad. unfold dict_mem in Hbad. rewrite Ht, Hn, Hi in Hbad.
      destruct Hbad as [H|[H|[H|(d' & t & Hd & Ht' & Hne)]]]; try discriminate.
      injection Hd as <-. rewrite Ht in Ht'. injection Ht' as <-.
      now apply (Hne (type msg)).
  - intros msg Hm. split; [destruct (type msg); simpl; tauto|].
    apply from_bytes_ok in Hm as (s & d & H1 & H2 & H3 & H4 & H5 & H6 & _).
    exists s, d. repeat split; assumption.
Qed.

(** C5 at a byte that is not UTF-8 and at the type name "Text" *)
Lemma from_bytes_rejects_malformed_witness :
  from_bytes [255] = Raise UnicodeDecodeError
  /\ exists e, from_bytes unknown_type_bytes = Raise e /\ DecodeError e = true.
Proof.
  split.
  - apply (proj1 (from_bytes_rejects_malformed [255])). reflexivity.
  - destruct (from_bytes_rejects_malformed unknown_type_bytes) as (_ & H & _).
    destruct (H (json.dumps (PyDict unknown_type_dict))) as (_ & Hv);
      [vm_compute; reflexivity|].
    apply (Hv (PyDict unknown_type_dict)); [vm_compute; reflexivity|].
    right. right. right. exists unknown_type_dict, (PyStr (lit "Text")).
    split; [reflexivity|]. split; [reflexivity|].
    intros ty; destruct ty; discriminate.
Defined.

(** C5 as stated fails for [payload]: an object without it decodes. *)
Lemma missing_payload_is_accepted :
  bytes_decode_utf8 no_payload_bytes = Ok (json.dumps (PyDict no_payload_dict))
  /\ json.loads (json.dumps (PyDict no_payload_dict)) = Ok (PyDict no_payload_dict)
  /\ In (lit "payload") field_names
  /\ dict_mem (lit "payload") no_payload_dict = false
  /\ from_bytes no_payload_bytes
     = Ok {| type := TEXT; sender_name := PyStr alice;
             sender_ip := PyStr []; payload := PyNone |}.
Proof.
  split; [vm_compute; reflexivity|]. split; [vm_compute; reflexivity|].
  split; [right; right; right; left; reflexivity|].
  split; vm_compute; reflexivity.
Qed.

(** C10. [from_bytes] raises on every JSON object that has a key other
    than [type], [sender_name], [sender_ip] and [payload]. *)
Theorem from_bytes_rejects_unknown_field :
  forall (data : bytes) (s : str) (d : dict pyval) (k : str),
    bytes_decode_utf8 data = Ok s ->
    json.loads s = Ok (PyDict d) ->
    In k (dict_keys d) ->
    ~ In k field_names ->
    exists e, from_bytes data = Raise e /\ DecodeError e = true.
Proof.
  intros data s d k Hs Hl Hk Hn.
  destruct (from_bytes data) as [msg|e] eqn:E;
    [|exists e; split; [reflexivity | now apply from_bytes_error in E]].
  exfalso. apply from_bytes_ok in E as (s' & d' & Hs' & Hl' & _ & _ & _ & _ & Hkeys).
  rewrite Hs in Hs'. injection Hs' as <-. rewrite Hl in Hl'. injection Hl' as <-.
  auto.
Qed.

(** C10 at an object with a fifth key [priority] *)
Lemma from_bytes_rejects_unknown_field_witness :
  exists e, from_bytes extra_field_bytes = Raise e /\ DecodeError e = true.
Proof.
  apply (from_bytes_rejects_unknown_field
           extra_field_bytes (json.dumps (PyDict extra_field_dict))
           extra_field_dict (lit "priority")).
  - vm_compute. reflexivity.
  - vm_compute. reflexivity.
  - right. right. right. right. left. reflexivity.
  - intros [H|[H|[H|[H|[]]]]]; discriminate.
Defined.

(** *** The bounds of the scanner are never reached

    Every loop of the scanner returns less text than it was given, so a
    bound above the length of the text is as good as any larger one. *)

Lemma skip_ws_length s : (length (json.skip_ws s) <= length s)%nat.
Proof.
  induction s as [|c s IH]; simpl; [lia|]. destruct (json.is_ws c); simpl; lia.
Qed.

Lemma decode_uXXXX_length s v r :
  json.decode_uXXXX s = Some (v, r) -> length s = (4 + length r)%nat.
Proof.
  unfold json.decode_uXXXX.
  destruct s as [|h1 [|h2 [|h3 [|h4 s]]]]; try discriminate.
  destruct (json.hexval h1), (json.hexval h2), (json.hexval h3), (json.hexval h4);
    try discriminate.
  now intros [= _ <-].
Qed.

Lemma scan_escape_length s c r :
  json.scan_escape s = Some (c, r) -> (length r < length s)%nat.
Proof.
  unfold json.scan_escape. destruct s as [|esc s]; [discriminate|].
  destruct (esc =? 117).
  - destruct (json.decode_uXXXX s) as [[uni r1]|] eqn:E1; [|discriminate].
    apply decode_uXXXX_length in E1.
    assert (Hlone : Some (uni, r1) = Some (c, r) -> (length r < length (esc :: s))%nat).
    { intros [= _ <-]. simpl. lia. }
    destruct (is_high_surrogate uni); [|exact Hlone].
    destruct r1 as [|c1 [|c2 r2]]; try exact Hlone.
    destruct ((c1 =? 92) && (c2 =? 117)); [|exact Hlone].
    destruct (json.decode_uXXXX r2) as [[uni2 r3]|] eqn:E2; [|discriminate].
    apply decode_uXXXX_length in E2.
    destruct (is_low_surrogate uni2); [|exact Hlone].
    intros [= _ <-]. simpl in *. lia.
  - destruct (json.BACKSLASH esc); [|discriminate]. intros [= _ <-]. simpl. lia.
Qed.

Lemma scanstring_loop_length f :
  forall s x r, json.scanstring_loop f s = Some (x, r) -> (length r < length s)%nat.
Proof.
  induction f as [|f IH]; intros s x r; [discriminate|]. cbn [json.scanstring_loop].
  destruct s as [|c s]; [discriminate|].
  destruct (c =? 34); [intros [= _ <-]; simpl; lia|].
  destruct (c =? 92).
  - destruct (json.scan_escape s) as [[ch r']|] eqn:E; [|discriminate].
    apply scan_escape_length in E.
    destruct (json.scanstring_loop f r') as [[cs rest]|] eqn:E2; [|discriminate].
    apply IH in E2. intros [= _ <-]. simpl. lia.
  - destruct (c <=? 31); [discriminate|].
    destruct (json.scanstring_loop f s) as [[cs rest]|] eqn:E2; [|discriminate].
    apply IH in E2. intros [= _ <-]. simpl. lia.
Qed.

Lemma scanstring_loop_fuel f1 :
  forall f2 s,
    (length s < f1)%nat -> (length s < f2)%nat ->
    json.scanstring_loop f1 s = json.scanstring_loop f2 s.
Proof.
  induction f1 as [|f1 IH]; intros f2 s H1 H2; [lia|].
  destruct f2 as [|f2]; [lia|]. cbn [json.scanstring_loop].
  destruct s as [|c s]; [reflexivity|]. simpl in H1, H2.
  destruct (c =? 34); [reflexivity|].
  destruct (c =? 92).
  - destruct (json.scan_escape s) as [[ch r']|] eqn:E; [|reflexivity].
    apply scan_escape_length in E. rewrite (IH f2 r') by lia. reflexivity.
  - destruct (c <=? 31); [reflexivity|]. rewrite (IH f2 s) by lia. reflexivity.
Qed.

Lemma scanstring_length s x r :
  json.scanstring s = Some (x, r) -> (length r < length s)%nat.
Proof. apply scanstring_loop_length. Qed.

Lemma scan_digits_length s :
  (length (snd (json.scan_digits s)) <= length s)%nat.
Proof.
  induction s as [|c s IH]; simpl; [lia|].
  destruct (json.digit_of c); [|simpl; lia].
  destruct (json.scan_digits s); simpl in *. lia.
Qed.

Lemma scan_digits_nonzero c r :
  between 49 c 57 = true ->
  (length (snd (json.scan_digits (c :: r))) <= length r)%nat.
Proof.
  intros Hb. apply between_true in Hb. cbn [json.scan_digits].
  destruct (json.digit_of c) eqn:E.
  - pose proof (scan_digits_length r). destruct (json.scan_digits r). simpl in *. lia.
  - exfalso. unfold json.digit_of in E.
    repeat match type of E with
    | context [c =? ?k] => destruct (Z.eqb_spec c k); [discriminate|]
    end. lia.
Qed.

Lemma skip_frac_length s : (length (json.skip_frac s) <= length s)%nat.
Proof.
  unfold json.skip_frac. destruct s as [|c s]; [lia|].
  destruct (c =? 46); [|lia].
  pose proof (scan_digits_length s).
  destruct (json.scan_digits s) as [[] r]; simpl in *; lia.
Qed.

Lemma skip_exp_length s : (length (json.skip_exp s) <= length s)%nat.
Proof.
  unfold json.skip_exp. destruct s as [|e s]; [lia|].
  destruct ((e =? 101) || (e =? 69)); [|lia].
  set (r1 := match s with
             | [] => s
             | sg :: r' => if (sg =? 43) || (sg =? 45) then r' else s
             end).
  assert (H1 : (length r1 <= length s)%nat).
  { unfold r1. destruct s as [|sg s']; [lia|]. destruct ((sg =? 43) || (sg =? 45)); simpl; lia. }
  pose proof (scan_digits_length r1).
  destruct (json.scan_digits r1) as [[] r]; simpl in *; lia.
Qed.

Lemma match_number_length s v r :
  json.match_number s = Some (v, r) -> (length r < length s)%nat.
Proof.
  unfold json.match_number.
  set (p := match s with
            | [] => (false, s)
            | c :: r0 => if c =? 45 then (true, r0) else (false, s)
            end).
  assert (Hp : (length (snd p) <= length s)%nat).
  { unfold p. destruct s as [|c r0]; [simpl; lia|]. destruct (c =? 45); simpl; lia. }
  destruct p as [neg s1]. simpl in Hp.
  destruct s1 as [|c r0]; [discriminate|].
  cbv zeta.
  match goal with
  | |- match ?X with _ => _ end = _ -> _ => destruct X as [[ds s2]|] eqn:Ei; [|discriminate]
  end.
  assert (Hi : (length s2 < length (c :: r0))%nat).
  { destruct (c =? 48).
    - injection Ei as _ <-. simpl. lia.
    - destruct (between 49 c 57) eqn:Eb; [|discriminate].
      pose proof (scan_digits_nonzero c r0 Eb).
      destruct (json.scan_digits (c :: r0)) as [d rest]. injection Ei as _ <-.
      simpl in *. lia. }
  pose proof (skip_frac_length s2). pose proof (skip_exp_length (json.skip_frac s2)).
  destruct (Nat.ltb _ _); intros [= _ <-]; simpl in *; lia.
Qed.

Lemma strip_prefix_length p s r :
  json.strip_prefix p s = Some r -> length s = (length p + length r)%nat.
Proof.
  revert s. induction p as [|x p IH]; intros s; simpl; [now intros [= ->]|].
  destruct s as [|y s]; [discriminate|]. destruct (x =? y); [|discriminate].
  intros H. apply IH in H. simpl. lia.
Qed.

Section Loops.
Variables scanA scanB : str -> option (pyval * str).

Lemma JSONArray_loop_length n :
  forall s acc v r,
    consumes scanA (length s) ->
    json.JSONArray_loop scanA n s acc = Some (v, r) -> (length r < length s)%nat.
Proof.
  induction n as [|n IH]; intros s acc v r Hc; [discriminate|].
  cbn [json.JSONArray_loop].
  destruct (scanA s) as [[value s1]|] eqn:E; [|discriminate].
  apply Hc in E; [|lia].
  pose proof (skip_ws_length s1).
  destruct (json.skip_ws s1) as [|c s2] eqn:E1; [discriminate|]. cbn [List.length] in *.
  destruct (c =? 93); [intros [= _ <-]; lia|].
  destruct (c =? 44); [|discriminate].
  intros H1. apply IH in H1.
  - pose proof (skip_ws_length s2). lia.
  - intros s' v' r' Hs'. apply Hc. pose proof (skip_ws_length s2). lia.
Qed.

Lemma JSONArray_loop_fuel n1 :
  forall n2 s acc,
    consumes scanA (length s) ->
    agree scanA scanB (length s) ->
    (length s < n1)%nat -> (length s < n2)%nat ->
    json.JSONArray_loop scanA n1 s acc = json.JSONArray_loop scanB n2 s acc.
Proof.
  induction n1 as [|n1 IH]; intros n2 s acc Hc Ha H1 H2; [lia|].
  destruct n2 as [|n2]; [lia|]. cbn [json.JSONArray_loop].
  rewrite <- (Ha s) by lia.
  destruct (scanA s) as [[value s1]|] eqn:E; [|reflexivity].
  apply Hc in E; [|lia].
  pose proof (skip_ws_length s1).
  destruct (json.skip_ws s1) as [|c s2] eqn:E1; [reflexivity|]. cbn [List.length] in *.
  destruct (c =? 93); [reflexivity|].
  destruct (c =? 44); [|reflexivity].
  pose proof (skip_ws_length s2).
  apply IH; try lia.
  - intros s' v' r' Hs'. apply Hc. lia.
  - intros s' Hs'. apply Ha. lia.
Qed.

Lemma JSONObject_loop_length n :
  forall s pairs v r,
    consumes scanA (length s) ->
    json.JSONObject_loop scanA n s pairs = Some (v, r) -> (length r < length s)%nat.
Proof.
  induction n as [|n IH]; intros s pairs v r Hc; [discriminate|].
  cbn [json.JSONObject_loop].
  destruct (json.scanstring s) as [[key s1]|] eqn:Ek; [|discriminate].
  apply scanstring_length in Ek.
  pose proof (skip_ws_length s1).
  destruct (json.skip_ws s1) as [|c s2] eqn:E1; [discriminate|]. cbn [List.length] in *.
  destruct (c =? 58); [|discriminate].
  pose proof (skip_ws_length s2).
  destruct (scanA (json.skip_ws s2)) as [[value s3]|] eqn:E; [|discriminate].
  apply Hc in E; [|lia].
  pose proof (skip_ws_length s3).
  destruct (json.skip_ws s3) as [|c' s4] eqn:E3; [discriminate|]. cbn [List.length] in *.
  destruct (c' =? 125); [intros [= _ <-]; lia|].
  destruct (c' =? 44); [|discriminate].
  pose proof (skip_ws_length s4).
  destruct (json.skip_ws s4) as [|q s5] eqn:E4; [discriminate|]. cbn [List.length] in *.
  destruct (q =? 34); [|discriminate].
  intros H5. apply IH in H5; [lia|].
  intros s' v' r' Hs'. apply Hc. lia.
Qed.

Lemma JSONObject_loop_fuel n1 :
  forall n2 s pairs,
    consumes scanA (length s) ->
    agree scanA scanB (length s) ->
    (length s < n1)%nat -> (length s < n2)%nat ->
    json.JSONObject_loop scanA n1 s pairs = json.JSONObject_loop scanB n2 s pairs.
Proof.
  induction n1 as [|n1 IH]; intros n2 s pairs Hc Ha H1 H2; [lia|].
  destruct n2 as [|n2]; [lia|]. cbn [json.JSONObject_loop].
  destruct (json.scanstring s) as [[key s1]|] eqn:Ek; [|reflexivity].
  apply scanstring_length in Ek.
  pose proof (skip_ws_length s1).
  destruct (json.skip_ws s1) as [|c s2] eqn:E1; [reflexivity|]. cbn [List.length] in *.
  destruct (c =? 58); [|reflexivity].
  pose proof (skip_ws_length s2).
  rewrite <- (Ha (json.skip_ws s2)) by lia.
  destruct (scanA (json.skip_ws s2)) as [[value s3]|] eqn:E; [|reflexivity].
  apply Hc in E; [|lia].
  pose proof (skip_ws_length s3).
  destruct (json.skip_ws s3) as [|c' s4] eqn:E3; [reflexivity|]. cbn [List.length] in *.
  destruct (c' =? 125); [reflexivity|].
  destruct (c' =? 44); [|reflexivity].
  pose proof (skip_ws_length s4).
  destruct (json.skip_ws s4) as [|q s5] eqn:E4; [reflexivity|]. cbn [List.length] in *.
  destruct (q =? 34); [|reflexivity].
  apply IH; try lia.
  - intros s' v' r' Hs'. apply Hc. lia.
  - intros s' Hs'. apply Ha. lia.
Qed.

Lemma JSONArray_length s v r :
  consumes scanA (length s) ->
  json.JSONArray scanA s = Some (v, r) -> (length r <= length s)%nat.
Proof.
  intros Hc. unfold json.JSONArray.
  pose proof (skip_ws_length s).
  destruct (json.skip_ws s) as [|c s'] eqn:E; [discriminate|]. cbn [List.length] in *.
  destruct (c =? 93); [intros [= _ <-]; lia|].
  intros H1. apply JSONArray_loop_length in H1; [cbn [List.length] in *; lia|].
  intros s0 v0 r0 Hs0. apply Hc. cbn [List.length] in *. lia.
Qed.

Lemma JSONArray_agree s :
  consumes scanA (length s) ->
  agree scanA scanB (length s) ->
  json.JSONArray scanA s = json.JSONArray scanB s.
Proof.
  intros Hc Ha. unfold json.JSONArray.
  pose proof (skip_ws_length s).
  destruct (json.skip_ws s) as [|c s'] eqn:E; [reflexivity|]. cbn [List.length] in *.
  destruct (c =? 93); [reflexivity|].
  apply JSONArray_loop_fuel; cbn [List.length]; try lia.
  - intros s0 v0 r0 Hs0. apply Hc. cbn [List.length] in *. lia.
  - intros s0 Hs0. apply Ha. cbn [List.length] in *. lia.
Qed.

Lemma JSONObject_length s v r :
  consumes scanA (length s) ->
  json.JSONObject scanA s = Some (v, r) -> (length r <= length s)%nat.
Proof.
  intros Hc. unfold json.JSONObject.
  pose proof (skip_ws_length s).
  destruct (json.skip_ws s) as [|c s'] eqn:E; [discriminate|]. cbn [List.length] in *.
  destruct (c =? 125); [intros [= _ <-]; lia|].
  destruct (c =? 34); [|discriminate].
  intros H1. apply JSONObject_loop_length in H1; [lia|].
  intros s0 v0 r0 Hs0. apply Hc. lia.
Qed.

Lemma JSONObject_agree s :
  consumes scanA (length s) ->
  agree scanA scanB (length s) ->
  json.JSONObject scanA s = json.JSONObject scanB s.
Proof.
  intros Hc Ha. unfold json.JSONObject.
  pose proof (skip_ws_length s).
  destruct (json.skip_ws s) as [|c s'] eqn:E; [reflexivity|]. cbn [List.length] in *.
  destruct (c =? 125); [reflexivity|].
  destruct (c =? 34); [|reflexivity].
  apply JSONObject_loop_fuel; try lia.
  - intros s0 v0 r0 Hs0. apply Hc. lia.
  - intros s0 Hs0. apply Ha. lia.
Qed.
End Loops.

Lemma scan_once_length f :
  forall s v r, json.scan_once f s = Some (v, r) -> (length r < length s)%nat.
Proof.
  induction f as [|f IH]; intros s v r; [discriminate|]. cbn [json.scan_once].
  destruct s as [|c s]; [discriminate|].
  destruct (c =? 34).
  { destruct (json.scanstring s) as [[x rest]|] eqn:E; [|discriminate].
    apply scanstring_length in E. intros [= _ <-]. simpl. lia. }
  destruct (c =? 123).
  { intros H. apply JSONObject_length in H; [simpl; lia|].
    intros s0 v0 r0 _. apply IH. }
  destruct (c =? 91).
  { intros H. apply JSONArray_length in H; [simpl; lia|].
    intros s0 v0 r0 _. apply IH. }
  repeat match goal with
  | |- match json.strip_prefix ?p ?t with _ => _ end = _ -> _ =>
    let E := fresh "E" in
    destruct (json.strip_prefix p t) as [?rest|] eqn:E;
    [apply strip_prefix_length in E; intros [= _ <-]; simpl in *; lia|]
  | |- match json.match_number ?t with _ => _ end = _ -> _ =>
    let E := fresh "E" in
    destruct (json.match_number t) as [[? ?]|] eqn:E;
    [apply match_number_length in E; intros [= _ <-]; simpl in *; lia|]
  end.
  discriminate.
Qed.

(** The bound on the nesting depth is never reached: any bound above
    the length of the text gives the same result. *)
Theorem scan_once_fuel f1 :
  forall f2 s,
    (length s < f1)%nat -> (length s < f2)%nat ->
    json.scan_once f1 s = json.scan_once f2 s.
Proof.
  induction f1 as [|f1 IH]; intros f2 s H1 H2; [lia|].
  destruct f2 as [|f2]; [lia|]. cbn [json.scan_once].
  destruct s as [|c s]; [reflexivity|]. simpl in H1, H2.
  destruct (c =? 34); [reflexivity|].
  destruct (c =? 123).
  { apply JSONObject_agree.
    - intros s0 v0 r0 _. apply scan_once_length.
    - intros s0 Hs0. apply IH; lia. }
  destruct (c =? 91).
  { apply JSONArray_agree.
    - intros s0 v0 r0 _. apply scan_once_length.
    - intros s0 Hs0. apply IH; lia. }
  reflexivity.
Qed.

(** *** What [json.dumps] writes, [json.loads] reads back *)

Lemma lor_disjoint_add a b k :
  0 <= k -> 0 <= b < 2 ^ k -> Z.lor (a * 2 ^ k) b = a * 2 ^ k + b.
Proof.
  intros Hk Hb. pose proof (Z.add_lor_land (a * 2 ^ k) b) as Hadd.
  assert (H0 : Z.land (a * 2 ^ k) b = 0); [|rewrite H0 in Hadd; lia].
  apply Z.bits_inj'. intros i Hi. rewrite Z.land_spec, Z.bits_0.
  destruct (Z.lt_ge_cases i k) as [Hlt|Hge].
  - rewrite Z.mul_pow2_bits_low by assumption. reflexivity.
  - rewrite andb_comm.
    destruct (Z.eq_dec b 0) as [->|Hnz]; [now rewrite Z.bits_0|].
    assert (Hlog : Z.log2 b < i) by (apply Z.log2_lt_pow2; [lia|];
      apply Z.lt_le_trans with (2 ^ k); [lia | apply Z.pow_le_mono_r; lia]).
    rewrite (Z.bits_above_log2 b i) by lia. reflexivity.
Qed.

Lemma hexval_hexdigit d : 0 <= d < 16 -> json.hexval (json.hexdigit d) = Some d.
Proof.
  intros Hd. unfold json.hexval, json.hexdigit.
  destruct (d <? 10) eqn:E; zbool.
  - assert (H : between 48 (48 + d) 57 = true) by (apply between_true; lia).
    rewrite H. f_equal. lia.
  - assert (H1 : between 48 (87 + d) 57 = false) by (apply between_false; lia).
    assert (H2 : between 97 (87 + d) 102 = true) by (apply between_true; lia).
    rewrite H1, H2. f_equal. lia.
Qed.

Lemma decode_u_escape n r :
  0 <= n < 0x10000 ->
  exists h1 h2 h3 h4,
    json.u_escape n = [92; 117; h1; h2; h3; h4]
    /\ json.decode_uXXXX (h1 :: h2 :: h3 :: h4 :: r) = Some (n, r).
Proof.
  intros Hn. unfold json.u_escape. do 4 eexists. split; [reflexivity|].
  unfold json.decode_uXXXX.
  rewrite !hexval_hexdigit.
  - f_equal. f_equal. Z.div_mod_to_equations. lia.
  - Z.div_mod_to_equations. lia.
  - Z.div_mod_to_equations. lia.
  - Z.div_mod_to_equations. lia.
  - Z.div_mod_to_equations. lia.
Qed.

Lemma surrogate_pair_values c :
  0x10000 <= c <= 0x10FFFF ->
  let n := c - 0x10000 in
  let s1 := Z.lor 0xD800 (Z.land (Z.shiftr n 10) 0x3FF) in
  let s2 := Z.lor 0xDC00 (Z.land n 0x3FF) in
  s1 = 0xD800 + n / 1024 /\ s2 = 0xDC00 + n mod 1024
  /\ 0x10000 + Z.lor (Z.shiftl (s1 - 0xD800) 10) (s2 - 0xDC00) = c.
Proof.
  intros Hc n s1 s2.
  assert (Hn : 0 <= n < 0x100000) by (unfold n; lia).
  assert (H1 : s1 = 0xD800 + n / 1024).
  { unfold s1. rewrite Z.shiftr_div_pow2 by lia.
    change 0x3FF with (Z.ones 10). rewrite Z.land_ones by lia.
    change (2 ^ 10) with 1024.
    rewrite (Z.mod_small (n / 1024)) by (Z.div_mod_to_equations; lia).
    change 0xD800 with (54 * 2 ^ 10). apply lor_disjoint_add; [lia|].
    change (2 ^ 10) with 1024. Z.div_mod_to_equations; lia. }
  assert (H2 : s2 = 0xDC00 + n mod 1024).
  { unfold s2. change 0x3FF with (Z.ones 10). rewrite Z.land_ones by lia.
    change (2 ^ 10) with 1024.
    change 0xDC00 with (55 * 2 ^ 10). apply lor_disjoint_add; [lia|].
    change (2 ^ 10) with 1024. Z.div_mod_to_equations; lia. }
  split; [assumption|]. split; [assumption|].
  rewrite H1, H2. rewrite Z.shiftl_mul_pow2 by lia.
  replace (0xD800 + n / 1024 - 0xD800) with (n / 1024) by lia.
  replace (0xDC00 + n mod 1024 - 0xDC00) with (n mod 1024) by lia.
  rewrite lor_disjoint_add; [|lia|change (2 ^ 10) with 1024; Z.div_mod_to_equations; lia].
  change (2 ^ 10) with 1024. unfold n in *. Z.div_mod_to_equations. lia.
Qed.

Lemma escape_char_shape c :
  code_point c = true -> escape_shape c (json.escape_char c).
Proof.
  intros Hc. unfold code_point in Hc. unfold json.escape_char.
  destruct (c =? 34) eqn:E1; zbool; [subst; now apply shape_simple|].
  destruct (c =? 92) eqn:E2; zbool; [subst; now apply shape_simple|].
  destruct (c =? 8) eqn:E3; zbool; [subst; now apply shape_simple|].
  destruct (c =? 12) eqn:E4; zbool; [subst; now apply shape_simple|].
  destruct (c =? 10) eqn:E5; zbool; [subst; now apply shape_simple|].
  destruct (c =? 13) eqn:E6; zbool; [subst; now apply shape_simple|].
  destruct (c =? 9) eqn:E7; zbool; [subst; now apply shape_simple|].
  destruct (between 32 c 126) eqn:E8; zbool; [apply shape_plain; lia|].
  destruct (c <? 65536) eqn:E9; zbool.
  - destruct (decode_u_escape c [] ltac:(lia)) as (h1 & h2 & h3 & h4 & Hu & _).
    rewrite Hu. apply shape_unicode; [lia|]. intros r.
    destruct (decode_u_escape c r ltac:(lia)) as (h1' & h2' & h3' & h4' & Hu' & Hd).
    rewrite Hu in Hu'. injection Hu' as <- <- <- <-. exact Hd.
  - cbv zeta.
    destruct (surrogate_pair_values c ltac:(lia)) as (H1 & H2 & H3). cbv zeta in *.
    set (n := c - 65536) in *.
    set (s1 := Z.lor 55296 _) in *. set (s2 := Z.lor 56320 _) in *.
    assert (Hs1 : 0xD800 <= s1 <= 0xDBFF)
      by (rewrite H1; unfold n; Z.div_mod_to_equations; lia).
    assert (Hs2 : 0xDC00 <= s2 <= 0xDFFF)
      by (rewrite H2; unfold n; Z.div_mod_to_equations; lia).
    destruct (decode_u_escape s1 [] ltac:(lia)) as (h1 & h2 & h3 & h4 & Hu1 & _).
    destruct (decode_u_escape s2 [] ltac:(lia)) as (k1 & k2 & k3 & k4 & Hu2 & _).
    rewrite Hu1, Hu2. simpl List.app.
    apply (shape_pair c s1 s2); try assumption.
    + now apply between_true.
    + now apply between_true.
    + intros r.
      destruct (decode_u_escape s1 r ltac:(lia)) as (h1' & h2' & h3' & h4' & Hu' & Hd).
      rewrite Hu1 in Hu'. injection Hu' as <- <- <- <-. exact Hd.
    + intros r.
      destruct (decode_u_escape s2 r ltac:(lia)) as (h1' & h2' & h3' & h4' & Hu' & Hd).
      rewrite Hu2 in Hu'. injection Hu' as <- <- <- <-. exact Hd.
Qed.

Lemma scanstring_loop_char c enc next f :
  escape_shape c enc ->
  (is_high_surrogate c = true -> no_low_escape next) ->
  json.scanstring_loop (S f) (enc ++ next)
  = match json.scanstring_loop f next with
    | Some (cs, rest) => Some (c :: cs, rest)
    | None => None
    end.
Proof.
  intros Hs Hnext. destruct Hs as [x Hx Hb| H1 H2 H3 | h1 h2 h3 h4 Hc Hd
                                   | s1 s2 h1 h2 h3 h4 k1 k2 k3 k4 Hh Hl Hv Hd1 Hd2].
  - cbn [List.app json.scanstring_loop]. change (92 =? 34) with false.
    change (92 =? 92) with true. cbv iota. unfold json.scan_escape.
    apply Z.eqb_neq in Hx. rewrite Hx, Hb. reflexivity.
  - cbn [List.app json.scanstring_loop].
    apply Z.eqb_neq in H1, H2. rewrite H1, H2.
    assert (H4 : (c <=? 31) = false) by (apply Z.leb_gt; lia). rewrite H4.
    reflexivity.
  - cbn [List.app json.scanstring_loop]. change (92 =? 34) with false.
    change (92 =? 92) with true. cbv iota. unfold json.scan_escape.
    change (117 =? 117) with true. cbv iota. rewrite Hd.
    destruct (is_high_surrogate c) eqn:Eh; [|reflexivity].
    specialize (Hnext eq_refl). unfold no_low_escape in Hnext.
    destruct next as [|c1 [|c2 r2]]; try reflexivity.
    destruct ((c1 =? 92) && (c2 =? 117)) eqn:E; [|reflexivity].
    destruct (Hnext eq_refl) as (uni2 & r3 & Hd2 & Hlow). rewrite Hd2, Hlow.
    reflexivity.
  - cbn [List.app json.scanstring_loop]. change (92 =? 34) with false.
    change (92 =? 92) with true. cbv iota. unfold json.scan_escape.
    change (117 =? 117) with true. cbv iota. rewrite Hd1, Hh.
    change (92 =? 92) with true. change (117 =? 117) with true. cbv iota.
    simpl andb. cbv iota. rewrite Hd2, Hl, Hv. reflexivity.
Qed.

Lemma text_ok_cons c s :
  text_ok (c :: s) = true ->
  code_point c = true /\ (is_high_surrogate c = true -> head_low s = false)
  /\ text_ok s = true.
Proof.
  simpl. rewrite !andb_true_iff, negb_true_iff, andb_false_iff.
  intros [[H1 H2] H3]. repeat split; try assumption.
  intros Hh. destruct H2; congruence.
Qed.

Lemma no_low_escape_text s rest :
  text_ok s = true -> head_low s = false ->
  no_low_escape (flat_map json.escape_char s ++ 34 :: rest).
Proof.
  destruct s as [|c s]; intros Hok Hhead.
  - destruct rest; simpl; [exact I | discriminate].
  - apply text_ok_cons in Hok as (Hc & _ & _). simpl in Hhead.
    cbn [flat_map]. rewrite <- app_assoc.
    pose proof (escape_char_shape c Hc) as Hs.
    destruct (flat_map json.escape_char s ++ 34 :: rest) as [|y ys] eqn:E.
    { destruct (flat_map json.escape_char s); discriminate. }
    inversion Hs as [x Hx Hb Heq| H1 H2 H3 Heq | h1 h2 h3 h4 Hcc Hd Heq
                     | s1 s2 h1 h2 h3 h4 k1 k2 k3 k4 Hh Hl Hv Hd1 Hd2 Heq];
      cbn [List.app no_low_escape].
    + apply Z.eqb_neq in Hx. rewrite Hx, andb_false_r. discriminate.
    + apply Z.eqb_neq in H2. rewrite H2. simpl. discriminate.
    + intros _. exists c, (y :: ys). split; [apply Hd | assumption].
    + intros _. eexists s1, _. split; [apply Hd1|].
      unfold is_high_surrogate, is_low_surrogate in *. zbool. apply between_false. lia.
Qed.

Lemma escape_shape_length c enc : escape_shape c enc -> (0 < length enc)%nat.
Proof. destruct 1; simpl; lia. Qed.

Lemma scanstring_loop_encode s :
  forall fuel rest,
    text_ok s = true ->
    (length (flat_map json.escape_char s) < fuel)%nat ->
    json.scanstring_loop fuel (flat_map json.escape_char s ++ 34 :: rest)
    = Some (s, rest).
Proof.
  induction s as [|c s IH]; intros fuel rest Hok Hf.
  - destruct fuel; [simpl in Hf; lia|]. reflexivity.
  - pose proof Hok as Hok0.
    apply text_ok_cons in Hok as (Hc & Hhigh & Hok').
    pose proof (escape_char_shape c Hc) as Hs.
    pose proof (escape_shape_length _ _ Hs) as Hlen.
    cbn [flat_map] in *. rewrite length_app in Hf.
    destruct fuel as [|fuel]; [lia|].
    rewrite <- app_assoc.
    rewrite (scanstring_loop_char c _ _ fuel Hs).
    + rewrite IH by (assumption || lia). reflexivity.
    + intros Hh. apply no_low_escape_text; auto.
Qed.

Lemma scanstring_encode s rest :
  text_ok s = true ->
  json.scanstring (flat_map json.escape_char s ++ 34 :: rest) = Some (s, rest).
Proof.
  intros Hok. unfold json.scanstring. apply scanstring_loop_encode; [assumption|].
  rewrite length_app. simpl. lia.
Qed.

Lemma delimited_head rest :
  delimited rest = true ->
  match rest with
  | [] => True
  | c :: _ => json.digit_of c = None /\ c <> 46 /\ c <> 101 /\ c <> 69
  end.
Proof.
  destruct rest as [|c r]; simpl; [auto|].
  rewrite !orb_true_iff, !Z.eqb_eq. intros [[->| ->]| ->]; repeat split; discriminate.
Qed.

Lemma scan_digits_stop rest :
  delimited rest = true -> json.scan_digits rest = (Nil, rest).
Proof.
  intros H. apply delimited_head in H. destruct rest as [|c r]; [reflexivity|].
  destruct H as (Hd & _). simpl. now rewrite Hd.
Qed.

Lemma scan_digits_chars d rest :
  delimited rest = true ->
  json.scan_digits (json.uint_chars d ++ rest) = (d, rest).
Proof.
  intros H. induction d; cbn [json.uint_chars]; simpl List.app;
    [now apply scan_digits_stop | ..];
    cbn [json.scan_digits]; simpl json.digit_of; cbv iota; rewrite IHd; reflexivity.
Qed.

Lemma skip_frac_stop rest : delimited rest = true -> json.skip_frac rest = rest.
Proof.
  intros H. apply delimited_head in H. destruct rest as [|c r]; [reflexivity|].
  destruct H as (_ & H & _). apply Z.eqb_neq in H. simpl. now rewrite H.
Qed.

Lemma skip_exp_stop rest : delimited rest = true -> json.skip_exp rest = rest.
Proof.
  intros H. apply delimited_head in H. destruct rest as [|c r]; [reflexivity|].
  destruct H as (_ & _ & H1 & H2). apply Z.eqb_neq in H1, H2.
  unfold json.skip_exp. now rewrite H1, H2.
Qed.

Lemma to_uint_unorm p : Pos.to_uint p = unorm (Pos.to_uint p).
Proof.
  rewrite <- DecimalPos.Unsigned.to_of, DecimalPos.Unsigned.of_to. reflexivity.
Qed.

Lemma to_uint_head p :
  exists c tl,
    json.uint_chars (Pos.to_uint p) = c :: tl /\ 49 <= c <= 57.
Proof.
  pose proof (DecimalPos.Unsigned.to_uint_nonnil p) as Hnil.
  pose proof (DecimalPos.Unsigned.to_uint_nonzero p) as Hnz.
  pose proof (to_uint_unorm p) as Hu.
  destruct (Pos.to_uint p) as [|d|d|d|d|d|d|d|d|d|d] eqn:E;
    [contradiction | | | | | | | | | |];
    try (eexists _, _; split; [reflexivity | lia]).
  exfalso. rewrite DecimalFacts.unorm_D0 in Hu. unfold unorm in Hu.
  destruct (nzhead d) eqn:En; try discriminate.
  - injection Hu as ->. now apply Hnz.
  - now apply nzhead_nonzero in En.
Qed.

Lemma match_number_digits (neg : bool) c tl d rest :
  json.uint_chars d = c :: tl ->
  49 <= c <= 57 ->
  delimited rest = true ->
  json.match_number ((if neg then [45] else nil) ++ json.uint_chars d ++ rest)
  = Some (PyInt (Z.of_int (if neg then Neg d else Pos d)), rest).
Proof.
  intros Hd Hc Hrest. unfold json.match_number.
  assert (H45 : (c =? 45) = false) by (apply Z.eqb_neq; lia).
  assert (H48 : (c =? 48) = false) by (apply Z.eqb_neq; lia).
  assert (Hb : between 49 c 57 = true) by (apply between_true; lia).
  destruct neg.
  - simpl List.app. cbv beta iota zeta. rewrite Z.eqb_refl. cbv beta iota zeta.
    rewrite Hd at 1. simpl List.app. cbv beta iota zeta. rewrite H48, Hb.
    rewrite scan_digits_chars by assumption.
    rewrite skip_frac_stop, skip_exp_stop by assumption.
    rewrite Nat.ltb_irrefl. reflexivity.
  - simpl List.app. rewrite Hd at 1. simpl List.app. cbv beta iota zeta.
    rewrite H45. cbv beta iota zeta.
    rewrite Hd at 1. simpl List.app. cbv beta iota zeta. rewrite H48, Hb.
    rewrite scan_digits_chars by assumption.
    rewrite skip_frac_stop, skip_exp_stop by assumption.
    rewrite Nat.ltb_irrefl. reflexivity.
Qed.

Lemma match_number_int z rest :
  delimited rest = true ->
  json.match_number (json.int_repr z ++ rest) = Some (PyInt z, rest).
Proof.
  intros Hrest. unfold json.int_repr.
  pose proof (DecimalZ.of_to z) as Hz.
  destruct z as [|p|p]; simpl Z.to_int in *.
  - unfold json.match_number. cbn [json.uint_chars]. simpl List.app.
    cbv beta iota zeta. change (48 =? 45) with false. cbv beta iota zeta.
    change (48 =? 48) with true. cbv beta iota zeta.
    rewrite skip_frac_stop, skip_exp_stop by assumption.
    rewrite Nat.ltb_irrefl. reflexivity.
  - destruct (to_uint_head p) as (c & tl & Hd & Hc).
    rewrite <- Hz.
    exact (match_number_digits false c tl (Pos.to_uint p) rest Hd Hc Hrest).
  - destruct (to_uint_head p) as (c & tl & Hd & Hc).
    rewrite <- Hz.
    exact (match_number_digits true c tl (Pos.to_uint p) rest Hd Hc Hrest).
Qed.

Lemma value_start_not_ws c : value_start c = true -> json.is_ws c = false.
Proof.
  unfold value_start, json.is_ws. rewrite !orb_true_iff, !Z.eqb_eq, between_true.
  intros H. rewrite !orb_false_iff, !Z.eqb_neq. lia.
Qed.

Lemma skip_ws_start c r : value_start c = true -> json.skip_ws (c :: r) = c :: r.
Proof. intros H. simpl. now rewrite (value_start_not_ws c H). Qed.

Lemma int_repr_head z :
  exists c r, json.int_repr z = c :: r /\ (c = 45 \/ 48 <= c <= 57).
Proof.
  unfold json.int_repr. destruct z as [|p|p]; simpl Z.to_int.
  - exists 48, []. split; [reflexivity | lia].
  - destruct (to_uint_head p) as (c & tl & Hd & Hc). exists c, tl. split; [assumption | lia].
  - exists 45, (json.uint_chars (Pos.to_uint p)). split; [reflexivity | lia].
Qed.

Lemma dumps_head v :
  json_representable v = true ->
  exists c r, json.dumps v = c :: r /\ value_start c = true.
Proof.
  destruct v as [|b|z|x|s|l|d]; simpl; intros H; try discriminate.
  - eexists _, _. split; reflexivity.
  - destruct b; eexists _, _; split; reflexivity.
  - destruct (int_repr_head z) as (c & r & Hr & Hc). exists c, r. split; [assumption|].
    unfold value_start. rewrite !orb_true_iff, !Z.eqb_eq, between_true. lia.
  - eexists _, _. split; reflexivity.
  - eexists _, _. split; reflexivity.
  - eexists _, _. split; reflexivity.
Qed.

Lemma skip_ws_dumps v rest :
  json_representable v = true ->
  json.skip_ws (json.dumps v ++ rest) = json.dumps v ++ rest.
Proof.
  intros H. destruct (dumps_head v H) as (c & r & -> & Hc).
  simpl List.app. now apply skip_ws_start.
Qed.

Lemma strip_prefix_head x p c r :
  x <> c -> json.strip_prefix (x :: p) (c :: r) = None.
Proof. intros H. simpl. apply Z.eqb_neq in H. now rewrite H. Qed.

Lemma scan_once_number f c r res :
  c = 45 \/ 48 <= c <= 57 ->
  json.match_number (c :: r) = Some res ->
  json.scan_once (S f) (c :: r) = Some res.
Proof.
  intros Hc Hm. cbn [json.scan_once].
  assert (H1 : (c =? 34) = false) by (apply Z.eqb_neq; lia).
  assert (H2 : (c =? 123) = false) by (apply Z.eqb_neq; lia).
  assert (H3 : (c =? 91) = false) by (apply Z.eqb_neq; lia).
  rewrite H1, H2, H3.
  change (lit "null") with (110 :: lit "ull").
  change (lit "true") with (116 :: lit "rue").
  change (lit "false") with (102 :: lit "alse").
  rewrite !strip_prefix_head by lia. now rewrite Hm.
Qed.

Lemma scan_once_int f z rest :
  delimited rest = true ->
  json.scan_once (S f) (json.int_repr z ++ rest) = Some (PyInt z, rest).
Proof.
  intros Hrest. pose proof (match_number_int z rest Hrest) as Hm.
  destruct (int_repr_head z) as (c & r & Hr & Hc). rewrite Hr in *.
  simpl List.app in *. now apply scan_once_number.
Qed.

Lemma scan_once_str f s rest :
  text_ok s = true ->
  json.scan_once (S f) (json.encode_basestring_ascii s ++ rest) = Some (PyStr s, rest).
Proof.
  intros Hs. unfold json.encode_basestring_ascii. simpl List.app.
  cbn [json.scan_once]. rewrite Z.eqb_refl.
  rewrite <- app_assoc. simpl List.app. now rewrite scanstring_encode.
Qed.

Lemma join_arr_tail x l rest :
  json.join (lit ", ") (List.map json.dumps (x :: l)) ++ 93 :: rest = arr_tail x l rest.
Proof.
  revert x. induction l as [|y l IH]; intros x.
  - reflexivity.
  - change (json.join (lit ", ") (List.map json.dumps (x :: y :: l)))
      with (json.dumps x ++ lit ", " ++ json.join (lit ", ") (List.map json.dumps (y :: l))).
    rewrite <- !app_assoc. cbn [arr_tail]. f_equal.
    rewrite <- IH. reflexivity.
Qed.

Lemma join_obj_tail k v d rest :
  json.join (lit ", ") (List.map item ((k, v) :: d)) ++ 125 :: rest
  = 34 :: obj_tail k v d rest.
Proof.
  revert k v. induction d as [|[k' v'] d IH]; intros k v.
  - cbn [List.map json.join obj_tail]. unfold item, json.encode_basestring_ascii.
    cbn [fst snd]. change (lit ": ") with [58; 32]. simpl List.app.
    rewrite <- !app_assoc. reflexivity.
  - change (json.join (lit ", ") (List.map item ((k, v) :: (k', v') :: d)))
      with (item (k, v) ++ lit ", " ++ json.join (lit ", ") (List.map item ((k', v') :: d))).
    rewrite <- !app_assoc. rewrite IH. cbn [obj_tail fst snd].
    unfold item at 1, json.encode_basestring_ascii. cbn [fst snd].
    change (lit ": ") with [58; 32]. change (lit ", ") with [44; 32].
    simpl List.app. rewrite <- !app_assoc. reflexivity.
Qed.

Lemma skip_ws_nonws c r : json.is_ws c = false -> json.skip_ws (c :: r) = c :: r.
Proof. intros H. simpl. now rewrite H. Qed.

Lemma skip_ws_space r : json.skip_ws (32 :: r) = json.skip_ws r.
Proof. reflexivity. Qed.

Lemma skip_ws_arr_tail x l rest :
  json_representable x = true ->
  json.skip_ws (arr_tail x l rest) = arr_tail x l rest.
Proof. intros H. destruct l; cbn [arr_tail]; now apply skip_ws_dumps. Qed.

Lemma JSONArray_loop_dumps scan l :
  forall x n acc rest,
    Forall (reads_back scan) (x :: l) ->
    (length (x :: l) <= n)%nat ->
    json.JSONArray_loop scan n (arr_tail x l rest) acc
    = Some (PyList (acc ++ x :: l), rest).
Proof.
  induction l as [|y l IH]; intros x n acc rest Hall Hn;
    inversion Hall as [|? ? [Hx Hscan] Hall']; subst;
    (destruct n as [|n]; [simpl in Hn; lia|]);
    cbn [json.JSONArray_loop arr_tail].
  - rewrite Hscan by reflexivity. cbv beta iota zeta.
    rewrite skip_ws_nonws by reflexivity. reflexivity.
  - rewrite Hscan by reflexivity. cbv beta iota zeta.
    rewrite skip_ws_nonws by reflexivity.
    change (44 =? 93) with false. change (44 =? 44) with true. cbv iota.
    rewrite skip_ws_space.
    inversion Hall' as [|? ? [Hy _] _]; subst.
    rewrite skip_ws_arr_tail by assumption.
    rewrite IH; [|assumption|simpl in *; lia].
    now rewrite <- app_assoc.
Qed.

Lemma JSONObject_loop_dumps scan d :
  forall k v n pairs rest,
    Forall (entry_reads_back scan) ((k, v) :: d) ->
    (length ((k, v) :: d) <= n)%nat ->
    json.JSONObject_loop scan n (obj_tail k v d rest) pairs
    = Some (PyDict (dict_of_pairs (pairs ++ (k, v) :: d)), rest).
Proof.
  induction d as [|[k' v'] d IH]; intros k v n pairs rest Hall Hn;
    inversion Hall as [|? ? [Hk [Hv Hscan]] Hall']; subst; cbn [fst snd] in *;
    (destruct n as [|n]; [simpl in Hn; lia|]);
    cbn [json.JSONObject_loop obj_tail].
  - rewrite scanstring_encode by assumption. cbv beta iota zeta.
    rewrite skip_ws_nonws by reflexivity.
    change (58 =? 58) with true. cbv iota.
    rewrite skip_ws_space, skip_ws_dumps by assumption.
    rewrite Hscan by reflexivity. cbv beta iota zeta.
    rewrite skip_ws_nonws by reflexivity. reflexivity.
  - rewrite scanstring_encode by assumption. cbv beta iota zeta.
    rewrite skip_ws_nonws by reflexivity.
    change (58 =? 58) with true. cbv iota.
    rewrite skip_ws_space, skip_ws_dumps by assumption.
    rewrite Hscan by reflexivity. cbv beta iota zeta.
    rewrite skip_ws_nonws by reflexivity.
    change (44 =? 125) with false. change (44 =? 44) with true. cbv iota.
    rewrite skip_ws_space. rewrite skip_ws_nonws by reflexivity.
    change (34 =? 34) with true. cbv iota. cbn [fst snd].
    rewrite IH; [|assumption|simpl in *; lia].
    now rewrite <- app_assoc.
Qed.

Lemma dict_set_fresh {V : Type} (k : str) (v : V) (d : dict V) :
  dict_mem k d = false -> dict_set k v d = d ++ [(k, v)].
Proof.
  induction d as [|[k' v'] d IH]; simpl; [reflexivity|].
  rewrite dict_mem_cons. intros H. apply orb_false_iff in H as [H1 H2].
  rewrite H1. now rewrite IH.
Qed.

Lemma dict_keys_app {V : Type} (a b : dict V) :
  dict_keys (a ++ b) = dict_keys a ++ dict_keys b.
Proof. apply map_app. Qed.

Lemma fold_dict_set_unique {V : Type} (d : dict V) :
  forall acc,
    unique_keys (acc ++ d) = true ->
    fold_left (fun a kv => dict_set (fst kv) (snd kv) a) d acc = acc ++ d.
Proof.
  induction d as [|[k v] d IH]; intros acc Hu; simpl.
  - now rewrite List.app_nil_r.
  - rewrite dict_set_fresh.
    + rewrite IH; rewrite <- app_assoc; [reflexivity | assumption].
    + apply unique_keys_NoDup in Hu. rewrite dict_keys_app in Hu. simpl in Hu.
      apply NoDup_remove_2 in Hu.
      destruct (dict_mem k acc) eqn:E; [|reflexivity].
      apply dict_mem_In in E. exfalso. apply Hu. apply in_or_app. now left.
Qed.

Lemma dict_of_pairs_unique {V : Type} (d : dict V) :
  unique_keys d = true -> dict_of_pairs d = d.
Proof. intros H. unfold dict_of_pairs. now rewrite fold_dict_set_unique. Qed.

Lemma dumps_nonempty v : json_representable v = true -> (0 < length (json.dumps v))%nat.
Proof.
  intros H. destruct (dumps_head v H) as (c & r & -> & _). simpl. lia.
Qed.

Lemma arr_tail_length x l rest :
  (length (json.dumps x) + length l <= length (arr_tail x l rest))%nat.
Proof.
  revert x. induction l as [|y l IH]; intros x; cbn [arr_tail];
    rewrite length_app; simpl; [lia|].
  specialize (IH y). lia.
Qed.

Lemma obj_tail_length k v d rest :
  (length (json.dumps v) + length d <= length (obj_tail k v d rest))%nat.
Proof.
  revert k v. induction d as [|[k' v'] d IH]; intros k v; cbn [obj_tail];
    rewrite length_app; cbn [length]; rewrite length_app; cbn [length]; [lia|].
  specialize (IH k' v'). cbn [fst snd]. lia.
Qed.

Lemma join_cons2 (sep x y : str) (l : list str) :
  json.join sep (x :: y :: l) = x ++ sep ++ json.join sep (y :: l).
Proof. reflexivity. Qed.

Lemma join_length_In (sep x : str) (l : list str) :
  In x l -> (length x <= length (json.join sep l))%nat.
Proof.
  induction l as [|y l IH]; [contradiction|].
  intros [->|Hin]; destruct l as [|z l]; try contradiction.
  - simpl. lia.
  - rewrite join_cons2, length_app. lia.
  - specialize (IH Hin). rewrite join_cons2, !length_app. lia.
Qed.

Theorem scan_once_dumps v :
  json_representable v = true ->
  forall fuel rest,
    (length (json.dumps v) <= fuel)%nat ->
    delimited rest = true ->
    json.scan_once fuel (json.dumps v ++ rest) = Some (v, rest).
Proof.
  induction v as [|b|z|x|s|l IH|d IH] using pyval_nested_ind;
    intros Hv fuel rest Hfuel Hrest;
    pose proof (dumps_nonempty _ Hv) as Hpos;
    (destruct fuel as [|f]; [lia|]).
  - reflexivity.
  - destruct b; reflexivity.
  - now apply scan_once_int.
  - discriminate.
  - now apply scan_once_str.
  - cbn [json.dumps] in *. simpl List.app. cbn [json.scan_once].
    change (91 =? 34) with false. change (91 =? 123) with false.
    change (91 =? 91) with true. cbv iota.
    rewrite <- app_assoc. simpl List.app.
    destruct l as [|x l].
    + reflexivity.
    + rewrite join_arr_tail. unfold json.JSONArray.
      cbn [json_representable forallb] in Hv. apply andb_true_iff in Hv as [Hx Hl].
      rewrite skip_ws_arr_tail by assumption.
      destruct (dumps_head x Hx) as (c & r & Hd & Hc).
      destruct (arr_tail x l rest) as [|c' r'] eqn:Et.
      { destruct l; cbn [arr_tail] in Et; rewrite Hd in Et; discriminate. }
      assert (Hcc : c' = c).
      { destruct l; cbn [arr_tail] in Et; rewrite Hd in Et; now injection Et. }
      subst c'.
      assert (H93 : (c =? 93) = false).
      { apply Z.eqb_neq. intros ->. discriminate. }
      rewrite H93, <- Et.
      rewrite JSONArray_loop_dumps; [reflexivity| |].
      * apply Forall_forall. intros y Hy. split.
        -- destruct Hy as [<-|Hy]; [assumption|].
           rewrite forallb_forall in Hl. now apply Hl.
        -- intros rest' Hrest'.
           rewrite Forall_forall in IH. apply (IH y Hy); [|  |assumption].
           ++ destruct Hy as [<-|Hy]; [assumption|].
              rewrite forallb_forall in Hl. now apply Hl.
           ++ cbn [length] in Hfuel. rewrite length_app in Hfuel. cbn [length] in Hfuel.
              pose proof (join_length_In (lit ", ") (json.dumps y)
                            (List.map json.dumps (x :: l))
                            (in_map json.dumps _ _ Hy)). lia.
      * pose proof (arr_tail_length x l rest). pose proof (dumps_nonempty x Hx).
        simpl. lia.
  - cbn [json.dumps] in *. simpl List.app. cbn [json.scan_once].
    change (123 =? 34) with false. change (123 =? 123) with true. cbv iota.
    rewrite <- app_assoc. simpl List.app.
    cbn [json_representable] in Hv. apply andb_true_iff in Hv as [Hu Hd].
    destruct d as [|[k v] d].
    + reflexivity.
    + change (fun kv : str * pyval =>
                json.encode_basestring_ascii (fst kv) ++ lit ": " ++ json.dumps (snd kv))
        with item in *.
      rewrite join_obj_tail. unfold json.JSONObject.
      rewrite skip_ws_nonws by reflexivity.
      change (34 =? 125) with false. change (34 =? 34) with true. cbv iota.
      rewrite JSONObject_loop_dumps.
      * simpl List.app. now rewrite dict_of_pairs_unique.
      * apply Forall_forall. intros [k' v'] Hin.
        rewrite forallb_forall in Hd. pose proof (Hd _ Hin) as Hkv.
        cbn [fst snd] in Hkv. apply andb_true_iff in Hkv as [Hk' Hv'].
        split; [assumption|]. split; [assumption|].
        intros rest' Hrest'. rewrite Forall_forall in IH.
        apply (IH _ Hin); [assumption| |assumption].
        cbn [snd]. cbn [length] in Hfuel. rewrite length_app in Hfuel. cbn [length] in Hfuel.
        pose proof (join_length_In (lit ", ") (item (k', v'))
                      (List.map item ((k, v) :: d)) (in_map item _ _ Hin)) as Hj.
        unfold item at 1 in Hj. cbn [fst snd] in Hj. rewrite !length_app in Hj.
        unfold str in *. lia.
      * pose proof (obj_tail_length k v d rest). simpl. lia.
Qed.

Lemma value_start_not_bom c : value_start c = true -> (c =? 0xFEFF) = false.
Proof.
  unfold value_start. rewrite !orb_true_iff, !Z.eqb_eq, between_true.
  intros H. apply Z.eqb_neq. lia.
Qed.

Theorem loads_dumps v :
  json_representable v = true -> json.loads (json.dumps v) = Ok v.
Proof.
  intros Hv. unfold json.loads. cbv zeta.
  destruct (dumps_head v Hv) as (c & r & Hd & Hc).
  rewrite Hd at 1. rewrite (value_start_not_bom c Hc).
  rewrite <- (List.app_nil_r (json.dumps v)) at 2.
  rewrite skip_ws_dumps by assumption.
  rewrite scan_once_dumps; [reflexivity | assumption | lia | reflexivity].
Qed.

(** *** The encoded text is ASCII, and UTF-8 carries ASCII unchanged *)

Lemma utf8_encode_ascii s : Forall is_ascii s -> utf8_encode s = Some s.
Proof.
  induction 1 as [|c s Hc Hs IH]; [reflexivity|].
  cbn [utf8_encode]. unfold utf8_encode_char.
  assert (H : between 0 c 127 = true) by (apply between_true; exact Hc).
  rewrite H, IH. reflexivity.
Qed.

Lemma utf8_decode_ascii s : Forall is_ascii s -> utf8_decode s = Some s.
Proof.
  induction 1 as [|c s Hc Hs IH]; [reflexivity|].
  cbn [utf8_decode].
  assert (H : between 0 c 127 = true) by (apply between_true; exact Hc).
  rewrite H, IH. reflexivity.
Qed.

Lemma hexdigit_ascii d : 0 <= d < 16 -> is_ascii (json.hexdigit d).
Proof.
  intros H. unfold json.hexdigit, is_ascii. destruct (d <? 10); lia.
Qed.

Lemma u_escape_ascii n : 0 <= n < 0x10000 -> Forall is_ascii (json.u_escape n).
Proof.
  intros H. unfold json.u_escape.
  repeat constructor; try (unfold is_ascii; lia);
    apply hexdigit_ascii; Z.div_mod_to_equations; lia.
Qed.

Lemma escape_char_ascii c : code_point c = true -> Forall is_ascii (json.escape_char c).
Proof.
  intros Hc. unfold code_point in Hc. unfold json.escape_char.
  repeat match goal with
  | |- Forall _ (if ?b then _ else _) => destruct b eqn:?
  end; zbool; try (repeat constructor; unfold is_ascii; lia).
  - apply u_escape_ascii. lia.
  - cbv zeta. destruct (surrogate_pair_values c ltac:(lia)) as (H1 & H2 & _).
    cbv zeta in H1, H2. rewrite H1, H2.
    apply Forall_app. split; apply u_escape_ascii; Z.div_mod_to_equations; lia.
Qed.

Lemma text_ok_code_points s : text_ok s = true -> Forall (fun c => code_point c = true) s.
Proof.
  induction s as [|c s IH]; intros H; [constructor|].
  apply text_ok_cons in H as (Hc & _ & Hs). constructor; auto.
Qed.

Lemma encode_basestring_ascii_ascii s :
  text_ok s = true -> Forall is_ascii (json.encode_basestring_ascii s).
Proof.
  intros H. apply text_ok_code_points in H. unfold json.encode_basestring_ascii.
  constructor; [unfold is_ascii; lia|]. apply Forall_app. split.
  - induction H as [|c s Hc Hs IH]; simpl; [constructor|].
    apply Forall_app. split; [now apply escape_char_ascii | assumption].
  - repeat constructor; unfold is_ascii; lia.
Qed.

Lemma uint_chars_ascii d : Forall is_ascii (json.uint_chars d).
Proof.
  induction d; cbn [json.uint_chars]; constructor; try assumption;
    unfold is_ascii; lia.
Qed.

Lemma int_repr_ascii z : Forall is_ascii (json.int_repr z).
Proof.
  unfold json.int_repr. destruct (Z.to_int z).
  - apply uint_chars_ascii.
  - constructor; [unfold is_ascii; lia | apply uint_chars_ascii].
Qed.

Ltac ascii_literal :=
  match goal with
  | |- Forall is_ascii ?l =>
    let l' := eval vm_compute in l in change (Forall is_ascii l')
  end;
  repeat (constructor; [unfold is_ascii; lia|]); constructor.

Lemma join_ascii (sep : str) (l : list str) :
  Forall is_ascii sep -> Forall (Forall is_ascii) l -> Forall is_ascii (json.join sep l).
Proof.
  intros Hsep. induction 1 as [|x l Hx Hl IH]; [constructor|].
  destruct l as [|y l]; [exact Hx|].
  rewrite join_cons2. apply Forall_app. split; [assumption|].
  apply Forall_app. split; assumption.
Qed.

Lemma dumps_ascii v : json_representable v = true -> Forall is_ascii (json.dumps v).
Proof.
  induction v as [|b|z|x|s|l IH|d IH] using pyval_nested_ind; intros Hv.
  - ascii_literal.
  - destruct b; ascii_literal.
  - apply int_repr_ascii.
  - discriminate.
  - now apply encode_basestring_ascii_ascii.
  - cbn [json.dumps]. constructor; [unfold is_ascii; lia|].
    apply Forall_app. split; [|repeat constructor; unfold is_ascii; lia].
    apply join_ascii; [ascii_literal|].
    cbn [json_representable] in Hv. rewrite forallb_forall in Hv.
    apply Forall_forall. intros t Ht. apply in_map_iff in Ht as [y [<- Hy]].
    rewrite Forall_forall in IH. apply IH; auto.
  - cbn [json.dumps]. constructor; [unfold is_ascii; lia|].
    apply Forall_app. split; [|repeat constructor; unfold is_ascii; lia].
    apply join_ascii; [ascii_literal|].
    cbn [json_representable] in Hv. apply andb_true_iff in Hv as [_ Hv].
    rewrite forallb_forall in Hv.
    apply Forall_forall. intros t Ht. apply in_map_iff in Ht as [kv [<- Hkv]].
    specialize (Hv kv Hkv). apply andb_true_iff in Hv as [Hk Hv'].
    apply Forall_app. split; [now apply encode_basestring_ascii_ascii|].
    apply Forall_app. split; [ascii_literal|].
    rewrite Forall_forall in IH. apply (IH kv Hkv Hv').
Qed.

Lemma value_text_ok ty : text_ok (value ty) = true.
Proof. destruct ty; reflexivity. Qed.

Lemma round_trip_fields (E : Message) :
  json_representable (sender_name E) = true ->
  json_representable (sender_ip E) = true ->
  json_representable (payload E) = true ->
  exists b, to_bytes E = Ok b /\ from_bytes b = Ok E.
Proof.
  intros Hn Hi Hp.
  assert (Hrep : json_representable (PyDict (envelope_dict E)) = true).
  { unfold envelope_dict. cbn [json_representable forallb fst snd].
    rewrite Hn, Hi, Hp, value_text_ok. reflexivity. }
  pose proof (dumps_ascii _ Hrep) as Hascii.
  exists (to_json E). unfold to_bytes, str_encode_utf8.
  change (to_json E) with (json.dumps (PyDict (envelope_dict E))).
  rewrite (utf8_encode_ascii _ Hascii). split; [reflexivity|].
  unfold from_bytes, bytes_decode_utf8, bind.
  rewrite (utf8_decode_ascii _ Hascii).
  rewrite (from_json_dict _ _ (loads_dumps _ Hrep)).
  unfold envelope_dict.
  change (dict_get (lit "type") _) with (Some (PyStr (value (type E)))).
  cbv beta iota. rewrite MessageType_call_value.
  destruct E as [ty n i p]. reflexivity.
Qed.

Lemma well_formed_fields (E : Message) :
  well_formed E = true ->
  json_representable (sender_name E) = true
  /\ json_representable (sender_ip E) = true
  /\ json_representable (payload E) = true.
Proof.
  intros Hwf. unfold well_formed in Hwf.
  destruct (sender_name E) as [| | | |n| |] eqn:En; try discriminate.
  destruct (sender_ip E) as [| | | |i| |] eqn:Ei; try discriminate.
  destruct (payload E) as [| | | | | |d] eqn:Ep; try discriminate.
  apply andb_true_iff in Hwf as [Hwf Hd]. apply andb_true_iff in Hwf as [Hn Hi].
  auto.
Qed.



(** *** Remarks *)

(** The strings left out of [text_ok]: a high surrogate directly followed
    by a low one is printed as two escapes and read back as the one
    character they encode together. *)
Lemma surrogate_pair_read_as_one_character :
  json.loads (json.dumps (PyStr [0xD83D; 0xDE00])) = Ok (PyStr [0x1F600]).
Proof. vm_compute. reflexivity. Qed.


Lemma whole_prefixes_chunk_per_frame (bodies : list bytes) :
  Forall (fun b => Z.of_nat (length b) <= 0xFFFFFFFF) bodies ->
  whole_prefixes bodies (List.map frame_bytes bodies).
Proof.
  induction 1 as [|body bodies Hb Hall IH]; [now constructor|].
  cbn [List.map]. unfold frame_bytes at 1.
  destruct (int_to_bytes4_big (Z.of_nat (length body))) as [hdr|e] eqn:Eh.
  - apply (whole_frame body bodies hdr body _ (List.map frame_bytes bodies));
      [exact Eh | | exact IH].
    destruct body as [|x body]; [apply take_bytes_zero|].
    cbn [cons_chunk]. rewrite take_bytes_pos by (simpl; lia).
    rewrite Nat.leb_refl, Nat.sub_diag, take_bytes_zero.
    now rewrite List.app_nil_r.
  - unfold int_to_bytes4_big in Eh.
    assert (E : between 0 (Z.of_nat (length body)) 4294967295 = true)
      by (apply between_true; lia).
    rewrite E in Eh. discriminate.
Qed.

(** X7. Framing of what the senders write.  Envelopes of types other
    than [FILE_DATA], encoded and framed as [_send_to_peer] does and
    delivered with every length prefix within one chunk, are passed to
    [on_message] one by one, in the order sent, stamped with the peer
    address. *)
Theorem sent_frames_dispatched_in_order :
  forall (running : nat -> bool) (ip : str) (a : transfers)
         (msgs : list Message) (bodies cs : list bytes),
    (forall i, running i = true) ->
    Forall2 (fun m b => well_formed m = true /\ type m <> FILE_DATA
                        /\ to_bytes m = Ok b) msgs bodies ->
    whole_prefixes bodies cs ->
    exists tr,
      _handle_client running ip a (mkSocket cs peer_closed) = Some (tr, a)
      /\ dispatched tr = List.map (stamp ip) msgs.
Proof.
  intros running ip a msgs bodies cs Hrun Hall Hw.
  rewrite (framing_with_whole_prefixes running ip Hrun bodies cs a Hw).
  assert (Hd : Forall2 (fun m b => from_bytes b = Ok m /\ type m <> FILE_DATA)
                       msgs bodies).
  { eapply Forall2_impl; [|exact Hall]. intros m b (Hwf & Hty & Hb). split; [|exact Hty].
    destruct (well_formed_fields m Hwf) as (Hn & Hi & Hp).
    destruct (round_trip_fields m Hn Hi Hp) as (b' & Hb' & Hm). congruence. }
  destruct (handle_frames_dispatch ip a msgs bodies Hd) as [H1 H2].
  destruct (handle_frames ip a bodies) as [tr a'] eqn:E. simpl in *. subst a'.
  exists tr. split; [reflexivity | exact H1].
Qed.

(** X7 at the frames of "hi" and "bye", a chunk each *)
Lemma sent_frames_dispatched_in_order_example :
  exists tr,
    _handle_client always_running peer_ip []
                   (mkSocket (List.map frame_bytes
                                [json.dumps (PyDict (envelope_dict hi_message));
                                 json.dumps (PyDict (envelope_dict bye_message))])
                             peer_closed) = Some (tr, [])
    /\ dispatched tr = [stamp peer_ip hi_message; stamp peer_ip bye_message].
Proof.
  apply (sent_frames_dispatched_in_order
           always_running peer_ip [] [hi_message; bye_message]
           [json.dumps (PyDict (envelope_dict hi_message));
            json.dumps (PyDict (envelope_dict bye_message))]).
  - reflexivity.
  - repeat constructor; discriminate.
  - apply whole_prefixes_chunk_per_frame. repeat constructor; vm_compute; discriminate.
Defined.

(** *** The wire form of an envelope and what the decoder accepts *)


















(** *** The calls of a connection handler *)

Section Shape.
Variable running : nat -> bool.
Variable ip : str.


Lemma handle_loop_stop fuel :
  forall i a sock tr a' k,
    handle_loop running ip fuel i a sock = Some (tr, a') ->
    running (i + k)%nat = false ->
    (length (decoded tr) <= k)%nat.
Proof.
  induction fuel as [|fuel IH]; intros i a sock tr a' k H Hk; [discriminate|].
  cbn [handle_loop] in H.
  assert (Hend : forall tail, decoded tail = [] -> Some (tail, a) = Some (tr, a') ->
            (length (decoded tr) <= k)%nat).
  { intros tail Ht [= <- _]. rewrite Ht. simpl. lia. }
  destruct (running i) eqn:Ei; [|now apply (Hend [ev_close])].
  destruct k as [|k]; [rewrite Nat.add_0_r in Hk; congruence|].
  destruct (recv 4 sock) as [[lb sock1]|e]; [|now apply (Hend [ev_log_error e; ev_close])].
  destruct lb as [|x lb]; [now apply (Hend [ev_close])|].
  destruct (read_body _ _ _ _) as [[[data sock2]|e]|]; [| |discriminate];
    [|now apply (Hend [ev_log_error e; ev_close])].
  destruct (negb _); [now apply (Hend [ev_close])|].
  destruct (from_bytes data) as [msg0|e].
  2:{ now apply (Hend [ev_from_bytes data (Raise e); ev_log_error e; ev_close]). }
  replace (i + S k)%nat with (S i + k)%nat in Hk by lia.
  destruct (MessageType_eqb _ _).
  - destruct (_handle_file_data a _) as [a1|e].
    + destruct (handle_loop _ _ _ _ _ _) as [[tr1 a2]|] eqn:Er; [|discriminate].
      injection H as <- _. pose proof (IH _ _ _ _ _ _ Er Hk). simpl. lia.
    + injection H as <- _. simpl. lia.
  - destruct (handle_loop _ _ _ _ _ _) as [[tr1 a2]|] eqn:Er; [|discriminate].
    injection H as <- _. pose proof (IH _ _ _ _ _ _ Er Hk). simpl. lia.
Qed.
End Shape.


(** X6. Stop.  A handler that finds [self.running] cleared at its
    [k]-th test of the loop condition (counting from 0) has decoded at
    most [k] frames and made at most [k] calls of [on_message] and
    [_handle_file_data], whatever is left on the socket. *)
Theorem handler_stops_with_flag :
  forall (running : nat -> bool) (ip : str) (a : transfers) (sock : socket) (k : nat),
    running k = false ->
    exists tr a',
      _handle_client running ip a sock = Some (tr, a')
      /\ (length (decoded tr) <= k)%nat
      /\ (length (dispatched tr) + length (file_data_calls tr) <= k)%nat.
Proof.
  intros running ip a sock k Hk.
  destruct (handle_client_total running ip a sock) as [[tr a'] Hr].
  exists tr, a'. split; [exact Hr|].
  pose proof (handle_loop_stop running ip _ _ _ _ _ _ k Hr Hk) as Hd.
  split; [exact Hd|].
  destruct (handle_loop_trace running ip _ _ _ _ _ _ Hr) as (_ & H1 & H2 & _).
  rewrite H1, H2, !length_map.
  assert (Hf : forall l : list Message,
             (length (filter (fun m => negb (is_file_data m)) l)
              + length (filter is_file_data l) = length l)%nat).
  { induction l as [|m l IH]; simpl; [reflexivity|].
    destruct (is_file_data m); simpl; lia. }
  rewrite Hf. exact Hd.
Qed.

(** X6 at two frames and a flag cleared after the first *)
Lemma handler_stops_with_flag_witness :
  exists tr a',
    _handle_client stopped_after_one peer_ip [] (mkSocket [two_frames] peer_closed)
    = Some (tr, a')
    /\ (length (decoded tr) <= 1)%nat.
Proof.
  destruct (handler_stops_with_flag stopped_after_one peer_ip []
              (mkSocket [two_frames] peer_closed) 1) as (tr & a' & Hr & Hd & _).
  - reflexivity.
  - exists tr, a'. split; [exact Hr | exact Hd].
Defined.

(** X4. The frame.  When [to_bytes] fails, [_send_to_peer] fails the same
    way.  Otherwise it writes four bytes and the body: the four bytes
    are the length of the body, most significant byte first, and
    [int.from_bytes] reads that length back; a body of 2^32 bytes or
    more raises [OverflowError] and nothing is written. *)
Theorem send_to_peer_frame :
  forall msg : Message,
    match to_bytes msg with
    | Raise e => _send_to_peer msg = Raise e
    | Ok data =>
      if Z.of_nat (length data) <=? 0xFFFFFFFF then
        exists length_bytes,
          _send_to_peer msg = Ok (length_bytes ++ data)
          /\ length length_bytes = 4%nat
          /\ Forall (fun b => 0 <= b <= 255) length_bytes
          /\ int_from_bytes_big length_bytes = Z.of_nat (length data)
      else _send_to_peer msg = Raise OverflowError
    end.
Proof.
  intros msg. unfold _send_to_peer, bind.
  destruct (to_bytes msg) as [data|e]; [|reflexivity].
  destruct (Z.leb_spec (Z.of_nat (length data)) 0xFFFFFFFF) as [Hle|Hgt].
  - destruct (int_to_bytes4_big (Z.of_nat (length data))) as [hdr|e] eqn:Eh.
    + destruct (int_to_bytes4_big_spec _ _ Eh) as [Hl Hv].
      exists hdr. repeat split; auto.
      unfold int_to_bytes4_big in Eh. destruct (between _ _ _); [|discriminate].
      injection Eh as <-.
      assert (Hn : 0 <= Z.of_nat (length data)) by lia.
      assert (Hm : forall x, 0 <= x mod 256 <= 255)
        by (intros x; pose proof (Z.mod_pos_bound x 256 ltac:(lia)); lia).
      assert (Hd : 0 <= Z.of_nat (length data) / 16777216 <= 255).
      { split; [apply Z.div_pos; lia|].
        assert (Z.of_nat (length data) / 16777216 < 256)
          by (apply Z.div_lt_upper_bound; lia).
        lia. }
      repeat apply Forall_cons; auto.
    + unfold int_to_bytes4_big in Eh.
      assert (E : between 0 (Z.of_nat (length data)) 0xFFFFFFFF = true)
        by (apply between_true; lia).
      rewrite E in Eh. discriminate.
  - unfold int_to_bytes4_big.
    assert (E : between 0 (Z.of_nat (length data)) 0xFFFFFFFF = false)
      by (apply between_false; lia).
    now rewrite E.
Qed.

(** *** From the sender to the consumer *)

Lemma take_bytes_all cs :
  exists cs', take_bytes (length (concat cs)) cs = Some (concat cs, cs') /\ concat cs' = [].
Proof.
  induction cs as [|c cs IH]; [exists []; split; reflexivity|].
  destruct IH as (cs' & Ht & Hc). cbn [concat]. rewrite length_app.
  destruct (length c + length (concat cs))%nat as [|n] eqn:En.
  - exists (c :: cs). cbn [take_bytes].
    assert (Hl : length (c ++ concat cs) = 0%nat) by (rewrite length_app; exact En).
    apply length_zero_iff_nil in Hl. cbn [concat]. rewrite Hl. split; reflexivity.
  - exists cs'. cbn [take_bytes].
    assert (Hle : (length c <=? S n)%nat = true) by (apply Nat.leb_le; lia).
    rewrite Hle. replace (S n - length c)%nat with (length (concat cs)) by lia.
    rewrite Ht. split; [reflexivity | exact Hc].
Qed.

(** One frame, cut anywhere after its length prefix *)
Lemma whole_prefixes_one_frame body hdr first rest :
  int_to_bytes4_big (Z.of_nat (length body)) = Ok hdr ->
  first ++ concat rest = hdr ++ body ->
  (4 <= length first)%nat ->
  whole_prefixes [body] (first :: rest).
Proof.
  intros Hh Hcat Hlen.
  destruct (int_to_bytes4_big_spec _ _ Hh) as [Hl _].
  assert (Hf : first = hdr ++ skipn 4 first).
  { rewrite <- (firstn_skipn 4 first) at 1. f_equal.
    apply (f_equal (firstn 4)) in Hcat.
    rewrite firstn_app in Hcat.
    replace (4 - length first)%nat with 0%nat in Hcat by lia.
    rewrite firstn_O, List.app_nil_r in Hcat. rewrite Hcat.
    rewrite firstn_app, Hl, Nat.sub_diag, firstn_O, List.app_nil_r.
    rewrite <- Hl. apply firstn_all. }
  assert (Hb : skipn 4 first ++ concat rest = body).
  { rewrite Hf in Hcat at 1. rewrite <- app_assoc in Hcat.
    now apply app_inv_head in Hcat. }
  rewrite Hf.
  destruct (take_bytes_all (cons_chunk (skipn 4 first) rest)) as (cs' & Ht & Hc).
  rewrite cons_chunk_concat, Hb in Ht.
  apply (whole_frame body [] hdr (skipn 4 first) rest cs' Hh Ht).
  now apply whole_end.
Qed.

Section Delivery.
Variable running : nat -> bool.
Variable ip : str.
Hypothesis keeps_running : forall i, running i = true.

Lemma sent_frame_dispatched (a : transfers) (msg : Message) (frame first : bytes)
      (rest : list bytes) :
  json_representable (sender_name msg) = true ->
  json_representable (sender_ip msg) = true ->
  json_representable (payload msg) = true ->
  type msg <> FILE_DATA ->
  _send_to_peer msg = Ok frame ->
  first ++ concat rest = frame ->
  (4 <= length first)%nat ->
  exists tr,
    _handle_client running ip a (mkSocket (first :: rest) peer_closed) = Some (tr, a)
    /\ dispatched tr = [stamp ip msg].
Proof.
  intros Hn Hi Hp Hty Hsend Hcat Hlen.
  destruct (round_trip_fields msg Hn Hi Hp) as (body & Hb & Hd).
  unfold _send_to_peer, bind in Hsend. rewrite Hb in Hsend.
  destruct (int_to_bytes4_big (Z.of_nat (length body))) as [hdr|e] eqn:Eh; [|discriminate].
  injection Hsend as <-.
  rewrite (framing_with_whole_prefixes running ip keeps_running [body] (first :: rest) a
             (whole_prefixes_one_frame body hdr first rest Eh Hcat Hlen)).
  assert (Hall : Forall2 (fun m b => from_bytes b = Ok m /\ type m <> FILE_DATA)
                         [msg] [body]) by (repeat constructor; assumption).
  destruct (handle_frames_dispatch ip a [msg] [body] Hall) as [H1 H2].
  destruct (handle_frames ip a [body]) as [tr a'] eqn:E. simpl in H1, H2. subst a'.
  exists tr. split; [reflexivity | exact H1].
Qed.
End Delivery.

(** X8. A text reaches the consumer.  The frame [send_message] writes,
    delivered in any chunks of which the first holds at least the four
    bytes of the length prefix, makes a running handler call
    [on_message] exactly once, with a [TEXT] envelope that carries the
    sender's name, the text, and the peer address of the socket. *)
Theorem sent_text_reaches_consumer :
  forall (running : nat -> bool) (ip : str) (a : transfers)
         (username message : str) (frame first : bytes) (rest : list bytes),
    (forall i, running i = true) ->
    text_ok username = true ->
    text_ok message = true ->
    send_message username message = Ok frame ->
    first ++ concat rest = frame ->
    (4 <= length first)%nat ->
    exists tr,
      _handle_client running ip a (mkSocket (first :: rest) peer_closed) = Some (tr, a)
      /\ dispatched tr
         = [{| type := TEXT;
               sender_name := PyStr username;
               sender_ip := PyStr ip;
               payload := PyDict [(lit "text", PyStr message)] |}].
Proof.
  intros running ip a username message frame first rest Hrun Hu Hm Hs Hcat Hlen.
  apply (sent_frame_dispatched running ip Hrun a (text_message username message)
           frame first rest); auto; try discriminate.
  simpl. now rewrite Hm.
Qed.

(** X8 at the text "hi" cut after ten bytes *)
Lemma sent_text_reaches_consumer_witness :
  exists tr,
    _handle_client always_running peer_ip []
                   (mkSocket [firstn 10 (frame_of hi_message);
                              skipn 10 (frame_of hi_message)] peer_closed)
    = Some (tr, [])
    /\ dispatched tr = [stamp peer_ip hi_message].
Proof.
  apply (sent_text_reaches_consumer always_running peer_ip [] alice (lit "hi")
           (frame_of hi_message)
           (firstn 10 (frame_of hi_message)) [skipn 10 (frame_of hi_message)]).
  - reflexivity.
  - reflexivity.
  - reflexivity.
  - vm_compute. reflexivity.
  - vm_compute. reflexivity.
  - vm_compute. lia.
Defined.

(** X9. A file offer reaches the consumer.  The frame [send_file_offer]
    writes for a file name and a size, delivered in any chunks of which
    the first holds at least the four bytes of the length prefix, makes
    a running handler call [on_message] exactly once, with a
    [FILE_OFFER] envelope that carries the name and the size. *)
Theorem sent_file_offer_reaches_consumer :
  forall (running : nat -> bool) (ip : str) (a : transfers)
         (username filename : str) (filesize : Z)
         (frame first : bytes) (rest : list bytes),
    (forall i, running i = true) ->
    text_ok username = true ->
    text_ok filename = true ->
    send_file_offer username filename filesize = Ok frame ->
    first ++ concat rest = frame ->
    (4 <= length first)%nat ->
    exists tr,
      _handle_client running ip a (mkSocket (first :: rest) peer_closed) = Some (tr, a)
      /\ dispatched tr
         = [{| type := FILE_OFFER;
               sender_name := PyStr username;
               sender_ip := PyStr ip;
               payload := PyDict [(lit "filename", PyStr filename);
                                  (lit "filesize", PyInt filesize)] |}].
Proof.
  intros running ip a username filename filesize frame first rest Hrun Hu Hf Hs Hcat Hlen.
  apply (sent_frame_dispatched running ip Hrun a
           (file_offer_message username filename filesize) frame first rest);
    auto; try discriminate.
  simpl. now rewrite Hf.
Qed.

(** X9 at a file of 1024 bytes, the frame in one chunk *)
Lemma sent_file_offer_reaches_consumer_witness :
  exists tr,
    _handle_client always_running peer_ip []
      (mkSocket [frame_of (file_offer_message alice (lit "notes.txt") 1024)] peer_closed)
    = Some (tr, [])
    /\ dispatched tr = [stamp peer_ip (file_offer_message alice (lit "notes.txt") 1024)].
Proof.
  apply (sent_file_offer_reaches_consumer always_running peer_ip [] alice
           (lit "notes.txt") 1024
           (frame_of (file_offer_message alice (lit "notes.txt") 1024))
           (frame_of (file_offer_message alice (lit "notes.txt") 1024)) []).
  - reflexivity.
  - reflexivity.
  - reflexivity.
  - vm_compute. reflexivity.
  - cbn [concat]. apply List.app_nil_r.
  - vm_compute. lia.
Defined.

Lemma handle_file_data_outcomes (a : transfers) (msg : Message) :
  match payload msg with
  | PyDict d =>
    match dict_get (lit "data") d with
    | Some (PyStr x) =>
      if forallb (fun c => between 0 c 0xFF) x
      then _handle_file_data a msg = Ok a
      else _handle_file_data a msg = Raise UnicodeEncodeError
    | _ => _handle_file_data a msg = Raise AttributeError
    end
  | _ => _handle_file_data a msg = Raise AttributeError
  end.
Proof.
  unfold _handle_file_data, payload_get, bind, str_encode_latin1.
  destruct (payload msg) as [| | | | | |d]; try reflexivity.
  destruct (dict_get (lit "filename") d); destruct (dict_get (lit "data") d) as [v|];
    try reflexivity; destruct v; try reflexivity; destruct (forallb _ _); reflexivity.
Qed.

Lemma handle_file_data_no_data (a : transfers) (msg : Message) :
  (forall x, payload_get msg (lit "data") <> Ok (PyStr x)) ->
  _handle_file_data a msg = Raise AttributeError.
Proof.
  intros Hno. pose proof (handle_file_data_outcomes a msg) as H.
  unfold payload_get in Hno.
  destruct (payload msg) as [| | | | | |d]; try exact H.
  destruct (dict_get (lit "data") d) as [v|]; [|exact H].
  destruct v; try exact H. exfalso. now apply (Hno s).
Qed.

(** X10. A [FILE_DATA] envelope without data ends the connection.  When
    the payload of a decoded [FILE_DATA] envelope is not a dict with a
    string under [data], [_handle_file_data] raises [AttributeError]:
    the handler logs it and closes the socket, and the frames that
    follow on the connection are never read. *)
Theorem file_data_without_data_ends_connection :
  forall (running : nat -> bool) (ip : str) (a : transfers)
         (body : bytes) (bodies cs : list bytes) (msg0 : Message),
    (forall i, running i = true) ->
    whole_prefixes (body :: bodies) cs ->
    from_bytes body = Ok msg0 ->
    type msg0 = FILE_DATA ->
    (forall x, payload_get msg0 (lit "data") <> Ok (PyStr x)) ->
    _handle_client running ip a (mkSocket cs peer_closed)
    = Some ([ev_from_bytes body (Ok msg0);
             ev_handle_file_data (stamp ip msg0);
             ev_log_error AttributeError;
             ev_close], a).
Proof.
  intros running ip a body bodies cs msg0 Hrun Hw Hd Hty Hno.
  rewrite (framing_with_whole_prefixes running ip Hrun _ cs a Hw).
  cbn [handle_frames]. rewrite Hd. cbn [type set_sender_ip]. rewrite Hty.
  cbn [MessageType_eqb].
  rewrite handle_file_data_no_data; [reflexivity|].
  intros x. unfold payload_get. cbn [payload]. apply Hno.
Qed.

(** X10 at a [FILE_DATA] envelope with an empty payload, followed by a text *)
Lemma file_data_without_data_ends_connection_witness :
  _handle_client always_running peer_ip []
    (mkSocket [frame_of empty_file_data; frame_of hi_message] peer_closed)
  = Some ([ev_from_bytes (to_json empty_file_data) (Ok empty_file_data);
           ev_handle_file_data (stamp peer_ip empty_file_data);
           ev_log_error AttributeError;
           ev_close], []).
Proof.
  apply (file_data_without_data_ends_connection always_running peer_ip []
           (to_json empty_file_data) [to_json hi_message]
           [frame_of empty_file_data; frame_of hi_message] empty_file_data).
  - reflexivity.
  - apply (whole_prefixes_chunk_per_frame [to_json empty_file_data; to_json hi_message]).
    repeat constructor; vm_compute; discriminate.
  - vm_compute. reflexivity.
  - reflexivity.
  - intros x. vm_compute. discriminate.
Defined.

(** *** The handler of a manager with its consumer *)

Section ConsumerFacts.
Variable St : Type.
Variable on_message : Message -> St -> St * option exn.
Variable running : nat -> bool.
Variable ip : str.

Lemma handle_loop_with_total fuel :
  forall i a st sock,
    (pending sock < fuel)%nat ->
    exists r, handle_loop_with on_message running ip fuel i a st sock = Some r.
Proof.
  induction fuel as [|fuel IH]; intros i a st sock Hf; [lia|]. cbn [handle_loop_with].
  destruct (running i); [|eauto].
  destruct (recv 4 sock) as [[lb sock1]|e] eqn:Er; [|eauto].
  pose proof (recv_pending _ _ _ _ Er) as Hp.
  destruct lb as [|x lb]; [eauto|]. simpl in Hp.
  destruct (read_body_total (S (pending sock1)) (int_from_bytes_big (x :: lb)) [] sock1)
    as (r & Hr & Hb); [lia|].
  cbv zeta. rewrite Hr. destruct r as [[data sock2]|e]; [|eauto].
  destruct (negb _); [eauto|].
  destruct (from_bytes data) as [msg0|e]; [|eauto].
  destruct (MessageType_eqb _ _).
  - destruct (_handle_file_data a _) as [a1|e]; [|eauto].
    destruct (IH (S i) a1 st sock2) as [[[tr a2] s2] Hr2]; [lia|]. rewrite Hr2. eauto.
  - destruct (on_message _ st) as [st1 [e|]]; [eauto|].
    destruct (IH (S i) a st1 sock2) as [[[tr a2] s2] Hr2]; [lia|]. rewrite Hr2. eauto.
Qed.

End ConsumerFacts.


Section FramingWith.
Variable St : Type.
Variable on_message : Message -> St -> St * option exn.
Variable running : nat -> bool.
Variable ip : str.
Hypothesis keeps_running : forall i, running i = true.

Lemma handle_loop_with_skip_empty fuel i a st cs e :
  handle_loop_with on_message running ip fuel i a st (mkSocket ([] :: cs) e)
  = handle_loop_with on_message running ip fuel i a st (mkSocket cs e).
Proof. destruct fuel; reflexivity. Qed.

Lemma handle_loop_with_frames bodies cs :
  whole_prefixes bodies cs ->
  forall fuel i a st,
    (pending (mkSocket cs peer_closed) < fuel)%nat ->
    handle_loop_with on_message running ip fuel i a st (mkSocket cs peer_closed)
    = Some (handle_frames_with on_message ip a st bodies).
Proof.
  induction 1 as [cs Hc | hdr c cs Hh Hlt | bodies cs Hw IH
                 | body bodies hdr c cs cs' Hh Ht Hw IH];
    intros fuel i a st Hf.
  - destruct fuel; [lia|]. cbn [handle_loop_with]. rewrite keeps_running.
    unfold recv. cbn [chunks ending]. now rewrite recv_chunks_empty.
  - destruct fuel as [|fuel]; [lia|]. cbn [handle_loop_with]. rewrite keeps_running.
    rewrite (recv_whole_prefix hdr c cs peer_closed Hh).
    destruct hdr as [|h0 hdr]; [discriminate|]. cbv zeta.
    remember (int_from_bytes_big (h0 :: hdr)) as N eqn:HN.
    remember (mkSocket (cons_chunk c cs) peer_closed) as sock1 eqn:Hs1.
    assert (Hp1 : pending sock1 = length (c ++ concat cs)).
    { subst sock1. unfold pending. cbn [chunks]. now rewrite cons_chunk_concat. }
    destruct (read_body_short (S (pending sock1)) N [] sock1) as (sock2 & Hb).
    + lia.
    + now subst sock1.
    + cbn [length Nat.add]. rewrite Hp1. exact Hlt.
    + rewrite Hb. cbn [List.app]. unfold stream. fold (pending sock1).
      assert (Hne : (Z.of_nat (pending sock1) =? N) = false)
        by (apply Z.eqb_neq; rewrite Hp1; lia).
      now rewrite Hne.
  - rewrite handle_loop_with_skip_empty. apply IH. exact Hf.
  - destruct fuel as [|fuel]; [lia|]. cbn [handle_loop_with]. rewrite keeps_running.
    destruct (int_to_bytes4_big_spec _ _ Hh) as [Hlen Hval].
    rewrite (recv_whole_prefix hdr c cs peer_closed Hlen).
    destruct hdr as [|h0 hdr]; [discriminate|]. cbv zeta. rewrite Hval.
    pose proof (read_body_take (S (pending (mkSocket (cons_chunk c cs) peer_closed)))
                  (length body) (cons_chunk c cs) peer_closed [] body cs' Ht
                  ltac:(lia)) as Hb.
    cbn [length Nat.add List.app] in Hb. rewrite Hb, Z.eqb_refl. cbn [negb].
    destruct (take_bytes_pending _ _ _ _ Ht) as [_ Hs].
    assert (Hp : (pending (mkSocket cs' peer_closed) < fuel)%nat).
    { unfold pending in *. cbn [chunks concat] in *.
      rewrite cons_chunk_concat in Hs. rewrite <- app_assoc, Hs, !length_app in Hf.
      simpl in Hlen, Hf. lia. }
    cbn [handle_frames_with].
    destruct (from_bytes body) as [msg0|e]; [|reflexivity].
    destruct (MessageType_eqb _ _).
    + destruct (_handle_file_data a _) as [a'|e]; [|reflexivity].
      rewrite (IH fuel (S i) a' st Hp).
      now destruct (handle_frames_with on_message ip a' st bodies) as [[tr a2] s2].
    + destruct (on_message _ st) as [st1 [e|]]; [reflexivity|].
      rewrite (IH fuel (S i) a st1 Hp).
      now destruct (handle_frames_with on_message ip a st1 bodies) as [[tr a2] s2].
Qed.

Lemma framing_with_consumer bodies cs a st :
  whole_prefixes bodies cs ->
  _handle_client_with on_message running ip a st (mkSocket cs peer_closed)
  = Some (handle_frames_with on_message ip a st bodies).
Proof. intros H. apply handle_loop_with_frames; [exact H | lia]. Qed.
End FramingWith.


(** X16. A consumer that raises ends the connection.  When the callback
    raises on the envelope of a frame, the handler logs the exception
    and closes the socket: the frames that follow on the connection are
    never read. *)
Theorem consumer_failure_ends_connection :
  forall (St : Type) (on_message : Message -> St -> St * option exn)
         (running : nat -> bool) (ip : str) (a : transfers) (st st1 : St)
         (body : bytes) (bodies cs : list bytes) (msg0 : Message) (e : exn),
    (forall i, running i = true) ->
    whole_prefixes (body :: bodies) cs ->
    from_bytes body = Ok msg0 ->
    type msg0 <> FILE_DATA ->
    on_message (stamp ip msg0) st = (st1, Some e) ->
    _handle_client_with on_message running ip a st (mkSocket cs peer_closed)
    = Some ([ev_from_bytes body (Ok msg0);
             ev_on_message (stamp ip msg0);
             ev_log_error e;
             ev_close], a, st1).
Proof.
  intros St on_message running ip a st st1 body bodies cs msg0 e Hrun Hw Hd Hty Hraise.
  rewrite (framing_with_consumer St on_message running ip Hrun _ cs a st Hw).
  cbn [handle_frames_with]. rewrite Hd.
  assert (E : MessageType_eqb (type (set_sender_ip msg0 (PyStr ip))) FILE_DATA = false).
  { simpl. destruct (type msg0); try reflexivity. contradiction. }
  rewrite E. fold (stamp ip msg0). now rewrite Hraise.
Qed.

(** X16 at a consumer that raises on every envelope *)
Lemma consumer_failure_ends_connection_witness :
  _handle_client_with (fun (_ : Message) (n : nat) => (n, Some ValueError))
                      always_running peer_ip [] 0%nat
                      (mkSocket [frame_of hi_message; frame_of bye_message] peer_closed)
  = Some ([ev_from_bytes (to_json hi_message) (Ok hi_message);
           ev_on_message (stamp peer_ip hi_message);
           ev_log_error ValueError;
           ev_close], [], 0%nat).
Proof.
  apply (consumer_failure_ends_connection nat
           (fun (_ : Message) (n : nat) => (n, Some ValueError))
           always_running peer_ip [] 0%nat 0%nat
           (to_json hi_message) [to_json bye_message]
           [frame_of hi_message; frame_of bye_message] hi_message ValueError).
  - reflexivity.
  - apply (whole_prefixes_chunk_per_frame [to_json hi_message; to_json bye_message]).
    repeat constructor; vm_compute; discriminate.
  - vm_compute. reflexivity.
  - discriminate.
  - reflexivity.
Defined.

(** *** The consumer of the terminal interface *)

(** X17. A text reaches the terminal interface.  The frame
    [send_message] writes, received by the handler of the terminal
    interface, is dispatched without error, and [_add_message] is
    called once, with the sender's name, the text, and [is_self]
    false. *)
Theorem tui_shows_sent_text :
  forall (running : nat -> bool) (ip : str) (a : transfers)
         (messages : list tui.ChatMessage)
         (username message : str) (frame first : bytes) (rest : list bytes),
    (forall i, running i = true) ->
    text_ok username = true ->
    text_ok message = true ->
    send_message username message = Ok frame ->
    first ++ concat rest = frame ->
    (4 <= length first)%nat ->
    exists tr,
      _handle_client_with tui.on_message_received running ip a messages
                          (mkSocket (first :: rest) peer_closed)
      = Some (tr, a,
              messages ++ [tui.mkChatMessage (PyStr username) (PyStr message) false])
      /\ dispatched tr = [stamp ip (text_message username message)]
      /\ (forall e, ~ In (ev_log_error e) tr).
Proof.
  intros running ip a messages username message frame first rest
         Hrun Hu Hm Hsend Hcat Hlen.
  destruct (round_trip_fields (text_message username message)) as (body & Hb & Hd);
    [exact Hu | reflexivity | simpl; now rewrite Hm |].
  unfold send_message, _send_to_peer, bind in Hsend. rewrite Hb in Hsend.
  destruct (int_to_bytes4_big (Z.of_nat (length body))) as [hdr|e] eqn:Eh; [|discriminate].
  injection Hsend as <-.
  rewrite (framing_with_consumer _ tui.on_message_received running ip Hrun
             [body] (first :: rest) a messages
             (whole_prefixes_one_frame body hdr first rest Eh Hcat Hlen)).
  cbn [handle_frames_with]. rewrite Hd.
  eexists. split; [reflexivity|]. split; [reflexivity|].
  intros e [H|[H|[H|[]]]]; discriminate.
Qed.

(** X17 at the text "hi" *)
Lemma tui_shows_sent_text_witness :
  exists tr,
    _handle_client_with tui.on_message_received always_running peer_ip [] []
                        (mkSocket [frame_of hi_message] peer_closed)
    = Some (tr, [], [tui.mkChatMessage (PyStr alice) (PyStr (lit "hi")) false])
    /\ dispatched tr = [stamp peer_ip hi_message]
    /\ (forall e, ~ In (ev_log_error e) tr).
Proof.
  apply (tui_shows_sent_text always_running peer_ip [] [] alice (lit "hi")
           (frame_of hi_message) (frame_of hi_message) []).
  - reflexivity.
  - reflexivity.
  - reflexivity.
  - vm_compute. reflexivity.
  - cbn [concat]. apply List.app_nil_r.
  - vm_compute. lia.
Defined.

(** X18. A text envelope without text ends the connection.  For a
    [TEXT] envelope whose payload has no [text], [on_message_received]
    of the terminal interface raises in the thread of the handler:
    [KeyError] when the payload is a dict, [TypeError] otherwise (so for
    the payload [None] of an envelope sent without one).  The handler
    logs it and closes the socket; nothing is shown and the frames that
    follow are never read. *)
Theorem tui_text_without_text_ends_connection :
  forall (running : nat -> bool) (ip : str) (a : transfers)
         (messages : list tui.ChatMessage)
         (body : bytes) (bodies cs : list bytes) (msg0 : Message),
    (forall i, running i = true) ->
    whole_prefixes (body :: bodies) cs ->
    from_bytes body = Ok msg0 ->
    type msg0 = TEXT ->
    (forall v, getitem (payload msg0) (lit "text") <> Ok v) ->
    _handle_client_with tui.on_message_received running ip a messages
                        (mkSocket cs peer_closed)
    = Some ([ev_from_bytes body (Ok msg0);
             ev_on_message (stamp ip msg0);
             ev_log_error (match payload msg0 with
                           | PyDict _ => KeyError
                           | _ => TypeError
                           end);
             ev_close], a, messages).
Proof.
  intros running ip a messages body bodies cs msg0 Hrun Hw Hd Hty Hno.
  rewrite (framing_with_consumer _ tui.on_message_received running ip Hrun _ cs a
             messages Hw).
  cbn [handle_frames_with]. rewrite Hd. unfold tui.on_message_received.
  cbn [type payload set_sender_ip]. rewrite !Hty. cbn [MessageType_eqb].
  unfold stamp, set_sender_ip, getitem in *.
  destruct (payload msg0) as [| | | | | |d]; try reflexivity.
  destruct (dict_get (lit "text") d) as [v|]; [|reflexivity].
  exfalso. now apply (Hno v).
Qed.

(** X18 at a text envelope without payload, followed by a text *)
Lemma tui_text_without_text_ends_connection_witness :
  _handle_client_with tui.on_message_received always_running peer_ip [] []
                      (mkSocket [frame_bytes no_payload_bytes; frame_of hi_message]
                                peer_closed)
  = Some ([ev_from_bytes no_payload_bytes
             (Ok (mkMessage TEXT (PyStr alice) (PyStr []) PyNone));
           ev_on_message (stamp peer_ip (mkMessage TEXT (PyStr alice) (PyStr []) PyNone));
           ev_log_error TypeError;
           ev_close], [], []).
Proof.
  apply (tui_text_without_text_ends_connection always_running peer_ip [] []
           no_payload_bytes [to_json hi_message]
           [frame_bytes no_payload_bytes; frame_of hi_message]
           (mkMessage TEXT (PyStr alice) (PyStr []) PyNone)).
  - reflexivity.
  - apply (whole_prefixes_chunk_per_frame [no_payload_bytes; to_json hi_message]).
    repeat constructor; vm_compute; discriminate.
  - vm_compute. reflexivity.
  - reflexivity.
  - intros v. discriminate.
Defined.

(** *** Heartbeats, cleanup passes and the entry of a peer *)










(** X13. A cleanup pass leaves nothing for a second one: after a pass at
    time [t], a pass at [t] or at any earlier time changes nothing and
    calls nothing. *)
Theorem cleanup_pass_twice :
  forall (self self' : PeerDiscovery) (calls : list call) (t t' : Q),
    table_inv self ->
    cleanup_pass self t = Ok (self', calls) ->
    (t' <= t)%Q ->
    cleanup_pass self' t' = Ok (self', []).
Proof.
  intros self self' calls t t' Hinv Hc Hle.
  destruct (cleanup_pass_ok self t Hinv) as (s1 & c1 & Hc1 & Hinv' & _ & Hp & _).
  rewrite Hc in Hc1. injection Hc1 as <- <-.
  assert (Hnil : stale self' t' = []).
  { destruct (stale self' t') as [|ip l] eqn:Es; [reflexivity|]. exfalso.
    assert (Hin : In ip (stale self' t')) by (rewrite Es; now left).
    apply (stale_In self' t' ip (proj1 Hinv')) in Hin as (t0 & Hg & Hq).
    rewrite Hp in Hg.
    destruct (existsb (str_eqb ip) (stale self t)) eqn:E; [discriminate|].
    rewrite (stale_existsb self t ip t0 (proj1 Hinv) Hg) in E.
    apply Qgtb_true in Hq. apply Qgtb_false in E. lra. }
  unfold cleanup_pass. rewrite Hnil. reflexivity.
Qed.

(** X13 at two passes at time 7 *)
Lemma cleanup_pass_twice_witness :
  cleanup_pass empty 7 = Ok (empty, []).
Proof.
  apply (cleanup_pass_twice table_with_alice empty
           [(on_peer_lost peer_ip, empty)] 7 7).
  - split; [reflexivity|]. split; [reflexivity|].
    intros ip. unfold dict_mem. simpl. destruct (str_eqb ip peer_ip); reflexivity.
  - reflexivity.
  - apply Qle_refl.
Defined.

(** *** The desktop interface *)

Import PyStrOps.

Lemma split_app_sep sep a b :
  ~ In sep b ->
  exists p ps, split sep (a ++ sep :: b) = p :: ps /\ ps <> [] /\ last ps [] = b.
Proof.
  intros Hb.
  assert (Hs : split sep b = [b]).
  { induction b as [|c b IH]; [reflexivity|]. cbn [split].
    destruct (Z.eqb_spec c sep) as [->|Hne]; [exfalso; apply Hb; now left|].
    rewrite IH; [reflexivity|]. intros H. apply Hb. now right. }
  induction a as [|c a IH].
  - exists [], [b]. cbn [List.app split]. rewrite Z.eqb_refl, Hs.
    split; [reflexivity|]. split; [discriminate | reflexivity].
  - destruct IH as (p & ps & Hp & Hne & Hl). cbn [List.app split]. rewrite Hp.
    destruct (c =? sep).
    + exists [], (p :: ps). split; [reflexivity|]. split; [discriminate|].
      destruct ps as [|q ps]; [contradiction | exact Hl].
    + exists (c :: p), ps. auto.
Qed.

Lemma last_split_app_sep sep a b :
  ~ In sep b -> last (split sep (a ++ sep :: b)) [] = b.
Proof.
  intros Hb. destruct (split_app_sep sep a b Hb) as (p & ps & -> & Hne & Hl).
  destruct ps as [|q ps]; [contradiction | exact Hl].
Qed.

Lemma lstrip_head chars c r :
  existsb (Z.eqb c) chars = false -> lstrip chars (c :: r) = c :: r.
Proof. intros H. cbn [lstrip]. now rewrite H. Qed.

Lemma no_paren_In s : no_paren s = true -> ~ In 40 s /\ ~ In 41 s.
Proof.
  unfold no_paren. rewrite forallb_forall. intros H. split; intros Hin;
    specialize (H _ Hin); discriminate.
Qed.

Lemma strip_closing ip : ~ In 41 ip -> strip (lit ")") (ip ++ lit ")") = ip.
Proof.
  intros Hn. unfold strip. change (lit ")") with [41].
  assert (Hl : forall s, ~ In 41 s -> lstrip [41] s = s).
  { intros [|c r] Hs; [reflexivity|]. apply lstrip_head. cbn [existsb].
    destruct (Z.eqb_spec c 41) as [->|]; [exfalso; apply Hs; now left | reflexivity]. }
  assert (Hl1 : lstrip [41] (ip ++ [41]) = if (length ip =? 0)%nat then [] else ip ++ [41]).
  { destruct ip as [|c r]; [reflexivity|]. cbn [length Nat.eqb List.app].
    apply lstrip_head. cbn [existsb].
    destruct (Z.eqb_spec c 41) as [->|]; [exfalso; apply Hn; now left | reflexivity]. }
  rewrite Hl1. destruct ip as [|c r]; [reflexivity|]. cbn [length Nat.eqb].
  rewrite List.rev_app_distr.
  change (List.rev [41] ++ List.rev (c :: r)) with (41 :: List.rev (c :: r)).
  remember (List.rev (c :: r)) as t eqn:Ht.
  cbn [lstrip existsb]. rewrite Z.eqb_refl. cbn [orb]. subst t.
  rewrite Hl; [apply List.rev_involutive|].
  intros Hin. apply Hn. now apply List.in_rev.
Qed.

Section GuiFacts.
Variable str_of : pyval -> str.

Lemma ip_of_row_display ip name :
  no_paren ip = true -> gui.ip_of_row (gui.display str_of ip name) = ip.
Proof.
  intros Hp. apply no_paren_In in Hp as [H40 H41].
  unfold gui.ip_of_row, gui.display. change (lit " (") with [32; 40].
  replace (str_of name ++ [32; 40] ++ ip ++ lit ")")
    with ((str_of name ++ [32]) ++ 40 :: (ip ++ lit ")"))
    by (now rewrite <- app_assoc).
  rewrite last_split_app_sep.
  - now apply strip_closing.
  - intros Hin. apply in_app_or in Hin as [Hin|Hin]; [contradiction|].
    destruct Hin as [Hin|[]]. discriminate.
Qed.
End GuiFacts.

(** X20. Selecting a row gives the address of its peer.  Whatever the
    display name, the address [_on_peer_selected] reads off a row that
    [_add_peer] wrote for [ip] is [ip], provided [ip] has no
    parenthesis in it. *)
Theorem selecting_a_row_gives_its_address :
  forall (str_of : pyval -> str) (self : gui.GuiApp) (k : nat) (ip : str) (name : pyval),
    nth_error (gui.peer_listbox self) k = Some (gui.display str_of ip name) ->
    no_paren ip = true ->
    gui.selected_peer_ip (gui._on_peer_selected self [k]) = Some ip.
Proof.
  intros str_of self k ip name Hk Hp. unfold gui._on_peer_selected. cbn [gui.selected_peer_ip].
  rewrite (nth_error_nth _ _ _ Hk). now rewrite ip_of_row_display.
Qed.

(** X20 at the row of alice *)
Lemma selecting_a_row_gives_its_address_witness :
  gui.selected_peer_ip
    (gui._on_peer_selected
       (gui._add_peer ascii_name gui.empty_app peer_ip (PyStr (lit "alice (home)")))
       [0%nat])
  = Some peer_ip.
Proof.
  apply (selecting_a_row_gives_its_address ascii_name _ 0 peer_ip
           (PyStr (lit "alice (home)"))); reflexivity.
Defined.

(** **** The keys of the table along a run *)

Lemma dict_keys_del {V : Type} k (d : list (str * V)) :
  dict_keys (dict_del k d) = remove_first k (dict_keys d).
Proof.
  induction d as [|[k' v] d IH]; [reflexivity|]. cbn [dict_del dict_keys List.map fst remove_first].
  destruct (str_eqb k k'); [reflexivity|]. simpl. f_equal. exact IH.
Qed.

Lemma plain_calls_app cs1 :
  forall keys cs2,
    plain_calls keys cs1 ->
    plain_calls (fold_left keys_after cs1 keys) cs2 ->
    plain_calls keys (cs1 ++ cs2).
Proof.
  induction cs1 as [|c cs1 IH]; intros keys cs2 H1 H2; [exact H2|].
  destruct H1 as [Hc H1]. split; [exact Hc|]. now apply IH.
Qed.

Lemma remove_all_keys to_remove :
  forall self self' calls,
    remove_all self to_remove = Ok (self', calls) ->
    plain_calls (dict_keys (peers self)) (List.map fst calls)
    /\ dict_keys (peers self')
       = fold_left keys_after (List.map fst calls) (dict_keys (peers self)).
Proof.
  induction to_remove as [|ip rest IH]; intros self self' calls H.
  - injection H as <- <-. split; [exact I | reflexivity].
  - cbn [remove_all] in H. destruct (dict_mem ip (peers self)) eqn:Em; [|discriminate].
    apply dict_mem_In in Em.
    match type of H with
    | match remove_all ?s2 rest with _ => _ end = _ =>
      destruct (remove_all s2 rest) as [[s3 calls3]|e] eqn:Er; [|discriminate];
      assert (Hk : dict_keys (peers s2) = remove_first ip (dict_keys (peers self)))
    end.
    { destruct (dict_mem ip (peer_names _)); cbn [peers]; apply dict_keys_del. }
    injection H as <- <-. destruct (IH _ _ _ Er) as [Hp Hf]. cbn [List.map fst fold_left plain_calls keys_after].
    rewrite <- Hk. split; [split; [exact Em | exact Hp] | exact Hf].
Qed.

Lemma step_keys self i self' calls :
  plain_inputs [i] = true ->
  step self i = Ok (self', calls) ->
  plain_calls (dict_keys (peers self)) (List.map fst calls)
  /\ dict_keys (peers self')
     = fold_left keys_after (List.map fst calls) (dict_keys (peers self)).
Proof.
  intros Hp Hs. destruct i as [t ip name|t]; cbn [step] in Hs.
  - cbn [plain_inputs forallb] in Hp. rewrite andb_true_r in Hp.
    apply andb_true_iff in Hp as [Hip Hname].
    injection Hs as Hs.
    assert (H1 : self' = fst (_handle_discovery self t ip name)) by now rewrite Hs.
    assert (H2 : calls = snd (_handle_discovery self t ip name)) by now rewrite Hs.
    subst self' calls. rewrite handle_discovery_callbacks, handle_discovery_state.
    cbn [peers]. rewrite dict_keys_set.
    destruct (dict_mem ip (peers self)) eqn:Em; [split; [exact I | reflexivity]|].
    split; [|reflexivity]. cbn [plain_calls]. repeat split; auto.
    intros Hin. apply dict_mem_In in Hin. congruence.
  - now apply (remove_all_keys (stale self t)).
Qed.

Lemma run_keys inputs :
  forall self self' calls,
    plain_inputs inputs = true ->
    run self inputs = Ok (self', calls) ->
    plain_calls (dict_keys (peers self)) (List.map fst calls)
    /\ dict_keys (peers self')
       = fold_left keys_after (List.map fst calls) (dict_keys (peers self)).
Proof.
  induction inputs as [|i inputs IH]; intros self self' calls Hp Hr.
  - injection Hr as <- <-. split; [exact I | reflexivity].
  - cbn [run] in Hr. destruct (step self i) as [[s1 c1]|e] eqn:Es; [|discriminate].
    destruct (run s1 inputs) as [[s2 c2]|e] eqn:Er; [|discriminate].
    injection Hr as <- <-.
    cbn [plain_inputs forallb] in Hp. apply andb_true_iff in Hp as [Hi Hp].
    assert (Hi1 : plain_inputs [i] = true) by (cbn [plain_inputs forallb]; now rewrite Hi).
    destruct (step_keys self i s1 c1 Hi1 Es) as [Hp1 Hk1].
    destruct (IH s1 s2 c2 Hp Er) as [Hp2 Hk2].
    rewrite map_app, fold_left_app, <- Hk1. split; [|exact Hk2].
    apply plain_calls_app; [exact Hp1|]. now rewrite <- Hk1.
Qed.

(** **** The rows of the list box along the callbacks *)

Lemma startswith_closing ip :
  forall ip',
    ~ In 41 ip -> ~ In 41 ip' ->
    startswith (ip ++ [41]) (ip' ++ [41]) = str_eqb ip ip'.
Proof.
  induction ip as [|x ip IH]; intros [|y ip'] H1 H2; cbn [List.app startswith str_eqb].
  - reflexivity.
  - destruct (Z.eqb_spec 41 y) as [<-|]; [exfalso; apply H2; now left | reflexivity].
  - destruct (Z.eqb_spec x 41) as [->|]; [exfalso; apply H1; now left | reflexivity].
  - rewrite IH; [reflexivity | |]; intros H; [apply H1 | apply H2]; now right.
Qed.

Lemma contains_without_head x q s : ~ In x s -> contains (x :: q) s = false.
Proof.
  induction s as [|y s IH]; intros H; [reflexivity|]. cbn [contains startswith].
  destruct (Z.eqb_spec x y) as [->|]; [exfalso; apply H; now left|].
  cbn [andb orb]. apply IH. intros Hin. apply H. now right.
Qed.

Lemma contains_skip x q a s :
  ~ In x a -> contains (x :: q) (a ++ s) = contains (x :: q) s.
Proof.
  induction a as [|y a IH]; intros H; [reflexivity|]. cbn [List.app contains startswith].
  destruct (Z.eqb_spec x y) as [->|]; [exfalso; apply H; now left|].
  cbn [andb orb]. apply IH. intros Hin. apply H. now right.
Qed.

Section GuiRows.
Variable str_of : pyval -> str.
Variable askyesno : Message -> bool.
Hypothesis str_of_str : forall s, str_of (PyStr s) = s.

Lemma contains_row_pattern ip ip' n :
  no_paren ip = true -> no_paren ip' = true -> ~ In 40 n ->
  contains (gui.row_pattern ip) (gui.display str_of ip' (PyStr n)) = str_eqb ip ip'.
Proof.
  intros Hip Hip' Hn. apply no_paren_In in Hip as [_ H41], Hip' as [H40' H41'].
  unfold gui.row_pattern, gui.display. rewrite str_of_str.
  change (lit "(" ++ ip ++ lit ")") with (40 :: ip ++ [41]).
  change (lit " (") with [32; 40]. change (lit ")") with [41].
  replace (n ++ [32; 40] ++ ip' ++ [41]) with ((n ++ [32]) ++ 40 :: ip' ++ [41])
    by (now rewrite <- app_assoc).
  rewrite contains_skip.
  - cbn [contains startswith]. rewrite Z.eqb_refl. cbn [andb].
    rewrite contains_without_head.
    + rewrite orb_false_r. now apply startswith_closing.
    + intros Hin. apply in_app_or in Hin as [Hin|[Hin|[]]]; [contradiction | discriminate].
  - intros Hin. apply in_app_or in Hin as [Hin|[Hin|[]]]; [contradiction | discriminate].
Qed.

Lemma remove_shown_keys ip shown :
  List.map fst (remove_shown ip shown) = remove_first ip (List.map fst shown).
Proof.
  induction shown as [|p shown IH]; [reflexivity|]. cbn [remove_shown List.map remove_first].
  destruct (str_eqb ip (fst p)); [reflexivity|]. cbn [List.map]. now rewrite IH.
Qed.

Lemma remove_shown_plain ip shown : plain_rows shown -> plain_rows (remove_shown ip shown).
Proof.
  induction 1 as [|p shown Hp Hs IH]; [constructor|]. cbn [remove_shown].
  destruct (str_eqb _ _); [exact Hs | now constructor].
Qed.

Lemma delete_first_match_rows ip shown :
  no_paren ip = true ->
  plain_rows shown ->
  match gui.delete_first_match (gui.row_pattern ip) (rows_of str_of shown) with
  | Some rows => rows = rows_of str_of (remove_shown ip shown)
  | None => remove_shown ip shown = shown
  end.
Proof.
  intros Hip. induction 1 as [|[ip' n] shown [Hp Hn] Hs IH]; [reflexivity|].
  cbn [rows_of List.map gui.delete_first_match remove_shown fst snd] in *.
  rewrite (contains_row_pattern ip ip' n Hip Hp Hn).
  destruct (str_eqb ip ip'); [reflexivity|].
  fold (rows_of str_of shown).
  destruct (gui.delete_first_match _ _) as [rows|]; [now rewrite IH | now rewrite IH].
Qed.

Lemma remove_peer_rows self ip shown :
  no_paren ip = true ->
  plain_rows shown ->
  gui.peer_listbox self = rows_of str_of shown ->
  gui.peer_listbox (gui._remove_peer self ip) = rows_of str_of (remove_shown ip shown)
  /\ gui.gui_queue (gui._remove_peer self ip) = gui.gui_queue self.
Proof.
  intros Hip Hs Hrows. unfold gui._remove_peer. rewrite Hrows.
  pose proof (delete_first_match_rows ip shown Hip Hs) as H.
  destruct (gui.delete_first_match _ _) as [rows|].
  - destruct (gui.option_str_eqb _ _); cbn [gui.peer_listbox gui.gui_queue]; auto.
  - rewrite H. auto.
Qed.
End GuiRows.

Section GuiSync.
Variable str_of : pyval -> str.
Variable askyesno : Message -> bool.
Hypothesis str_of_str : forall s, str_of (PyStr s) = s.

Lemma rows_ip_of_row shown :
  plain_rows shown -> List.map gui.ip_of_row (rows_of str_of shown) = List.map fst shown.
Proof.
  induction 1 as [|p shown [Hp _] Hs IH]; [reflexivity|].
  change (rows_of str_of (p :: shown))
    with (gui.display str_of (fst p) (PyStr (snd p)) :: rows_of str_of shown).
  cbn [List.map]. rewrite IH.
  now rewrite (ip_of_row_display str_of (fst p) (PyStr (snd p)) Hp).
Qed.

Lemma add_peer_rows self ip n shown :
  no_paren ip = true ->
  ~ In 40 n ->
  ~ In ip (List.map fst shown) ->
  plain_rows shown ->
  gui.peer_listbox self = rows_of str_of shown ->
  gui.peer_listbox (gui._add_peer str_of self ip (PyStr n))
  = rows_of str_of (shown ++ [(ip, n)])
  /\ gui.gui_queue (gui._add_peer str_of self ip (PyStr n)) = gui.gui_queue self.
Proof.
  intros Hip Hn Hnew Hs Hrows. unfold gui._add_peer. rewrite Hrows.
  destruct (existsb _ _) eqn:E.
  - exfalso. apply existsb_exists in E as (row & Hin & Heq).
    apply str_eqb_eq in Heq. subst row.
    apply (in_map gui.ip_of_row) in Hin.
    rewrite (rows_ip_of_row shown Hs), (ip_of_row_display str_of ip (PyStr n) Hip) in Hin.
    contradiction.
  - cbn [gui.peer_listbox gui.gui_queue]. split; [|reflexivity].
    unfold rows_of. now rewrite map_app.
Qed.

Lemma run_tasks_rows cs :
  forall self shown,
    plain_calls (List.map fst shown) cs ->
    plain_rows shown ->
    gui.peer_listbox self = rows_of str_of shown ->
    exists self' shown',
      gui.run_tasks str_of askyesno self (List.map task_of cs) = (self', None)
      /\ gui.peer_listbox self' = rows_of str_of shown'
      /\ plain_rows shown'
      /\ List.map fst shown' = fold_left keys_after cs (List.map fst shown)
      /\ gui.gui_queue self' = [].
Proof.
  induction cs as [|c cs IH]; intros self shown Hc Hs Hrows.
  - exists (gui.set_queue self []), shown. cbn. auto.
  - destruct Hc as [Hc Hrest]. cbn [List.map task_of gui.run_tasks].
    destruct c as [ip name|ip]; cbn [task_of gui.run_task].
    + destruct Hc as (Hip & Hname & Hnew).
      destruct name as [| | | |n| |]; try discriminate.
      assert (Hn : ~ In 40 n).
      { cbn [plain_name] in Hname. rewrite forallb_forall in Hname.
        intros Hin. specialize (Hname _ Hin). discriminate. }
      destruct (add_peer_rows (gui.set_queue self (List.map task_of cs)) ip n shown
                  Hip Hn Hnew Hs Hrows) as [Hr _].
      destruct (IH _ (shown ++ [(ip, n)])
                  ltac:(rewrite map_app; exact Hrest)
                  ltac:(apply Forall_app; split; auto) Hr)
        as (self' & shown' & Hrun & Hrows' & Hs' & Hk & Hq).
      exists self', shown'. rewrite Hrun. repeat split; auto.
      rewrite Hk, map_app. reflexivity.
    + assert (Hip : no_paren ip = true).
      { apply in_map_iff in Hc as (p & <- & Hin).
        unfold plain_rows in Hs. rewrite Forall_forall in Hs. now apply Hs. }
      destruct (remove_peer_rows str_of ltac:(assumption)
                  (gui.set_queue self (List.map task_of cs)) ip shown Hip Hs Hrows)
        as [Hr _].
      destruct (IH _ (remove_shown ip shown)
                  ltac:(rewrite remove_shown_keys; exact Hrest)
                  (remove_shown_plain ip shown Hs) Hr)
        as (self' & shown' & Hrun & Hrows' & Hs' & Hk & Hq).
      exists self', shown'. rewrite Hrun. repeat split; auto.
      rewrite Hk, remove_shown_keys. reflexivity.
Qed.

Lemma gui_callbacks_queue cs :
  forall self,
    gui.gui_queue (fold_left gui_callback cs self) = gui.gui_queue self ++ List.map task_of cs
    /\ gui.peer_listbox (fold_left gui_callback cs self) = gui.peer_listbox self.
Proof.
  induction cs as [|c cs IH]; intros self; cbn [fold_left List.map].
  - now rewrite List.app_nil_r.
  - destruct (IH (gui_callback self c)) as [Hq Hl]. rewrite Hq, Hl.
    destruct c; cbn; rewrite <- app_assoc; auto.
Qed.
End GuiSync.

(** X21. The list box follows the peer table.  For heartbeats whose
    addresses have no parenthesis and whose names are strings without
    an opening parenthesis: after any sequence of heartbeats and cleanup
    passes, once [_process_queue] has run the closures the callbacks
    queued, it has met no exception, the queue is empty, and the rows
    of the list box are those of the peers in the table, in the order
    of the table: the address read off the [k]-th row is the [k]-th
    key of [self.peers]. *)
Theorem list_box_follows_peer_table :
  forall (str_of : pyval -> str) (askyesno : Message -> bool) (inputs : list input),
    (forall s, str_of (PyStr s) = s) ->
    plain_inputs inputs = true ->
    exists self calls app,
      run empty inputs = Ok (self, calls)
      /\ gui._process_queue str_of askyesno
           (fold_left gui_callback (List.map fst calls) gui.empty_app) = (app, true)
      /\ List.map gui.ip_of_row (gui.peer_listbox app) = dict_keys (peers self)
      /\ gui.gui_queue app = [].
Proof.
  intros str_of askyesno inputs Hstr Hplain.
  destruct (run_ok inputs empty table_inv_empty) as (self & calls & Hr & _).
  destruct (run_keys inputs empty self calls Hplain Hr) as [Hp Hk].
  destruct (gui_callbacks_queue (List.map fst calls) gui.empty_app) as [Hq Hl].
  destruct (run_tasks_rows str_of askyesno Hstr (List.map fst calls)
              (fold_left gui_callback (List.map fst calls) gui.empty_app) []
              Hp (Forall_nil _) Hl)
    as (app & shown & Hrun & Hrows & Hs & Hkeys & Hqueue).
  exists self, calls, app. split; [exact Hr|]. split.
  - unfold gui._process_queue. rewrite Hq. cbn [gui.empty_app gui.gui_queue List.app].
    now rewrite Hrun.
  - split; [|exact Hqueue].
    rewrite Hrows, (rows_ip_of_row str_of shown Hs), Hkeys, Hk. reflexivity.
Qed.

(** X21 at two peers, of which the first is lost and found again *)
Lemma list_box_follows_peer_table_witness :
  exists self calls app,
    run empty two_peers = Ok (self, calls)
    /\ gui._process_queue ascii_name (fun _ => true)
         (fold_left gui_callback (List.map fst calls) gui.empty_app) = (app, true)
    /\ List.map gui.ip_of_row (gui.peer_listbox app) = [lit "10.0.0.9"; peer_ip].
Proof.
  destruct (list_box_follows_peer_table ascii_name (fun _ => true) two_peers)
    as (self & calls & app & Hr & Hq & Hk & _); [reflexivity | reflexivity |].
  exists self, calls, app. split; [exact Hr|]. split; [exact Hq|].
  rewrite Hk. vm_compute in Hr. injection Hr as <- _. reflexivity.
Defined.

(** Without the condition on the names the rows can go wrong: the row
    of a peer whose name holds the address of another in parentheses is
    the one deleted when that other peer is lost. *)
Lemma row_deleted_for_a_name_in_parentheses :
  gui.peer_listbox
    (gui._remove_peer
       (gui._add_peer ascii_name
          (gui._add_peer ascii_name gui.empty_app peer_ip (PyStr (lit "x (10.0.0.9)")))
          (lit "10.0.0.9") (PyStr bob))
       (lit "10.0.0.9"))
  = [lit "bob (10.0.0.9)"].
Proof. vm_compute. reflexivity. Qed.

(** X22. A text reaches the chat display.  The frame [send_message]
    writes, received by the handler of the desktop interface, is
    dispatched without error and leaves one closure on the queue;
    [_process_queue] then logs the sender's name and the text, empties
    the queue and asks to be called again. *)
Theorem gui_shows_sent_text :
  forall (str_of : pyval -> str) (askyesno : Message -> bool)
         (running : nat -> bool) (ip : str) (a : transfers) (self : gui.GuiApp)
         (username message : str) (frame first : bytes) (rest : list bytes),
    (forall i, running i = true) ->
    text_ok username = true ->
    text_ok message = true ->
    send_message username message = Ok frame ->
    first ++ concat rest = frame ->
    (4 <= length first)%nat ->
    gui.gui_queue self = [] ->
    exists tr self1 self2,
      _handle_client_with gui.on_message_received running ip a self
                          (mkSocket (first :: rest) peer_closed)
      = Some (tr, a, self1)
      /\ (forall e, ~ In (ev_log_error e) tr)
      /\ gui.gui_queue self1
         = [gui.task_log_message (stamp ip (text_message username message))]
      /\ gui._process_queue str_of askyesno self1 = (self2, true)
      /\ gui.chat_display self2
         = gui.chat_display self ++ [gui.log_chat (PyStr username) (PyStr message)]
      /\ gui.peer_listbox self2 = gui.peer_listbox self
      /\ gui.gui_queue self2 = [].
Proof.
  intros str_of askyesno running ip a self username message frame first rest
         Hrun Hu Hm Hsend Hcat Hlen Hq.
  destruct (round_trip_fields (text_message username message)) as (body & Hb & Hd);
    [exact Hu | reflexivity | simpl; now rewrite Hm |].
  unfold send_message, _send_to_peer, bind in Hsend. rewrite Hb in Hsend.
  destruct (int_to_bytes4_big (Z.of_nat (length body))) as [hdr|e] eqn:Eh; [|discriminate].
  injection Hsend as <-.
  rewrite (framing_with_consumer _ gui.on_message_received running ip Hrun
             [body] (first :: rest) a self
             (whole_prefixes_one_frame body hdr first rest Eh Hcat Hlen)).
  cbn [handle_frames_with]. rewrite Hd.
  eexists _, _, _. split; [reflexivity|].
  split; [intros e [H|[H|[H|[]]]]; discriminate|].
  rewrite Hq. split; [reflexivity|].
  split; [reflexivity|]. split; [reflexivity|]. split; reflexivity.
Qed.

(** X22 at the text "hi" *)
Lemma gui_shows_sent_text_witness :
  exists tr self1 self2,
    _handle_client_with gui.on_message_received always_running peer_ip [] gui.empty_app
                        (mkSocket [frame_of hi_message] peer_closed)
    = Some (tr, [], self1)
    /\ gui._process_queue ascii_name (fun _ => true) self1 = (self2, true)
    /\ gui.chat_display self2 = [gui.log_chat (PyStr alice) (PyStr (lit "hi"))].
Proof.
  destruct (gui_shows_sent_text ascii_name (fun _ => true) always_running peer_ip []
              gui.empty_app alice (lit "hi") (frame_of hi_message)
              (frame_of hi_message) [])
    as (tr & self1 & self2 & H1 & _ & _ & H4 & H5 & _).
  - reflexivity.
  - reflexivity.
  - reflexivity.
  - vm_compute. reflexivity.
  - cbn [concat]. apply List.app_nil_r.
  - vm_compute. lia.
  - reflexivity.
  - exists tr, self1, self2. split; [exact H1|]. split; [exact H4 | exact H5].
Defined.

(** X23. A text envelope without text stops the queue.  A [TEXT]
    envelope whose payload has no [text] passes the handler of the
    desktop interface without error: the callback only queues a
    closure.  The closure raises when [_process_queue] calls it, so
    [_process_queue] returns without asking to be called again, and the
    closures queued behind it stay on the queue. *)
Theorem gui_text_without_text_stops_the_queue :
  forall (str_of : pyval -> str) (askyesno : Message -> bool)
         (running : nat -> bool) (ip : str) (a : transfers) (self : gui.GuiApp)
         (body : bytes) (cs : list bytes) (msg0 : Message) (later : list gui.task),
    (forall i, running i = true) ->
    whole_prefixes [body] cs ->
    from_bytes body = Ok msg0 ->
    type msg0 = TEXT ->
    (forall v, getitem (payload msg0) (lit "text") <> Ok v) ->
    gui.gui_queue self = [] ->
    exists self1,
      _handle_client_with gui.on_message_received running ip a self
                          (mkSocket cs peer_closed)
      = Some ([ev_from_bytes body (Ok msg0); ev_on_message (stamp ip msg0); ev_close],
              a, self1)
      /\ gui.gui_queue self1 = [gui.task_log_message (stamp ip msg0)]
      /\ gui._process_queue str_of askyesno
           (gui.set_queue self1 (gui.gui_queue self1 ++ later))
         = (gui.set_queue self later, false).
Proof.
  intros str_of askyesno running ip a self body cs msg0 later Hrun Hw Hd Hty Hno Hq.
  rewrite (framing_with_consumer _ gui.on_message_received running ip Hrun _ cs a self Hw).
  cbn [handle_frames_with]. rewrite Hd. unfold gui.on_message_received.
  cbn [type set_sender_ip]. rewrite !Hty. cbn [MessageType_eqb].
  eexists. split; [reflexivity|]. rewrite Hq. split; [reflexivity|].
  unfold gui._process_queue.
  cbn [gui.set_queue gui.gui_queue List.app gui.run_tasks gui.run_task].
  change (payload (set_sender_ip msg0 (PyStr ip))) with (payload msg0).
  destruct (getitem (payload msg0) (lit "text")) as [v|e]; [|reflexivity].
  exfalso. now apply (Hno v).
Qed.

(** X23 at a text envelope without payload, with a new peer queued behind it *)
Lemma gui_text_without_text_stops_the_queue_witness :
  exists self1,
    _handle_client_with gui.on_message_received always_running peer_ip [] gui.empty_app
                        (mkSocket [frame_bytes no_payload_bytes] peer_closed)
    = Some ([ev_from_bytes no_payload_bytes
               (Ok (mkMessage TEXT (PyStr alice) (PyStr []) PyNone));
             ev_on_message
               (stamp peer_ip (mkMessage TEXT (PyStr alice) (PyStr []) PyNone));
             ev_close], [], self1)
    /\ gui._process_queue ascii_name (fun _ => true)
         (gui.set_queue self1
            (gui.gui_queue self1 ++ [gui.task_add_peer peer_ip (PyStr bob)]))
       = (gui.set_queue gui.empty_app [gui.task_add_peer peer_ip (PyStr bob)], false).
Proof.
  destruct (gui_text_without_text_stops_the_queue ascii_name (fun _ => true)
              always_running peer_ip [] gui.empty_app no_payload_bytes
              [frame_bytes no_payload_bytes]
              (mkMessage TEXT (PyStr alice) (PyStr []) PyNone)
              [gui.task_add_peer peer_ip (PyStr bob)])
    as (self1 & H1 & _ & H3).
  - reflexivity.
  - apply (whole_prefixes_chunk_per_frame [no_payload_bytes]).
    repeat constructor; vm_compute; discriminate.
  - vm_compute. reflexivity.
  - reflexivity.
  - intros v. discriminate.
  - reflexivity.
  - exists self1. split; [exact H1 | exact H3].
Defined.
